(** * AgentX automation core

    A shallow embedding of the Python sources of the browser-automation core
    (security gate, permission policy, selector memory, vector store, browser
    pool, web navigator and orchestrator loops) together with the properties
    its specification states about them.

    Conventions.
    - Python [str] is [string]; Python [int] is [Z]; a [dict] keyed by strings
      is a [gmap string _]; SQLite tables are lists of row records.
    - Wall-clock readings ([time.time()]) and token counts are rationals [Q]:
      the arithmetic of the token bucket is read exactly.  Similarity scores of
      the vector store are IEEE-754 binary64 values ([PrimFloat.float]), as in
      Python.
    - Code that raises returns a [result]; code that mutates [self] returns the
      new state next to its value. *)

From Stdlib Require Import ZArith QArith Qminmax Bool Ascii String List Permutation Sorted Lia Lqa.
From Stdlib Require Import PrimFloat SpecFloat FloatOps FloatAxioms.
From stdpp Require Import gmap strings.
Import ListNotations.

Local Open Scope string_scope.
Local Open Scope list_scope.

(** ** Python string primitives *)

Module PyStr.

Definition is_upper (c : ascii) : bool :=
  let n := nat_of_ascii c in (65 <=? n)%nat && (n <=? 90)%nat.

Definition is_alpha (c : ascii) : bool :=
  let n := nat_of_ascii c in
  ((65 <=? n)%nat && (n <=? 90)%nat) || ((97 <=? n)%nat && (n <=? 122)%nat).

Definition is_digit (c : ascii) : bool :=
  let n := nat_of_ascii c in (48 <=? n)%nat && (n <=? 57)%nat.

Definition is_alnum (c : ascii) : bool := is_alpha c || is_digit c.

(** [str.isspace] on the ASCII range. *)
Definition is_space (c : ascii) : bool :=
  let n := nat_of_ascii c in
  ((9 <=? n)%nat && (n <=? 13)%nat) || ((28 <=? n)%nat && (n <=? 32)%nat).

Definition lower_char (c : ascii) : ascii :=
  if is_upper c then ascii_of_nat (nat_of_ascii c + 32) else c.

(** [s.lower()] *)
Fixpoint lower (s : string) : string :=
  match s with
  | EmptyString => EmptyString
  | String c s' => String (lower_char c) (lower s')
  end.

(** [s.startswith(p)] *)
Definition startswith (s p : string) : bool := String.prefix p s.

(** [s.endswith(d)]: some suffix of [s] is [d]. *)
Fixpoint endswith (s d : string) : bool :=
  String.eqb s d ||
  match s with
  | EmptyString => false
  | String _ s' => endswith s' d
  end.

(** [sub in s] *)
Fixpoint contains (sub s : string) : bool :=
  String.prefix sub s ||
  match s with
  | EmptyString => false
  | String _ s' => contains sub s'
  end.

(** [s.split(c)] for a one-character separator. *)
Fixpoint split_char (c : ascii) (s : string) : list string :=
  match s with
  | EmptyString => [EmptyString]
  | String a s' =>
      if Ascii.eqb a c then EmptyString :: split_char c s'
      else match split_char c s' with
           | [] => [String a EmptyString]
           | w :: ws => String a w :: ws
           end
  end.

Fixpoint lstrip_by (p : ascii -> bool) (s : string) : string :=
  match s with
  | EmptyString => EmptyString
  | String c s' => if p c then lstrip_by p s' else s
  end.

Fixpoint rstrip_by (p : ascii -> bool) (s : string) : string :=
  match s with
  | EmptyString => EmptyString
  | String c s' =>
      match rstrip_by p s' with
      | EmptyString => if p c then EmptyString else String c EmptyString
      | r => String c r
      end
  end.

(** [s.strip()] *)
Definition strip (s : string) : string := rstrip_by is_space (lstrip_by is_space s).

Fixpoint remove_chars (p : ascii -> bool) (s : string) : string :=
  match s with
  | EmptyString => EmptyString
  | String c s' => if p c then remove_chars p s' else String c (remove_chars p s')
  end.

Fixpoint all_chars (p : ascii -> bool) (s : string) : bool :=
  match s with
  | EmptyString => true
  | String c s' => p c && all_chars p s'
  end.

(** [sep.join(l)] *)
Definition join (sep : string) (l : list string) : string := String.concat sep l.

(** The prefix of [s] before the first character satisfying [p], and the
    rest from that character on. *)
Fixpoint break_at (p : ascii -> bool) (s : string) : string * string :=
  match s with
  | EmptyString => (EmptyString, EmptyString)
  | String c s' =>
      if p c then (EmptyString, s)
      else let '(a, b) := break_at p s' in (String c a, b)
  end.

(** [repr] of a list of strings, for strings without quotes or escapes. *)
Definition repr_list (l : list string) : string :=
  "[" +:+ join ", " (map (fun s => "'" +:+ s +:+ "'") l) +:+ "]".

End PyStr.

(** ** Exceptions and results *)

Inductive exn : Type :=
| PermissionError (msg : string)
| RuntimeError (msg : string)
| ZeroDivisionError
| IndexError
| PlaywrightError (msg : string)
| ValueError (msg : string)
| OverflowError (msg : string).

(** [str(e)] *)
Definition exn_message (e : exn) : string :=
  match e with
  | PermissionError m | RuntimeError m | PlaywrightError m | ValueError m
  | OverflowError m => m
  | ZeroDivisionError => "integer modulo by zero"
  | IndexError => "list index out of range"
  end.

Inductive result (A : Type) : Type :=
| Ok (a : A)
| Raise (e : exn).

Arguments Ok {A} a.
Arguments Raise {A} e.

Definition bind {A B : Type} (r : result A) (k : A -> result B) : result B :=
  match r with
  | Ok a => k a
  | Raise e => Raise e
  end.

Notation "'let!' x ':=' r 'in' k" := (bind r (fun x => k))
  (at level 10, x name, r at level 100, k at level 200).

(** ** Python list primitives *)

Module PyList.

(** The position [l[i]] reads: negative indices count from the end. *)
Definition index {A : Type} (l : list A) (i : Z) : option nat :=
  let n := Z.of_nat (length l) in
  if (0 <=? i)%Z && (i <? n)%Z then Some (Z.to_nat i)
  else if (- n <=? i)%Z && (i <? 0)%Z then Some (Z.to_nat (n + i))
  else None.

(** [l[i]] *)
Definition item {A : Type} (l : list A) (i : Z) : result A :=
  match index l i with
  | Some j => match nth_error l j with
              | Some x => Ok x
              | None => Raise IndexError
              end
  | None => Raise IndexError
  end.

(** [l[:k]] *)
Definition slice_to {A : Type} (k : Z) (l : list A) : list A :=
  if (0 <=? k)%Z then firstn (Z.to_nat k) l
  else firstn (length l - Z.to_nat (- k)) l.

(** [l[-k:]] for a positive literal [k] *)
Definition last_n {A : Type} (k : nat) (l : list A) : list A :=
  skipn (length l - k) l.

Section Sort.
Context {A K : Type}.
Variable ltb : K -> K -> bool.
Variable key : A -> K.

(** [list.sort(key=key, reverse=True)] is a stable sort in descending
    key order: an element goes behind the elements before it that are not
    smaller, so elements the comparison does not separate keep their input
    order.  On keys that the comparison orders, every stable descending
    sort returns this list. *)
Fixpoint insert_desc (x : A) (l : list A) : list A :=
  match l with
  | [] => [x]
  | y :: l' => if ltb (key x) (key y) then y :: insert_desc x l' else x :: l
  end.

Fixpoint sort_desc (l : list A) : list A :=
  match l with
  | [] => []
  | x :: l' => insert_desc x (sort_desc l')
  end.

(** [earlier x y]: [x] stood before [y] in the input. *)
Variable earlier : A -> A -> Prop.

(** [x] may stand before [y] in the output: its key is greater, or it is
    not smaller and [x] stood before [y] in the input. *)
Definition desc_stable (x y : A) : Prop :=
  ltb (key y) (key x) = true \/ (ltb (key x) (key y) = false /\ earlier x y).
End Sort.

(** [enumerate(l)] *)
Definition enumerate {A : Type} (l : list A) : list (nat * A) :=
  combine (seq 0 (length l)) l.

End PyList.

(** ** [urllib.parse.urlparse]: scheme and network location

    The part of CPython's [urlsplit] that decides [scheme] and [netloc]:
    leading C0 controls and spaces are stripped, tab, CR and LF are removed,
    a leading run of scheme characters before the first colon is the scheme,
    and after [//] the network location runs to the first of [/], [?], [#].
    The validation of bracketed IPv6 literals is left out. *)

Module Url.

Definition is_c0_or_space (c : ascii) : bool := (nat_of_ascii c <=? 32)%nat.

Definition is_unsafe (c : ascii) : bool :=
  let n := nat_of_ascii c in (n =? 9)%nat || (n =? 10)%nat || (n =? 13)%nat.

Definition is_scheme_char (c : ascii) : bool :=
  PyStr.is_alnum c || Ascii.eqb c "+" || Ascii.eqb c "-" || Ascii.eqb c ".".

Definition is_delim (c : ascii) : bool :=
  Ascii.eqb c "/" || Ascii.eqb c "?" || Ascii.eqb c "#".

Record ParseResult := { scheme : string; netloc : string; rest : string }.

Definition split_scheme (url : string) : string * string :=
  let '(pre, post) := PyStr.break_at (fun c => Ascii.eqb c ":") url in
  match pre, post with
  | String c0 _, String _ after =>
      if PyStr.is_alpha c0 && PyStr.all_chars is_scheme_char pre
      then (PyStr.lower pre, after)
      else (EmptyString, url)
  | _, _ => (EmptyString, url)
  end.

Definition urlparse (url0 : string) : ParseResult :=
  let url := PyStr.remove_chars is_unsafe (PyStr.lstrip_by is_c0_or_space url0) in
  let '(sch, url1) := split_scheme url in
  match url1 with
  | String "/" (String "/" tl) =>
      let '(loc, tl') := PyStr.break_at is_delim tl in
      {| scheme := sch; netloc := loc; rest := tl' |}
  | _ => {| scheme := sch; netloc := EmptyString; rest := url1 |}
  end.

End Url.

(** ** security.py *)

Module Security.

(** *** TokenBucket *)

Record TokenBucket := {
  capacity : Z;
  tokens : Q;
  refill_rate : Q;
  last_refill : Q
}.

(** [TokenBucket(capacity, refill_rate_per_sec)] built at clock reading [now]. *)
Definition TokenBucket_init (cap : Z) (rate : Q) (now : Q) : TokenBucket :=
  {| capacity := cap; tokens := inject_Z cap; refill_rate := rate; last_refill := now |}.

Definition Qltb (x y : Q) : bool := negb (Qle_bool y x).

(** Lines 21-26 of [consume]: the lazy refill at clock reading [now]. *)
Definition refill (now : Q) (b : TokenBucket) : TokenBucket :=
  let elapsed := (now - last_refill b)%Q in
  let amount := (elapsed * refill_rate b)%Q in
  if Qltb 0 amount then
    {| capacity := capacity b;
       tokens := Qmin (inject_Z (capacity b)) (tokens b + amount)%Q;
       refill_rate := refill_rate b;
       last_refill := now |}
  else b.

(** The tokens a [consume] at [now] can draw from. *)
Definition available (now : Q) (b : TokenBucket) : Q := tokens (refill now b).

(** [TokenBucket.consume(tokens)] *)
Definition consume (now : Q) (n : Z) (b : TokenBucket) : bool * TokenBucket :=
  let b1 := refill now b in
  if Qle_bool (inject_Z n) (tokens b1) then
    (true, {| capacity := capacity b1;
              tokens := (tokens b1 - inject_Z n)%Q;
              refill_rate := refill_rate b1;
              last_refill := last_refill b1 |})
  else (false, b1).

(** A sequence of [consume] calls, each with its clock reading and request. *)
Fixpoint consume_all (calls : list (Q * Z)) (b : TokenBucket) : TokenBucket :=
  match calls with
  | [] => b
  | (now, n) :: calls' => consume_all calls' (snd (consume now n b))
  end.

(** *** SecurityManager *)

Record SecurityManager := {
  allowed_domains : list string;
  cookie_whitelist : list string;
  rate_limit_per_min : Z;
  buckets : gmap string TokenBucket
}.

Definition with_buckets (sm : SecurityManager) (bs : gmap string TokenBucket) : SecurityManager :=
  {| allowed_domains := allowed_domains sm;
     cookie_whitelist := cookie_whitelist sm;
     rate_limit_per_min := rate_limit_per_min sm;
     buckets := bs |}.

Definition unsafe_markers : list string :=
  ["<script"; "javascript:"; "onerror="; "onload="].

Definition is_angle (c : ascii) : bool := Ascii.eqb c "<" || Ascii.eqb c ">".

(** The case-insensitive search of [sanitize_input], as a search in the
    lower-cased text. *)
Definition is_unsafe_input (s : string) : bool :=
  existsb (fun m => PyStr.contains m (PyStr.lower s)) unsafe_markers.

(** [sanitize_input] *)
Definition sanitize_input (s : string) : string :=
  if is_unsafe_input s then PyStr.remove_chars is_angle s else s.

(** [is_domain_allowed] *)
Definition is_domain_allowed (sm : SecurityManager) (url : string) : bool :=
  let host := Url.netloc (Url.urlparse url) in
  existsb (fun d => PyStr.endswith host d) (allowed_domains sm).

(** [_bucket_for]: the bucket of [origin], created on first use. *)
Definition _bucket_for (now : Q) (origin : string) (sm : SecurityManager)
  : TokenBucket * SecurityManager :=
  match buckets sm !! origin with
  | Some b => (b, sm)
  | None =>
      let cap := Z.max 1 (rate_limit_per_min sm) in
      let b := TokenBucket_init cap (inject_Z cap / 60)%Q now in
      (b, with_buckets sm (<[origin := b]> (buckets sm)))
  end.

Definition origin_of (url : string) : string :=
  let p := Url.urlparse url in Url.scheme p +:+ "://" +:+ Url.netloc p.

(** [enforce_rate_limit] *)
Definition enforce_rate_limit (now : Q) (url : string) (sm : SecurityManager)
  : bool * SecurityManager :=
  let origin := origin_of url in
  let '(bucket, sm1) := _bucket_for now origin sm in
  let '(allowed, bucket') := consume now 1 bucket in
  (allowed, with_buckets sm1 (<[origin := bucket']> (buckets sm1))).

(** The allowlist rule in the specification's words: the host is an entry,
    or ends with a dot followed by an entry. *)
Definition spec_origin_allowed (domains : list string) (host : string) : bool :=
  existsb (fun d => String.eqb host d || PyStr.endswith host ("." +:+ d)) domains.

(** A manager that allows [example.com]. *)
Definition example_manager : SecurityManager :=
  {| allowed_domains := ["example.com"]; cookie_whitelist := [];
     rate_limit_per_min := 60; buckets := ∅ |}.

End Security.

(** ** permissions.py *)

Module Permissions.

Record PermissionPolicy := {
  allow_login : bool;
  allow_upload : bool;
  allow_off_allowlist : bool;
  auto_approve : bool
}.

(** [PermissionManager.check(action)] *)
Definition check (policy : PermissionPolicy) (action : string) : bool :=
  if String.eqb action "login" then allow_login policy || auto_approve policy
  else if String.eqb action "upload" then allow_upload policy || auto_approve policy
  else if String.eqb action "off-allowlist" then allow_off_allowlist policy || auto_approve policy
  else true.

(** The policy that allows nothing it is asked about. *)
Definition deny_all : PermissionPolicy :=
  {| allow_login := false; allow_upload := false;
     allow_off_allowlist := false; auto_approve := false |}.

End Permissions.


(** ** executor/selector_memory.py *)

Module SelectorMemory.

(** A row of the [selectors] table. *)
Record Row := {
  id : Z;
  host : string;
  action : string;
  label : string;
  selector : string;
  success_count : Z;
  updated : Q
}.

(** The table, rows in rowid order. *)
Definition Table := list Row.

(** [WHERE host=? AND action=? AND label=?] *)
Definition where3 (h a l : string) (r : Row) : bool :=
  String.eqb (host r) h && String.eqb (action r) a && String.eqb (label r) l.

(** [WHERE host=? AND action=? AND label=? AND selector=?] *)
Definition where4 (h a l s : string) (r : Row) : bool :=
  where3 h a l r && String.eqb (selector r) s.

Definition order_key (r : Row) : Z * Q := (success_count r, updated r).

(** Strictly smaller in the order of [success_count], then [updated]. *)
Definition key_ltb (k1 k2 : Z * Q) : bool :=
  (fst k1 <? fst k2)%Z || ((fst k1 =? fst k2)%Z && Security.Qltb (snd k1) (snd k2)).

(** [ORDER BY success_count DESC, updated DESC] *)
Definition order_by_desc (rows : list Row) : list Row :=
  PyList.sort_desc key_ltb order_key rows.

(** The rows [get] selects, in the order it selects them. *)
Definition get_rows (h a l : string) (tbl : Table) : list Row :=
  order_by_desc (List.filter (where3 h a l) tbl).

(** [SelectorMemory.get] *)
Definition get (h a l : string) (tbl : Table) : list string :=
  map selector (get_rows h a l tbl).

(** The rowid SQLite gives an inserted row: one more than the largest. *)
Definition next_rowid (tbl : Table) : Z :=
  match tbl with
  | [] => 1
  | r :: tbl' => 1 + fold_left Z.max (map id tbl') (id r)
  end.

Definition bump (cnt : Z) (now : Q) (r : Row) : Row :=
  {| id := id r; host := host r; action := action r; label := label r;
     selector := selector r; success_count := cnt + 1; updated := now |}.

(** [UPDATE selectors SET success_count=?, updated=? WHERE id=?] *)
Definition update_by_id (sid cnt : Z) (now : Q) (tbl : Table) : Table :=
  map (fun r => if (id r =? sid)%Z then bump cnt now r else r) tbl.

(** [SelectorMemory.save_success] at clock reading [now]; [fetchone] is the
    first matching row. *)
Definition save_success (now : Q) (h a l s : string) (tbl : Table) : Table :=
  match List.find (where4 h a l s) tbl with
  | Some row => update_by_id (id row) (success_count row) now tbl
  | None =>
      tbl ++ [ {| id := next_rowid tbl; host := h; action := a; label := l;
                  selector := s; success_count := 1; updated := now |} ]
  end.

(** The order of the specification between two rows of a result: a larger
    success count first and, among equal counts, the later update first. *)
Definition ranks_before (r1 r2 : Row) : Prop :=
  (success_count r2 < success_count r1)%Z \/
  (success_count r1 = success_count r2 /\ (updated r2 <= updated r1)%Q).

(** An example table: three selectors remembered for one label. *)
Definition row (i : Z) (sel : string) (cnt : Z) (upd : Q) : Row :=
  {| id := i; host := "example.com"; action := "click"; label := "Submit";
     selector := sel; success_count := cnt; updated := upd |}.

Definition example_table : Table :=
  [row 1 "#old" 2 10; row 2 "#submit" 5 20; row 3 "text=Submit" 2 30].

End SelectorMemory.

(** ** The order of binary64 values

    [PrimFloat.ltb] is Python's [<] on floats.  Through the specification of
    the primitive floats it is the lexicographic order of the keys below on
    every value that is not a NaN. *)

Module FloatOrder.

(** Sign class, then exponent, then mantissa, each signed by the sign of the
    value. *)
Definition sf_key (f : spec_float) : Z * Z * Z :=
  match f with
  | S754_nan => (0, 0, 0)%Z
  | S754_infinity true => (-2, 0, 0)%Z
  | S754_infinity false => (2, 0, 0)%Z
  | S754_zero _ => (0, 0, 0)%Z
  | S754_finite true m e => (-1, - e, - Z.pos m)%Z
  | S754_finite false m e => (1, e, Z.pos m)%Z
  end.

Definition key_lt (a b : Z * Z * Z) : Prop :=
  (fst (fst a) < fst (fst b))%Z \/
  (fst (fst a) = fst (fst b) /\
   ((snd (fst a) < snd (fst b))%Z \/ (snd (fst a) = snd (fst b) /\ (snd a < snd b)%Z))).

End FloatOrder.

(** ** memory/vector_store.py *)

Module VectorStore.

Local Open Scope float_scope.

Record SimpleVectorStore := {
  dim : Z;
  docs : list string;
  vecs : list (list float)
}.

(** [SimpleVectorStore(dim)] *)
Definition init (d : Z) : SimpleVectorStore := {| dim := d; docs := []; vecs := [] |}.

(** [re.findall(r'[a-zA-Z0-9]+', s)]: the maximal runs of letters and
    digits; [cur] is the run being read. *)
Fixpoint alnum_runs (s : string) (cur : string) : list string :=
  match s with
  | EmptyString => match cur with EmptyString => [] | _ => [cur] end
  | String c s' =>
      if PyStr.is_alnum c then alnum_runs s' (cur +:+ String c EmptyString)
      else match cur with
           | EmptyString => alnum_runs s' EmptyString
           | _ => cur :: alnum_runs s' EmptyString
           end
  end.

Definition tokens_of (text : string) : list string :=
  alnum_runs (PyStr.lower text) EmptyString.

(** [sum(...)] of floats, accumulated from the left in binary64 (the
    compensated summation of recent interpreters is not modelled). *)
Definition fsum (l : list float) : float := fold_left PrimFloat.add l 0.

(** [sum(a*b for a, b in zip(q, v))] *)
Definition dot (q v : list float) : float :=
  fsum (map (fun ab => fst ab * snd ab) (combine q v)).

(** [v[i] += 1.0] *)
Definition bump (v : list float) (i : Z) : result (list float) :=
  match PyList.index v i with
  | Some j => Ok (alter (fun x => x + 1) j v)
  | None => Raise IndexError
  end.

Section WithHash.

(** The builtin [hash] on strings, which CPython salts per process. *)
Variable py_hash : string -> Z.

(** [_hash]: the bucket of a token. *)
Definition _hash (d : Z) (token : string) : result Z :=
  if (d =? 0)%Z then Raise ZeroDivisionError
  else Ok ((py_hash token mod d + d) mod d)%Z.

(** The loop of [_embed]: one count per token. *)
Fixpoint count_tokens (d : Z) (ts : list string) (v : list float) : result (list float) :=
  match ts with
  | [] => Ok v
  | t :: ts' =>
      let! i := _hash d t in
      let! v' := bump v i in
      count_tokens d ts' v'
  end.

(** [_embed] *)
Definition _embed (d : Z) (text : string) : result (list float) :=
  let! v := count_tokens d (tokens_of text) (repeat 0 (Z.to_nat d)) in
  let n := PrimFloat.sqrt (fsum (map (fun x => x * x) v)) in
  let norm := if PrimFloat.eqb n 0 then 1 else n in
  Ok (map (fun x => x / norm) v).

(** [add_texts]: a text is appended before it is embedded, so a failing
    embedding leaves it in [docs]. *)
Fixpoint add_texts (texts : list string) (s : SimpleVectorStore)
  : result unit * SimpleVectorStore :=
  match texts with
  | [] => (Ok tt, s)
  | t :: texts' =>
      let s1 := {| dim := dim s; docs := docs s ++ [t]; vecs := vecs s |} in
      match _embed (dim s) t with
      | Ok v => add_texts texts' {| dim := dim s1; docs := docs s1; vecs := vecs s1 ++ [v] |}
      | Raise e => (Raise e, s1)
      end
  end.

(** [[(self.docs[i], score) for i, score in ranked]] *)
Fixpoint with_docs (ds : list string) (ranked : list (nat * float))
  : result (list (string * float)) :=
  match ranked with
  | [] => Ok []
  | (i, sc) :: ranked' =>
      let! d := PyList.item ds (Z.of_nat i) in
      let! r := with_docs ds ranked' in
      Ok ((d, sc) :: r)
  end.

(** [similarity_search] *)
Definition similarity_search (query : string) (k : Z) (s : SimpleVectorStore)
  : result (list (string * float)) :=
  let! q := _embed (dim s) query in
  let scores := map (fun iv => (fst iv, dot q (snd iv))) (PyList.enumerate (vecs s)) in
  let ranked := PyList.sort_desc PrimFloat.ltb snd scores in
  with_docs (docs s) (PyList.slice_to k ranked).

(** The embedding of a text, where [_embed] returns one. *)
Definition embedding (d : Z) (text : string) : list float :=
  match _embed d text with
  | Ok v => v
  | Raise _ => []
  end.

(** The store that holds [texts] after [add_texts], in a store of
    dimension [d]. *)
Definition indexed (d : Z) (texts : list string) : SimpleVectorStore :=
  snd (add_texts texts (init d)).

(** The similarity of a text to the query: the inner product of the two
    normalized embeddings, that is, their cosine. *)
Definition similarity (d : Z) (query text : string) : float :=
  match _embed d query, _embed d text with
  | Ok q, Ok v => dot q v
  | _, _ => 0
  end.

End WithHash.

(** [i] is ranked before [j]: its score is greater, or the comparison does
    not separate the two scores and [i] was indexed first. *)
Definition ranks_before (sc : nat -> float) (i j : nat) : Prop :=
  PrimFloat.ltb (sc j) (sc i) = true \/
  (PrimFloat.ltb (sc i) (sc j) = false /\ (i < j)%nat).

Definition example_texts : list string :=
  ["Sign in"; "Submit order"; "submit"; "Cancel"].

(** A stand-in for the salted [hash] in examples: the sum of the character
    codes. *)
Fixpoint demo_hash (s : string) : Z :=
  match s with
  | EmptyString => 0
  | String c s' => Z.of_nat (nat_of_ascii c) + demo_hash s'
  end.

End VectorStore.

(** ** The embedding of a text of one token *)

Module VectorStoreUnit.

(** The embedding of a text with one token: 1 in the token's bucket and 0
    elsewhere. *)
Definition unit_vector (n j : nat) : list float :=
  map (fun i => if (i =? j)%nat then 1%float else 0%float) (seq 0 n).

End VectorStoreUnit.

(** ** executor/browser_pool.py

    Browsers, contexts and pages are the driver's objects; they are named by
    the numbers the driver hands out.  The pool is read sequentially: one
    caller at a time. *)

Module BrowserPool.

(** A page knows its context ([page.context]). *)
Record Page := { page_id : nat; context : nat }.

(** [queue.Queue(maxsize)]; [maxsize <= 0] is an unbounded queue. *)
Record Queue := { maxsize : Z; items : list (Page * nat) }.

(** [queue.Queue()] *)
Definition Queue_new : Queue := {| maxsize := 0; items := [] |}.

Definition full (q : Queue) : bool :=
  (0 <? maxsize q)%Z && (maxsize q <=? Z.of_nat (length (items q)))%Z.

(** [q.put(x, block=False)]; [None] is [queue.Full]. *)
Definition put_nowait (x : Page * nat) (q : Queue) : option Queue :=
  if full q then None
  else Some {| maxsize := maxsize q; items := items q ++ [x] |}.

Inductive GetResult :=
| Got (x : Page * nat) (q : Queue)
| Empty
| BlocksForever
| BadTimeout.

(** [q.get(timeout=timeout)] with no other thread to fill the queue.  A
    negative timeout raises [ValueError] before the queue is looked at;
    otherwise the head is taken, and an empty queue raises [queue.Empty]
    when the timeout runs out, and never returns when there is none. *)
Definition get (timeout : option Q) (q : Queue) : GetResult :=
  match timeout with
  | Some t =>
      if negb (Qle_bool 0 t) then BadTimeout
      else match items q with
           | x :: r => Got x {| maxsize := maxsize q; items := r |}
           | [] => Empty
           end
  | None =>
      match items q with
      | x :: r => Got x {| maxsize := maxsize q; items := r |}
      | [] => BlocksForever
      end
  end.

(** The [ValueError] of [queue.Queue.get]. *)
Definition bad_timeout : exn := ValueError "'timeout' must be a non-negative number".

Record PageHandle := { page : Page; browser_idx : Z }.

Record Pool := {
  max_browsers : Z;
  max_pages_per_browser : Z;
  _started : bool;
  _browsers : list nat;
  _pages_queues : list Queue;
  (** the driver: the next object number, and what has been closed *)
  next_object : nat;
  closed_pages : list Page;
  closed_contexts : list nat;
  closed_browsers : list nat
}.

(** [BrowserPool(max_browsers, max_pages_per_browser)] *)
Definition init (mb mp : Z) : Pool :=
  {| max_browsers := mb; max_pages_per_browser := mp; _started := false;
     _browsers := []; _pages_queues := []; next_object := 0;
     closed_pages := []; closed_contexts := []; closed_browsers := [] |}.

Definition set_queues (p : Pool) (qs : list Queue) : Pool :=
  {| max_browsers := max_browsers p; max_pages_per_browser := max_pages_per_browser p;
     _started := _started p; _browsers := _browsers p; _pages_queues := qs;
     next_object := next_object p; closed_pages := closed_pages p;
     closed_contexts := closed_contexts p; closed_browsers := closed_browsers p |}.

Definition set_next (p : Pool) (n : nat) : Pool :=
  {| max_browsers := max_browsers p; max_pages_per_browser := max_pages_per_browser p;
     _started := _started p; _browsers := _browsers p; _pages_queues := _pages_queues p;
     next_object := n; closed_pages := closed_pages p;
     closed_contexts := closed_contexts p; closed_browsers := closed_browsers p |}.

(** [page.close()] *)
Definition close_page (pg : Page) (p : Pool) : Pool :=
  {| max_browsers := max_browsers p; max_pages_per_browser := max_pages_per_browser p;
     _started := _started p; _browsers := _browsers p; _pages_queues := _pages_queues p;
     next_object := next_object p; closed_pages := closed_pages p ++ [pg];
     closed_contexts := closed_contexts p; closed_browsers := closed_browsers p |}.

(** [ctx = browser.new_context(); page = ctx.new_page()] *)
Definition new_page (p : Pool) : Page * Pool :=
  let c := next_object p in
  ({| page_id := S c; context := c |}, set_next p (S (S c))).

(** The inner loop of [start]: [m] fresh pages put on the queue. *)
Fixpoint prefill (m : nat) (q : Queue) (p : Pool) : Queue * Pool :=
  match m with
  | O => (q, p)
  | S m' =>
      let '(pg, p1) := new_page p in
      prefill m' {| maxsize := maxsize q; items := items q ++ [(pg, context pg)] |} p1
  end.

(** The outer loop of [start]: [n] browsers, each with its queue. *)
Fixpoint launch (n : nat) (p : Pool) : Pool :=
  match n with
  | O => p
  | S n' =>
      let b := next_object p in
      let p1 := set_next p (S b) in
      let '(q, p2) := prefill (Z.to_nat (max_pages_per_browser p)) Queue_new p1 in
      launch n'
        {| max_browsers := max_browsers p2; max_pages_per_browser := max_pages_per_browser p2;
           _started := _started p2; _browsers := _browsers p2 ++ [b];
           _pages_queues := _pages_queues p2 ++ [q];
           next_object := next_object p2; closed_pages := closed_pages p2;
           closed_contexts := closed_contexts p2; closed_browsers := closed_browsers p2 |}
  end.

(** [start] *)
Definition start (p : Pool) : Pool :=
  if _started p then p
  else
    let p1 := launch (Z.to_nat (max_browsers p)) p in
    {| max_browsers := max_browsers p1; max_pages_per_browser := max_pages_per_browser p1;
       _started := true; _browsers := _browsers p1; _pages_queues := _pages_queues p1;
       next_object := next_object p1; closed_pages := closed_pages p1;
       closed_contexts := closed_contexts p1; closed_browsers := closed_browsers p1 |}.

(** [stop] *)
Definition stop (p : Pool) : Pool :=
  if negb (_started p) then p
  else
    let pooled := concat (map items (_pages_queues p)) in
    {| max_browsers := max_browsers p; max_pages_per_browser := max_pages_per_browser p;
       _started := false; _browsers := []; _pages_queues := [];
       next_object := next_object p;
       closed_pages := closed_pages p ++ map fst pooled;
       closed_contexts := closed_contexts p ++ map snd pooled;
       closed_browsers := closed_browsers p ++ _browsers p |}.

Inductive AcquireResult :=
| Acquired (h : PageHandle) (p : Pool)
| AcquireRaises (e : exn) (p : Pool)
| AcquireBlocks.

(** The scan of [_acquire] over the queues from slot [idx] on. *)
Fixpoint scan (timeout : option Q) (idx : nat) (before rest : list Queue) (p : Pool)
  : option AcquireResult :=
  match rest with
  | [] => None
  | q :: rest' =>
      match get timeout q with
      | Got x q' =>
          Some (Acquired {| page := fst x; browser_idx := Z.of_nat idx |}
                         (set_queues p (before ++ q' :: rest')))
      | Empty => scan timeout (S idx) (before ++ [q]) rest' p
      | BlocksForever => Some AcquireBlocks
      | BadTimeout => Some (AcquireRaises bad_timeout p)
      end
  end.

(** [_acquire] *)
Definition _acquire (timeout : option Q) (p0 : Pool) : AcquireResult :=
  let p := if _started p0 then p0 else start p0 in
  match scan timeout 0 [] (_pages_queues p) p with
  | Some r => r
  | None =>
      match _browsers p with
      | _ :: _ =>
          let '(pg, p1) := new_page p in
          Acquired {| page := pg; browser_idx := 0 |} p1
      | [] => AcquireRaises (RuntimeError "No browsers available") p
      end
  end.

(** [_release] *)
Definition _release (h : PageHandle) (p : Pool) : Pool :=
  match PyList.index (_pages_queues p) (browser_idx h) with
  | None => close_page (page h) p
  | Some j =>
      match _pages_queues p !! j with
      | None => close_page (page h) p
      | Some q =>
          match put_nowait (page h, context (page h)) q with
          | Some q' => set_queues p (<[j := q']> (_pages_queues p))
          | None => close_page (page h) p
          end
      end
  end.

(** The handles pooled in slot [j]. *)
Definition pooled (p : Pool) (j : nat) : list (Page * nat) :=
  match _pages_queues p !! j with
  | Some q => items q
  | None => []
  end.

(** The pools a sequence of calls on a new pool leads to. *)
Inductive reachable : Pool -> Prop :=
| reach_init mb mp : reachable (init mb mp)
| reach_start p : reachable p -> reachable (start p)
| reach_stop p : reachable p -> reachable (stop p)
| reach_acquire t p h p' : reachable p -> _acquire t p = Acquired h p' -> reachable p'
| reach_acquire_raises t p e p' : reachable p -> _acquire t p = AcquireRaises e p' -> reachable p'
| reach_release h p : reachable p -> reachable (_release h p).

(** Every queue of the pool was made by [queue.Queue()]. *)
Definition unbounded (p : Pool) : Prop :=
  Forall (fun q => maxsize q = 0%Z) (_pages_queues p).

(** A pool of one browser with one page, both handles taken (the second is
    the overflow handle) and both released. *)
Definition overflow_scenario : option Pool :=
  match _acquire (Some 5%Q) (init 1 1) with
  | Acquired h1 p1 =>
      match _acquire (Some 5%Q) p1 with
      | Acquired h2 p2 => Some (_release h1 (_release h2 p2))
      | _ => None
      end
  | _ => None
  end.

End BrowserPool.

(** ** executor/web_navigator.py

    The live page is the browser's: what it answers to each call is given by
    a [Page] of oracles.  Its answers to clicks and fills do not depend on the
    failed attempts made before; its answer to a navigation may depend on how
    many navigations were made before (a fault may be transient). *)

Module Navigator.

(** An element handle: its visible text and its attributes; [None] where
    the call raises or returns nothing. *)
Record Element := {
  inner_text : option string;
  get_attribute : string -> option string
}.

Record Page := {
  (** [page.goto(url)], after [n] earlier navigations *)
  page_goto : nat -> string -> option exn;
  (** [page.wait_for_selector(sel, state='visible')] *)
  wait_for_selector : string -> option exn;
  (** [page.click(sel)] *)
  click : string -> option exn;
  (** [page.fill(sel, text)] *)
  fill : string -> string -> option exn;
  (** [page.get_by_role('button', name=n, exact=False).first.click()] *)
  role_button_click : string -> option exn;
  (** [page.get_by_text(t, exact=False).first.click()] *)
  text_click : string -> option exn;
  (** [page.get_by_placeholder(p).first.fill(text)] *)
  placeholder_fill : string -> string -> option exn;
  (** [page.get_by_label(l, exact=False).first.fill(text)] *)
  label_fill : string -> string -> option exn;
  (** [page.query_selector_all(css)]; [None] when it raises *)
  query_selector_all : string -> option (list Element)
}.

(** The calls made on the page, in order. *)
Inductive PageOp :=
| OpGoto (url : string)
| OpWaitForSelector (sel : string)
| OpClick (sel : string)
| OpFill (sel text : string)
| OpRoleClick (name : string)
| OpTextClick (text : string)
| OpPlaceholderFill (placeholder text : string)
| OpLabelFill (label text : string)
| OpQuerySelectorAll (css : string).

Inductive Level := INFO | WARNING | ERROR.

(** What a navigator call reads and writes: the clock, the security
    manager, the selector memory, the URL of the page, the calls made on
    the page and the log. *)
Record World := {
  clock : Q;
  security : Security.SecurityManager;
  sel_mem : SelectorMemory.Table;
  page_url : string;
  trace : list PageOp;
  log : list (Level * string)
}.

Definition add_log (lvl : Level) (msg : string) (w : World) : World :=
  {| clock := clock w; security := security w; sel_mem := sel_mem w;
     page_url := page_url w; trace := trace w; log := log w ++ [(lvl, msg)] |}.

Definition add_trace (ops : list PageOp) (w : World) : World :=
  {| clock := clock w; security := security w; sel_mem := sel_mem w;
     page_url := page_url w; trace := trace w ++ ops; log := log w |}.

Definition set_security (sm : Security.SecurityManager) (w : World) : World :=
  {| clock := clock w; security := sm; sel_mem := sel_mem w;
     page_url := page_url w; trace := trace w; log := log w |}.

Definition set_sel_mem (tbl : SelectorMemory.Table) (w : World) : World :=
  {| clock := clock w; security := security w; sel_mem := tbl;
     page_url := page_url w; trace := trace w; log := log w |}.

Definition set_page_url (u : string) (w : World) : World :=
  {| clock := clock w; security := security w; sel_mem := sel_mem w;
     page_url := u; trace := trace w; log := log w |}.

(** [time.sleep(d)] *)
Definition sleep (d : Q) (w : World) : World :=
  {| clock := (clock w + d)%Q; security := security w; sel_mem := sel_mem w;
     page_url := page_url w; trace := trace w; log := log w |}.

Definition is_goto (op : PageOp) : bool :=
  match op with OpGoto _ => true | _ => false end.

(** *** tenacity: [@retry(reraise=True, stop=stop_after_attempt(3),
    wait=wait_exponential(multiplier=0.5, min=0.5, max=4))]

    The decorated function is called again after any exception, until the
    attempt that raised is the last one allowed; that exception is then
    raised again.  Between two attempts the caller sleeps. *)

(** [wait_exponential]: the pause after attempt number [attempt]. *)
Definition wait_exponential (multiplier lo hi : Q) (attempt : nat) : Q :=
  Qmax (Qmax 0 lo) (Qmin (multiplier * inject_Z (2 ^ Z.of_nat (attempt - 1))) hi).

Section Retry.
Context {A : Type}.
Variable body : World -> result A * World.

(** Attempt number [attempt], with [left] more attempts allowed after it. *)
Fixpoint retry_from (left attempt : nat) (w : World) : result A * World :=
  match body w with
  | (Ok a, w1) => (Ok a, w1)
  | (Raise e, w1) =>
      match left with
      | O => (Raise e, w1)
      | S left' =>
          retry_from left' (S attempt) (sleep (wait_exponential (1 # 2) (1 # 2) 4 attempt) w1)
      end
  end.

Definition retry : World -> result A * World := retry_from 2 1.
End Retry.

(** [self.page.url.split('/')[2]] when the URL is not empty, and [''] when
    it is or when the index is out of range. *)
Definition host_of (url : string) : string :=
  match url with
  | EmptyString => EmptyString
  | _ => match PyStr.split_char "/" url with
         | _ :: _ :: h :: _ => h
         | _ => EmptyString
         end
  end.

Definition nonempty (s : string) : bool :=
  match s with EmptyString => false | _ => true end.

Definition attribute_names : list string :=
  ["aria-label"; "placeholder"; "name"; "id"; "title"; "value"].

(** The text [_semantic_candidate] indexes for an element. *)
Definition doc_of (h : Element) : string :=
  let txt := PyStr.strip (match inner_text h with Some t => t | None => EmptyString end) in
  let attrs :=
    flat_map (fun k => match get_attribute h k with
                       | Some v => if nonempty v then [v] else []
                       | None => []
                       end) attribute_names in
  PyStr.join " " (List.filter nonempty (txt :: attrs)).

Inductive Mode := ModeClick | ModeType.

Definition candidates_css (mode : Mode) : string :=
  match mode with
  | ModeClick => "button, a, [role=button], [type=submit]"
  | ModeType => "input, textarea, [contenteditable=true]"
  end.

Section WithPage.

Variable py_hash : string -> Z.
Variable pg : Page.

(** [goto] before decoration: both policy checks, then the navigation. *)
Definition goto_body (url : string) (w : World) : result unit * World :=
  if negb (Security.is_domain_allowed (security w) url) then
    (Raise (PermissionError ("Navigation blocked by security policy: " +:+ url)),
     add_log ERROR ("Blocked navigation to non-allowed domain: "
                    +:+ Url.netloc (Url.urlparse url)) w)
  else
    let '(ok, sm) := Security.enforce_rate_limit (clock w) url (security w) in
    let w1 := set_security sm w in
    if negb ok then
      (Raise (RuntimeError "Rate limit exceeded, retry later"),
       add_log WARNING ("Rate limit exceeded for origin: " +:+ Security.origin_of url) w1)
    else
      let w2 := add_trace [OpGoto url] w1 in
      match page_goto pg (length (List.filter is_goto (trace w1))) url with
      | Some e => (Raise e, w2)
      | None => (Ok tt, add_log INFO ("Navigated to " +:+ url) (set_page_url url w2))
      end.

(** [WebNavigator.goto] *)
Definition goto (url : string) : World -> result unit * World :=
  retry (goto_body url).

(** The candidate [_semantic_candidate] returns: the best-ranked text of
    the page's elements, or [None] when there is none or a call raises. *)
Definition semantic_choice (mode : Mode) (query : string) : option string :=
  match query_selector_all pg (candidates_css mode) with
  | None => None
  | Some handles =>
      let ds := List.filter nonempty (map doc_of (firstn 200 handles)) in
      match ds with
      | [] => None
      | _ =>
          match VectorStore.add_texts py_hash ds (VectorStore.init 512) with
          | (Ok _, vs) =>
              match VectorStore.similarity_search py_hash query 1 vs with
              | Ok ((best, _) :: _) => Some best
              | _ => None
              end
          | (Raise _, _) => None
          end
      end
  end.

(** [_semantic_candidate] *)
Definition _semantic_candidate (mode : Mode) (query : string) (w : World)
  : option string * World :=
  (semantic_choice mode query, add_trace [OpQuerySelectorAll (candidates_css mode)] w).

(** [if host: self.sel_mem.save_success(host, action, label, descriptor)] *)
Definition record_success (host action label descriptor : string) (w : World) : World :=
  if nonempty host
  then set_sel_mem (SelectorMemory.save_success (clock w) host action label descriptor (sel_mem w)) w
  else w.

(** [wait_for_selector(sel); click(sel)] under a [try] *)
Definition try_click (sel : string) (w : World) : option exn * World :=
  match wait_for_selector pg sel with
  | Some e => (Some e, add_trace [OpWaitForSelector sel] w)
  | None => (click pg sel, add_trace [OpWaitForSelector sel; OpClick sel] w)
  end.

(** [wait_for_selector(sel); fill(sel, text)] under a [try] *)
Definition try_fill (sel text : string) (w : World) : option exn * World :=
  match wait_for_selector pg sel with
  | Some e => (Some e, add_trace [OpWaitForSelector sel] w)
  | None => (fill pg sel text, add_trace [OpWaitForSelector sel; OpFill sel text] w)
  end.

(** The loop over the remembered selectors in [click_best]: whether one
    worked, and the selectors that did not. *)
Fixpoint click_from_memory (sels tried : list string) (w : World)
  : bool * list string * World :=
  match sels with
  | [] => (false, tried, w)
  | sel :: sels' =>
      match try_click sel w with
      | (None, w1) => (true, tried, add_log INFO ("Clicked from memory: " +:+ sel) w1)
      | (Some _, w1) => click_from_memory sels' (tried ++ [sel]) w1
      end
  end.

(** [WebNavigator.click_best] *)
Definition click_best (target : string) (w : World) : result unit * World :=
  let host := host_of (page_url w) in
  let '(hit, tried, w1) :=
    if nonempty host
    then click_from_memory
           (PyList.slice_to 5 (SelectorMemory.get host "click" target (sel_mem w))) [] w
    else (false, [], w) in
  if hit then (Ok tt, w1) else
  (* the target as a CSS selector *)
  match try_click target w1 with
  | (None, w2) =>
      (Ok tt, record_success host "click" target target
                (add_log INFO ("Clicked CSS: " +:+ target) w2))
  | (Some _, w2) =>
  (* a button of that name *)
  let w3 := add_trace [OpRoleClick target] w2 in
  match role_button_click pg target with
  | None =>
      (Ok tt, record_success host "click" target ("role=button,name=" +:+ target)
                (add_log INFO ("Clicked role=button name='" +:+ target +:+ "'") w3))
  | Some _ =>
  (* the text of the semantic candidate *)
  let '(cand, w4) := _semantic_candidate ModeClick target w3 in
  let '(done, w5) :=
    match cand with
    | Some c =>
        if nonempty c then
          let w' := add_trace [OpTextClick c] w4 in
          match text_click pg c with
          | None =>
              (true, record_success host "click" target ("semantic_text=" +:+ c)
                       (add_log INFO ("Clicked by semantic text '" +:+ c +:+ "'") w'))
          | Some _ => (false, w')
          end
        else (false, w4)
    | None => (false, w4)
    end in
  if done then (Ok tt, w5) else
  (* the target as visible text *)
  let w6 := add_trace [OpTextClick target] w5 in
  match text_click pg target with
  | None =>
      (Ok tt, record_success host "click" target ("text=" +:+ target)
                (add_log INFO ("Clicked by text '" +:+ target +:+ "'") w6))
  | Some e =>
      (Raise e,
       add_log ERROR ("All click strategies failed for " +:+ target +:+ ": "
                      +:+ exn_message e +:+ "; tried=" +:+ PyStr.repr_list tried) w6)
  end
  end
  end.

(** The world after [self.security.sanitize_input(text)]: a warning is
    logged when the text is changed. *)
Definition sanitized (text : string) (w : World) : World :=
  if Security.is_unsafe_input text
  then add_log WARNING "Sanitized potentially unsafe input" w else w.

(** The loop over the remembered selectors in [type_best]. *)
Fixpoint fill_from_memory (text : string) (sels tried : list string) (w : World)
  : bool * list string * World :=
  match sels with
  | [] => (false, tried, w)
  | sel :: sels' =>
      match try_fill sel text w with
      | (None, w1) => (true, tried, add_log INFO ("Filled from memory " +:+ sel) w1)
      | (Some _, w1) => fill_from_memory text sels' (tried ++ [sel]) w1
      end
  end.

(** [WebNavigator.type_best] *)
Definition type_best (field text : string) (w0 : World) : result unit * World :=
  let stext := Security.sanitize_input text in
  let w := sanitized text w0 in
  let host := host_of (page_url w) in
  let '(hit, tried, w1) :=
    if nonempty host
    then fill_from_memory stext
           (PyList.slice_to 5 (SelectorMemory.get host "type" field (sel_mem w))) [] w
    else (false, [], w) in
  if hit then (Ok tt, w1) else
  (* the field as a CSS selector *)
  match try_fill field stext w1 with
  | (None, w2) =>
      (Ok tt, record_success host "type" field field
                (add_log INFO ("Filled CSS " +:+ field) w2))
  | (Some _, w2) =>
  (* by placeholder *)
  let w3 := add_trace [OpPlaceholderFill field stext] w2 in
  match placeholder_fill pg field stext with
  | None =>
      (Ok tt, record_success host "type" field ("placeholder=" +:+ field)
                (add_log INFO ("Filled by placeholder " +:+ field) w3))
  | Some _ =>
  (* by label *)
  let w4 := add_trace [OpLabelFill field stext] w3 in
  match label_fill pg field stext with
  | None =>
      (Ok tt, record_success host "type" field ("label=" +:+ field)
                (add_log INFO ("Filled by label " +:+ field) w4))
  | Some _ =>
  (* the semantic candidate, by placeholder and then by label *)
  let '(cand, w5) := _semantic_candidate ModeType field w4 in
  match cand with
  | Some c =>
      if nonempty c then
        let w6 := add_trace [OpPlaceholderFill c stext] w5 in
        match placeholder_fill pg c stext with
        | None =>
            (Ok tt, record_success host "type" field ("semantic_placeholder=" +:+ c)
                      (add_log INFO ("Filled by semantic placeholder '" +:+ c +:+ "'") w6))
        | Some _ =>
            let w7 := add_trace [OpLabelFill c stext] w6 in
            match label_fill pg c stext with
            | None =>
                (Ok tt, record_success host "type" field ("semantic_label=" +:+ c)
                          (add_log INFO ("Filled by semantic label '" +:+ c +:+ "'") w7))
            | Some e =>
                (Raise e,
                 add_log ERROR ("All type strategies failed for " +:+ field +:+ ": "
                                +:+ exn_message e +:+ "; tried=" +:+ PyStr.repr_list tried) w7)
            end
        end
      else (Ok tt, w5)
  | None => (Ok tt, w5)
  end
  end
  end
  end.

(** *** The stages, as the specification names them *)

Definition raises (r : option exn) : bool :=
  match r with Some _ => true | None => false end.

(** A click through the selector [sel] raises. *)
Definition click_raises (sel : string) : bool :=
  match wait_for_selector pg sel with
  | Some _ => true
  | None => raises (click pg sel)
  end.

(** A fill through the selector [sel] raises. *)
Definition fill_raises (sel text : string) : bool :=
  match wait_for_selector pg sel with
  | Some _ => true
  | None => raises (fill pg sel text)
  end.

(** Stage 1: the remembered selectors a call tries, the five ranked
    first; none when the page has no host. *)
Definition remembered (action label : string) (w : World) : list string :=
  if nonempty (host_of (page_url w))
  then PyList.slice_to 5 (SelectorMemory.get (host_of (page_url w)) action label (sel_mem w))
  else [].

(** Stages 2 to 5 of a click: the descriptor of the first stage that
    resolves the target, if one does. *)
Definition click_descriptor (target : string) : option string :=
  let by_text :=
    if raises (text_click pg target) then None else Some ("text=" +:+ target) in
  if negb (click_raises target) then Some target
  else if negb (raises (role_button_click pg target))
       then Some ("role=button,name=" +:+ target)
  else match semantic_choice ModeClick target with
       | Some c =>
           if nonempty c && negb (raises (text_click pg c))
           then Some ("semantic_text=" +:+ c)
           else by_text
       | None => by_text
       end.

(** The stages of a fill after the memory: the descriptor of the first
    one that resolves the field, if one does. *)
Definition type_descriptor (field stext : string) : option string :=
  if negb (fill_raises field stext) then Some field
  else if negb (raises (placeholder_fill pg field stext))
       then Some ("placeholder=" +:+ field)
  else if negb (raises (label_fill pg field stext))
       then Some ("label=" +:+ field)
  else match semantic_choice ModeType field with
       | Some c =>
           if nonempty c then
             if negb (raises (placeholder_fill pg c stext))
             then Some ("semantic_placeholder=" +:+ c)
             else if negb (raises (label_fill pg c stext))
                  then Some ("semantic_label=" +:+ c)
                  else None
           else None
       | None => None
       end.

(** [op] is an attempt to click through one of the selectors [sels]. *)
Definition memory_click_op (sels : list string) (op : PageOp) : Prop :=
  exists sel, In sel sels /\ (op = OpWaitForSelector sel \/ op = OpClick sel).

(** [op] is an attempt to fill through one of the selectors [sels]. *)
Definition memory_fill_op (sels : list string) (text : string) (op : PageOp) : Prop :=
  exists sel, In sel sels /\ (op = OpWaitForSelector sel \/ op = OpFill sel text).

(** The error [click_best] logs when it gives up. *)
Definition click_failure_record (target : string) (e : exn) (tried : list string)
  : Level * string :=
  (ERROR, "All click strategies failed for " +:+ target +:+ ": "
          +:+ exn_message e +:+ "; tried=" +:+ PyStr.repr_list tried).

(** The error [type_best] logs when it gives up. *)
Definition type_failure_record (field : string) (e : exn) (tried : list string)
  : Level * string :=
  (ERROR, "All type strategies failed for " +:+ field +:+ ": "
          +:+ exn_message e +:+ "; tried=" +:+ PyStr.repr_list tried).

End WithPage.

(** The error [is_domain_allowed] logs for a refused URL. *)
Definition blocked_record (url : string) : Level * string :=
  (ERROR, "Blocked navigation to non-allowed domain: " +:+ Url.netloc (Url.urlparse url)).

(** *** Example pages and worlds *)

Definition timeout_error : exn := PlaywrightError "Timeout 10000ms exceeded.".

(** A page on which every call succeeds, with no element to rank. *)
Definition responsive_page : Page :=
  {| page_goto := fun _ _ => None;
     wait_for_selector := fun _ => None;
     click := fun _ => None;
     fill := fun _ _ => None;
     role_button_click := fun _ => None;
     text_click := fun _ => None;
     placeholder_fill := fun _ _ => None;
     label_fill := fun _ _ => None;
     query_selector_all := fun _ => Some [] |}.

(** A page on which every interaction times out, with no element to rank. *)
Definition dead_page : Page :=
  {| page_goto := fun _ _ => Some timeout_error;
     wait_for_selector := fun _ => Some timeout_error;
     click := fun _ => Some timeout_error;
     fill := fun _ _ => Some timeout_error;
     role_button_click := fun _ => Some timeout_error;
     text_click := fun _ => Some timeout_error;
     placeholder_fill := fun _ _ => Some timeout_error;
     label_fill := fun _ _ => Some timeout_error;
     query_selector_all := fun _ => Some [] |}.

Definition example_security (bs : gmap string Security.TokenBucket)
  : Security.SecurityManager :=
  {| Security.allowed_domains := ["example.com"];
     Security.cookie_whitelist := [];
     Security.rate_limit_per_min := 60;
     Security.buckets := bs |}.

(** The bucket of [https://example.com] after its 60 tokens were spent at
    clock reading 100. *)
Definition spent_bucket : Security.TokenBucket :=
  {| Security.capacity := 60; Security.tokens := 0;
     Security.refill_rate := 1; Security.last_refill := 100 |}.

Definition remembered_row : SelectorMemory.Row :=
  {| SelectorMemory.id := 1; SelectorMemory.host := "example.com";
     SelectorMemory.action := "click"; SelectorMemory.label := "Submit";
     SelectorMemory.selector := "#old"; SelectorMemory.success_count := 1;
     SelectorMemory.updated := 50 |}.

(** A navigator at clock reading 100 on the page at [url]. *)
Definition example_world (url : string) (bs : gmap string Security.TokenBucket) : World :=
  {| clock := 100; security := example_security bs; sel_mem := [remembered_row];
     page_url := url; trace := []; log := [] |}.

End Navigator.

(** ** agents/orchestrator.py and agents/base_agent.py

    The planner, the executing agents, the stop flag and the page snapshot are
    collaborators of the run loops; they are the section's variables.  The
    screenshot taken when a directory is configured is left out. *)

Module Orchestrator.

Definition nl : string := String (ascii_of_nat 10) EmptyString.

(** [ValidatorAgent.validate] *)
Definition validate (observation : string) : bool :=
  negb (existsb (fun k => PyStr.contains k (PyStr.lower observation))
                ["error"; "timeout"; "not found"]).

(** [MultiAgentRunner.classify] *)
Definition classify (step : string) : string :=
  let s := PyStr.lower step in
  if PyStr.contains "login" s || PyStr.contains "sign in" s then "login"
  else if PyStr.contains "form" s || PyStr.contains "fill" s || PyStr.contains "submit" s
       then "form"
  else if PyStr.contains "research" s || PyStr.contains "search" s
          || PyStr.contains "summarize" s then "research"
  else "base".

Section Run.

(** What the agents act on. *)
Variable World : Type.
(** [LLMOrchestrator.plan(goal, context)] *)
Variable llm_plan : string -> string -> list string.
(** [agent._execute_step(nav, step)] of the agent playing role [who] *)
Variable execute_step : string -> string -> World -> result string * World.
(** [run_manager.should_stop()] *)
Variable should_stop : World -> bool.
(** [nav.snapshot_dom()] *)
Variable snapshot_dom : World -> string.

(** [TaskPlanner.replan]: the reflection is discarded and a plan is asked
    for with the observation added to the context. *)
Definition replan (goal context : string) (last_plan : list string) (observation : string)
  : list string :=
  llm_plan goal (context +:+ nl +:+ "Observation:" +:+ observation).

(** The variables of a run loop: [plan], [observations], the steps
    logged by [memory.add_step], the steps handed to an agent (kept for
    the statements below) and the world. *)
Record RunState := {
  plan : list string;
  observations : list string;
  step_log : list (Z * string * string);
  dispatched : list string;
  world : World
}.

Definition failure_observation (e : exn) (w : World) : string :=
  "Error: " +:+ exn_message e +:+ nl +:+ "DOM: " +:+ substring 0 2000 (snapshot_dom w).

(** The body of the loop of [MultiAgentRunner.run] below the stop check. *)
Definition runner_body (goal context : string) (idx : Z) (step : string) (st : RunState)
  : RunState :=
  let who := classify step in
  match execute_step who step (world st) with
  | (Ok obs, w1) =>
      let obss := observations st ++ ["[" +:+ who +:+ "] " +:+ obs] in
      let slog := step_log st ++ [(idx, who +:+ ":" +:+ step, obs)] in
      if validate obs then
        {| plan := plan st; observations := obss; step_log := slog;
           dispatched := dispatched st ++ [step]; world := w1 |}
      else
        let repl := replan goal context (plan st)
                      ("Validation failed: " +:+ obs +:+ nl +:+ "DOM: "
                       +:+ substring 0 2000 (snapshot_dom w1)) in
        {| plan := repl; observations := obss; step_log := slog;
           dispatched := dispatched st ++ [step]; world := w1 |}
  | (Raise e, w1) =>
      {| plan := replan goal context (plan st) (failure_observation e w1);
         observations := observations st; step_log := step_log st;
         dispatched := dispatched st ++ [step]; world := w1 |}
  end.

(** [for idx, step in enumerate(plan, start=1)]: the iterator is made
    once, from the list [plan] names when the loop starts; [steps] is what
    that iterator has left.  An assignment to [plan] in the body gives the
    name a new list and leaves the iterator where it is. *)
Fixpoint runner_loop (goal context : string) (steps : list string) (idx : Z) (st : RunState)
  : RunState :=
  match steps with
  | [] => st
  | step :: steps' =>
      if should_stop (world st) then st
      else runner_loop goal context steps' (idx + 1) (runner_body goal context idx step st)
  end.

Record RunResult := {
  result_plan : list string;
  result_observations : list string;
  summary : string;
  final : RunState
}.

Definition finish (st : RunState) : RunResult :=
  {| result_plan := plan st;
     result_observations := observations st;
     summary := PyStr.join nl (PyList.last_n 5 (observations st));
     final := st |}.

(** [MultiAgentRunner.run], from the context [memory.recent_context()]
    returned. *)
Definition runner_run (goal context : string) (w : World) : RunResult :=
  let p := llm_plan goal context in
  finish (runner_loop goal context p 1
            {| plan := p; observations := []; step_log := []; dispatched := []; world := w |}).

(** The body of the loop of [BaseAgent.run]. *)
Definition agent_body (goal context : string) (idx : Z) (step : string) (st : RunState)
  : RunState :=
  match execute_step "base" step (world st) with
  | (Ok obs, w1) =>
      {| plan := plan st; observations := observations st ++ [obs];
         step_log := step_log st ++ [(idx, step, obs)];
         dispatched := dispatched st ++ [step]; world := w1 |}
  | (Raise e, w1) =>
      {| plan := replan goal context (plan st) (failure_observation e w1);
         observations := observations st; step_log := step_log st;
         dispatched := dispatched st ++ [step]; world := w1 |}
  end.

Fixpoint agent_loop (goal context : string) (steps : list string) (idx : Z) (st : RunState)
  : RunState :=
  match steps with
  | [] => st
  | step :: steps' => agent_loop goal context steps' (idx + 1) (agent_body goal context idx step st)
  end.

(** [BaseAgent.run] *)
Definition agent_run (goal context : string) (w : World) : RunResult :=
  let p := llm_plan goal context in
  finish (agent_loop goal context p 1
            {| plan := p; observations := []; step_log := []; dispatched := []; world := w |}).

End Run.

Arguments plan {World} _.
Arguments observations {World} _.
Arguments step_log {World} _.
Arguments dispatched {World} _.
Arguments world {World} _.
Arguments result_plan {World} _.
Arguments result_observations {World} _.
Arguments summary {World} _.
Arguments final {World} _.

(** *** An example run

    The planner answers the goal with two steps and, once an observation
    is in the context, with two other steps; the first step of the first
    plan is refused by the security policy. *)

Definition example_plan (goal context : string) : list string :=
  if PyStr.contains "Observation:" context
  then ["wait 2s"; "extract title"]
  else ["open https://shop.test"; "click Buy"].

Definition example_execute (who step : string) (w : unit) : result string * unit :=
  if PyStr.startswith (PyStr.lower step) "open"
  then (Raise (PermissionError "Navigation blocked by security policy: https://shop.test"), w)
  else (Ok ("done:" +:+ step), w).

(** An agent whose first observation does not pass validation. *)
Definition example_execute_timeout (who step : string) (w : unit) : result string * unit :=
  if PyStr.startswith (PyStr.lower step) "open"
  then (Ok "extract:title:Gateway Timeout", w)
  else (Ok ("done:" +:+ step), w).

End Orchestrator.

(** ** security.py, continued: cookies and repeated rate checks *)

Module SecurityMore.
Import Security.

(** [filter_cookies]: a cookie is a [dict]; it is kept when its [name] is on
    the whitelist. *)
Definition filter_cookies (sm : SecurityManager) (cookies : list (gmap string string))
  : list (gmap string string) :=
  match cookie_whitelist sm with
  | [] => []
  | _ :: _ =>
      List.filter
        (fun c => match c !! "name" with
                  | Some n => existsb (String.eqb n) (cookie_whitelist sm)
                  | None => false
                  end)
        cookies
  end.

(** [n] calls of [enforce_rate_limit] for [url] in a row, all at the clock
    reading [now]: their answers, and the manager after them. *)
Fixpoint enforce_many (n : nat) (now : Q) (url : string) (sm : SecurityManager)
  : list bool * SecurityManager :=
  match n with
  | O => ([], sm)
  | S n' =>
      let '(ok, sm1) := enforce_rate_limit now url sm in
      let '(oks, sm2) := enforce_many n' now url sm1 in
      (ok :: oks, sm2)
  end.

(** No character of [s] is an angle bracket. *)
Definition no_angle (s : string) : bool :=
  PyStr.all_chars (fun c => negb (is_angle c)) s.

End SecurityMore.

(** ** executor/selector_memory.py, continued: what the table keeps *)

Module SelectorMemoryMore.
Import SelectorMemory.

(** What identifies a record: host, action, label and selector. *)
Definition tuple (r : Row) : string * string * string * string :=
  (host r, action r, label r, selector r).

(** Rowids are unique, there is one row per tuple, and every success count
    is at least 1. *)
Definition well_formed (tbl : Table) : Prop :=
  List.NoDup (map id tbl) /\ List.NoDup (map tuple tbl) /\
  Forall (fun r => (1 <= success_count r)%Z) tbl.

End SelectorMemoryMore.

Module BrowserPoolMore.
Import BrowserPool.

(** The browsers and the queues go in pairs: a pool that is started has
    [max_browsers] of each ([range] of a negative number is empty), a pool
    that is not has none. *)
Definition consistent (p : Pool) : Prop :=
  length (_browsers p) = length (_pages_queues p) /\
  (if _started p then length (_browsers p) = Z.to_nat (max_browsers p)
   else _browsers p = []).

(** The pool [_acquire] works on: started first when it was not. *)
Definition started_pool (p : Pool) : Pool := if _started p then p else start p.

(** How a [with pool.get_page(timeout) as handle:] block ends. *)
Inductive WithResult (A : Type) :=
| Left_block (r : result A) (p : Pool)
| NeverEntered.
Arguments Left_block {A} r p.
Arguments NeverEntered {A}.

(** [get_page], with the body of the [with] block: the handle is released
    when the block is left, by its end or by an exception ([finally]);
    [_release] raises nothing, so the handler of the release never runs. *)
Definition get_page {A : Type} (timeout : option Q)
  (body : PageHandle -> Pool -> result A * Pool) (p : Pool) : WithResult A :=
  match _acquire timeout p with
  | Acquired h p1 => let '(r, p2) := body h p1 in Left_block r (_release h p2)
  | AcquireRaises e p1 => Left_block (Raise e) p1
  | AcquireBlocks => NeverEntered
  end.

End BrowserPoolMore.

Module NavigatorMore.
Import Navigator.

(** The calls [type_best] may make on the page to fill in [text]: waiting
    for a selector, listing the elements, and fills that carry [text]. *)
Definition fill_op (text : string) (op : PageOp) : Prop :=
  match op with
  | OpWaitForSelector _ | OpQuerySelectorAll _ => True
  | OpFill _ t | OpPlaceholderFill _ t | OpLabelFill _ t => t = text
  | OpGoto _ | OpClick _ | OpRoleClick _ | OpTextClick _ => False
  end.

(** The calls [click_best] may make on the page. *)
Definition click_op (op : PageOp) : Prop :=
  match op with
  | OpWaitForSelector _ | OpQuerySelectorAll _ | OpClick _ | OpRoleClick _
  | OpTextClick _ => True
  | OpGoto _ | OpFill _ _ | OpPlaceholderFill _ _ | OpLabelFill _ _ => False
  end.

(** From [w] to [w'] the page was only called in ways that satisfy [P],
    and the clock, the security manager and the URL of the page are
    untouched. *)
Definition page_calls (P : PageOp -> Prop) (w w' : World) : Prop :=
  (exists ops, trace w' = trace w ++ ops /\ Forall P ops) /\
  clock w' = clock w /\ security w' = security w /\ page_url w' = page_url w.

End NavigatorMore.

Module LLM.

Definition nl : string := Orchestrator.nl.

(** [MockLLM.complete] *)
Definition MockLLM_complete (prompt : string) : string :=
  if PyStr.contains "Plan:" prompt then
    "1) Navigate to relevant sites" +:+ nl +:+ "2) Extract required data" +:+ nl
    +:+ "3) Validate results and summarize"
  else if PyStr.contains "Analyze:" prompt then
    "User intent identified; constraints and success criteria noted."
  else if PyStr.contains "Reflect:" prompt then
    "Adjust selectors and add waits; retry failed steps."
  else "Summary generated.".

(** The line boundaries of [str.splitlines] on the ASCII range: line feed,
    vertical tab, form feed, carriage return and the three separators
    [\x1c], [\x1d], [\x1e]. *)
Definition is_linebreak (c : ascii) : bool :=
  let n := nat_of_ascii c in
  ((10 <=? n)%nat && (n <=? 13)%nat) || ((28 <=? n)%nat && (n <=? 30)%nat).

(** [text.splitlines()]: a carriage return followed by a line feed is one
    boundary, and a boundary at the end of the text opens no line. *)
Fixpoint splitlines (s : string) : list string :=
  match s with
  | EmptyString => []
  | String c s' =>
      if Ascii.eqb c (ascii_of_nat 13) && PyStr.startswith s' nl then splitlines s'
      else if is_linebreak c then EmptyString :: splitlines s'
      else match splitlines s' with
           | [] => [String c EmptyString]
           | l :: ls => String c l :: ls
           end
  end.

(** [line.split(sep, 1)[-1]]: what follows the first [sep], the whole line
    when there is none. *)
Definition after_first (sep : ascii) (line : string) : string :=
  match PyStr.break_at (Ascii.eqb sep) line with
  | (_, String _ rest) => rest
  | (_, EmptyString) => line
  end.

Definition has_char (c : ascii) (s : string) : bool :=
  negb (PyStr.all_chars (fun a => negb (Ascii.eqb a c)) s).

(** The body of the loop of [plan]: the step a line gives, if it gives one. *)
Definition parse_line (line0 : string) : option string :=
  let line := PyStr.strip line0 in
  match line with
  | EmptyString => None
  | String c _ =>
      let line1 :=
        if PyStr.is_digit c then
          if has_char ")" (substring 0 3 line) then after_first ")" line
          else if has_char "." (substring 0 3 line) then after_first "." line
          else line
        else line in
      Some (PyStr.strip line1)
  end.

Definition default_plan : list string :=
  ["Open browser"; "Navigate to target"; "Extract data"; "Summarize"].

Definition plan_prompt (goal context : string) : string :=
  "Plan: goal= " +:+ goal +:+ nl +:+ "Context: " +:+ context +:+ nl
  +:+ "Output numbered short steps.".

(** The steps [plan] reads in the provider's answer. *)
Definition steps_of (text : string) : list string :=
  omap parse_line (splitlines text).

Section Provider.

(** [LLMOrchestrator.complete(system, user)] *)
Variable complete : string -> string -> string.

(** [LLMOrchestrator.plan] *)
Definition plan (goal context : string) : list string :=
  let text := complete "You produce ordered, concise web-automation steps."
                       (plan_prompt goal context) in
  match steps_of text with
  | [] => default_plan
  | steps => steps
  end.

End Provider.

(** [LLMOrchestrator.complete] with the provider ['mock']. *)
Definition mock_complete (system user : string) : string := MockLLM_complete user.

Definition mock_plan : list string :=
  ["Navigate to relevant sites"; "Extract required data"; "Validate results and summarize"].

End LLM.

Module OrchestratorMore.
Import Orchestrator.

(** A step that returned an observation: its number, its text and the
    observation. *)
Definition Returned : Type := Z * string * string.

Definition number (d : Returned) : Z := fst (fst d).

(** What [MultiAgentRunner.run] hands to [memory.add_step] for it. *)
Definition logged (d : Returned) : Z * string * string :=
  let '(i, step, obs) := d in (i, classify step +:+ ":" +:+ step, obs).

(** What [MultiAgentRunner.run] appends to [observations] for it. *)
Definition observed (d : Returned) : string :=
  let '(i, step, obs) := d in "[" +:+ classify step +:+ "] " +:+ obs.

(** The step is the one at that number, counted from 1, in the plan [p]. *)
Definition in_plan (p : list string) (d : Returned) : Prop :=
  let '(i, step, _) := d in (1 <= i)%Z /\ p !! Z.to_nat (i - 1) = Some step.

(** What the loop of [MultiAgentRunner.run] keeps true, with [idx] the
    number of the next step. *)
Definition lockstep {World : Type} (plan0 : list string) (idx : Z) (st : RunState World)
  (done : list Returned) : Prop :=
  step_log st = map logged done /\ observations st = map observed done /\
  Forall (in_plan plan0) done /\ Forall (fun d => (number d < idx)%Z) done /\
  StronglySorted Z.lt (map number done).

End OrchestratorMore.

(** ** Binary64 rounding

    The names the facts about [SpecFloat]'s rounding are stated with. *)

Module Binary64.
Local Open Scope Z_scope.

(** The first stage of [binary_round_aux]: the exponent [shr_fexp] gives and
    the mantissa left. *)
Definition stage_exp (m e : Z) : Z := Z.max e (fexp prec emax (Zdigits2 m + e)).

(** The value a mantissa is rounded to: [m2] units of [2 ^ e1]. *)
Definition round_result (s : bool) (m2 e1 : Z) : spec_float :=
  let e2 := stage_exp m2 e1 in
  match m2 / 2 ^ (e2 - e1) with
  | Z0 => S754_zero s
  | Zpos p => if e2 <=? emax - prec then S754_finite s p e2 else S754_infinity s
  | Zneg _ => S754_nan
  end.

(** [m1 * 2 ^ e1 <= m2 * 2 ^ e2], in units of the smaller power. *)
Definition dle (m1 e1 m2 e2 : Z) : Prop :=
  m1 * 2 ^ (e1 - Z.min e1 e2) <= m2 * 2 ^ (e2 - Z.min e1 e2).

Definition dlt (m1 e1 m2 e2 : Z) : Prop :=
  m1 * 2 ^ (e1 - Z.min e1 e2) < m2 * 2 ^ (e2 - Z.min e1 e2).

(** *** The classes of binary64 values an embedding stays in *)

(** Zero, a positive number or plus infinity: no NaN. *)
Definition nonneg (x : spec_float) : Prop :=
  match x with
  | S754_zero _ | S754_finite false _ _ | S754_infinity false => True
  | _ => False
  end.

(** Zero or a positive number. *)
Definition finite_nonneg (x : spec_float) : Prop :=
  match x with
  | S754_zero _ | S754_finite false _ _ => True
  | _ => False
  end.

(** Zero or a positive number up to [2 ^ 53]: a count of tokens. *)
Definition count_like (x : spec_float) : Prop :=
  match x with
  | S754_zero _ => True
  | S754_finite false m e => dle (Z.pos m) e (2 ^ 53) 0
  | _ => False
  end.

(** A positive number whose exponent is at least -589, or plus infinity: a
    norm. *)
Definition norm_like (x : spec_float) : Prop :=
  match x with
  | S754_finite false _ e => (-589 <= e)%Z
  | S754_infinity false => True
  | _ => False
  end.

(** A value of sign [s] that is no NaN, with exponent at least [lo] if it is
    a number. *)
Definition rounded (s : bool) (lo : Z) (x : spec_float) : Prop :=
  match x with
  | S754_zero s' | S754_infinity s' => s' = s
  | S754_finite s' _ e => s' = s /\ (lo <= e)%Z
  | S754_nan => False
  end.

End Binary64.

(** ** Python numbers: [int] and [float] *)

Module PyNum.

Inductive num :=
| Int (z : Z)
| Flt (f : float).

Definition int_too_large : exn := OverflowError "int too large to convert to float".

(** [float(z)]: the nearest binary64 number, ties to even;
    [OverflowError] when that is out of range. *)
Definition float_of_Z (z : Z) : result float :=
  match binary_normalize prec emax z 0 false with
  | S754_infinity _ => Raise int_too_large
  | sf => Ok (SF2Prim sf)
  end.

(** The comparison of a float with an int, which Python makes on the exact
    values; a NaN compares with nothing. *)
Definition compare_float_Z (f : float) (z : Z) : option comparison :=
  match Prim2SF f with
  | S754_nan => None
  | S754_infinity s => Some (if s then Lt else Gt)
  | S754_zero _ => Some (0 ?= z)%Z
  | S754_finite s m e =>
      Some (if (0 <=? e)%Z then (cond_Zopp s (Z.pos m * 2 ^ e) ?= z)%Z
            else (cond_Zopp s (Z.pos m) ?= z * 2 ^ (- e))%Z)
  end.

Definition compare_Z (a : num) (z : Z) : option comparison :=
  match a with
  | Int t => Some (t ?= z)%Z
  | Flt f => compare_float_Z f z
  end.

(** [a < z] *)
Definition lt_Z (a : num) (z : Z) : bool :=
  match compare_Z a z with Some Lt => true | _ => false end.

(** [a > z] *)
Definition gt_Z (a : num) (z : Z) : bool :=
  match compare_Z a z with Some Gt => true | _ => false end.

(** [a >= z] *)
Definition ge_Z (a : num) (z : Z) : bool :=
  match compare_Z a z with Some (Gt | Eq) => true | _ => false end.

(** [a <= z] *)
Definition le_Z (a : num) (z : Z) : bool :=
  match compare_Z a z with Some (Lt | Eq) => true | _ => false end.

(** [a + r] for a float [r] *)
Definition add_float (a : num) (r : float) : result float :=
  match a with
  | Int t => let! g := float_of_Z t in Ok (g + r)%float
  | Flt f => Ok (f + r)%float
  end.

(** [a - n] for an int [n] *)
Definition sub_Z (a : num) (n : Z) : result num :=
  match a with
  | Int t => Ok (Int (t - n))
  | Flt f => let! g := float_of_Z n in Ok (Flt (f - g)%float)
  end.

(** The greatest int that converts to a float without rounding up to
    infinity: the greatest binary64 number. *)
Definition max_float_Z : Z := (2 ^ 53 - 1) * 2 ^ 971.

End PyNum.

(** ** security.py: [TokenBucket] in the arithmetic Python performs

    [capacity] and the requests are ints; the clock readings and the refill
    rate are binary64 floats; [tokens] is the int it starts as until a
    refill makes it a float. *)

Module Security64.
Import PyNum.

Record TokenBucket := {
  capacity : Z;
  tokens : num;
  refill_rate : float;
  last_refill : float
}.

(** [TokenBucket(capacity, refill_rate_per_sec)] built at clock reading [now]. *)
Definition TokenBucket_init (cap : Z) (rate now : float) : TokenBucket :=
  {| capacity := cap; tokens := Int cap; refill_rate := rate; last_refill := now |}.

Definition set_tokens (b : TokenBucket) (t : num) : TokenBucket :=
  {| capacity := capacity b; tokens := t; refill_rate := refill_rate b;
     last_refill := last_refill b |}.

(** Lines 21-26 of [consume]: the lazy refill at clock reading [now].
    [min(capacity, s)] is [s] when [s < capacity] and the int [capacity]
    otherwise. *)
Definition refill (now : float) (b : TokenBucket) : result TokenBucket :=
  let elapsed := (now - last_refill b)%float in
  let amount := (elapsed * refill_rate b)%float in
  if gt_Z (Flt amount) 0 then
    let! s := add_float (tokens b) amount in
    Ok {| capacity := capacity b;
          tokens := if lt_Z (Flt s) (capacity b) then Flt s else Int (capacity b);
          refill_rate := refill_rate b;
          last_refill := now |}
  else Ok b.

(** [TokenBucket.consume(tokens)]: what the call returns or raises, and the
    bucket it leaves. *)
Definition consume (now : float) (n : Z) (b : TokenBucket) : result bool * TokenBucket :=
  match refill now b with
  | Raise e => (Raise e, b)
  | Ok b1 =>
      if ge_Z (tokens b1) n then
        match sub_Z (tokens b1) n with
        | Ok t => (Ok true, set_tokens b1 t)
        | Raise e => (Raise e, b1)
        end
      else (Ok false, b1)
  end.

(** A sequence of [consume] calls, each with its clock reading and request;
    a call that raises leaves the bucket to the next one. *)
Fixpoint consume_all (calls : list (float * Z)) (b : TokenBucket) : TokenBucket :=
  match calls with
  | [] => b
  | (now, n) :: calls' => consume_all calls' (snd (consume now n b))
  end.

(** The bucket [_bucket_for] creates for a limit of [limit] requests a
    minute: capacity [max(1, limit)], refilled at [max(1, limit) / 60.0]
    tokens a second. *)
Definition manager_bucket (limit : Z) (now : float) : result TokenBucket :=
  let c := Z.max 1 limit in
  let! f := float_of_Z c in
  Ok (TokenBucket_init c (f / 60) now).

(** The buckets the calls keep to: the count is at most the capacity, and
    the capacity and an int count are within the range of the floats. *)
Definition within_capacity (b : TokenBucket) : Prop :=
  le_Z (tokens b) (capacity b) = true /\
  (Z.abs (capacity b) <= max_float_Z)%Z /\
  match tokens b with
  | Int t => (Z.abs t <= max_float_Z)%Z
  | Flt _ => True
  end.

End Security64.

(** * Properties *)

(** ** The security gate *)

Module SecurityFacts.
Import Security.

Lemma endswith_unfold s d :
  PyStr.endswith s d =
  String.eqb s d ||
  match s with
  | EmptyString => false
  | String _ s' => PyStr.endswith s' d
  end.
Proof. destruct s; reflexivity. Qed.

Lemma endswith_refl s : PyStr.endswith s s = true.
Proof. rewrite endswith_unfold, String.eqb_refl. reflexivity. Qed.

Lemma endswith_tail c s d : PyStr.endswith s d = true -> PyStr.endswith (String c s) d = true.
Proof. intros H. rewrite endswith_unfold, H. apply orb_true_r. Qed.

(** A suffix of a suffix is a suffix. *)
Lemma endswith_trans s d e :
  PyStr.endswith s d = true -> PyStr.endswith d e = true -> PyStr.endswith s e = true.
Proof.
  induction s as [|c s IH]; intros Hsd Hde; rewrite endswith_unfold in Hsd;
    apply orb_true_iff in Hsd; destruct Hsd as [Heq|Htl]; try discriminate.
  - apply String.eqb_eq in Heq. subst d. exact Hde.
  - apply String.eqb_eq in Heq. subst d. exact Hde.
  - apply endswith_tail. apply IH; assumption.
Qed.

Lemma endswith_dot_entry d : PyStr.endswith ("." +:+ d) d = true.
Proof. apply endswith_tail, endswith_refl. Qed.

(** Every host the specification's rule allows is allowed by the code. *)
Lemma spec_allowed_is_allowed sm url :
  spec_origin_allowed (allowed_domains sm) (Url.netloc (Url.urlparse url)) = true ->
  is_domain_allowed sm url = true.
Proof.
  unfold spec_origin_allowed, is_domain_allowed.
  rewrite !existsb_exists. intros [d [Hin Hd]]. exists d. split; [exact Hin|].
  apply orb_true_iff in Hd. destruct Hd as [Heq|Hsub].
  - apply String.eqb_eq in Heq. rewrite Heq. apply endswith_refl.
  - eapply endswith_trans; [exact Hsub|apply endswith_dot_entry].
Qed.

(** With an empty allowlist no URL is allowed. *)
Lemma empty_allowlist_denies sm url :
  allowed_domains sm = [] -> is_domain_allowed sm url = false.
Proof. intros H. unfold is_domain_allowed. rewrite H. reflexivity. Qed.

(** C1, at the failing input.  With the allowlist [example.com] the URL
    [https://evilexample.com/] has the host [evilexample.com], which is not
    the entry and does not end with a dot followed by the entry, and
    [is_domain_allowed] returns true for it: the test is a plain suffix
    test. *)
Theorem is_domain_allowed_accepts_bare_suffix :
  Url.netloc (Url.urlparse "https://evilexample.com/") = "evilexample.com" /\
  spec_origin_allowed (allowed_domains example_manager) "evilexample.com" = false /\
  is_domain_allowed example_manager "https://evilexample.com/" = true.
Proof. repeat split; reflexivity. Qed.

(** The network location keeps the port, so a listed host with a port is
    refused. *)
Lemma is_domain_allowed_refuses_port :
  Url.netloc (Url.urlparse "https://example.com:8443/") = "example.com:8443" /\
  is_domain_allowed example_manager "https://example.com:8443/" = false.
Proof. split; reflexivity. Qed.

(** *** The token bucket *)

Lemma Qltb_true x y : Qltb x y = true <-> (x < y)%Q.
Proof.
  unfold Qltb. rewrite negb_true_iff. split; intros H.
  - apply Qnot_le_lt. intros Hle. apply Qle_bool_iff in Hle. congruence.
  - destruct (Qle_bool y x) eqn:E; [|reflexivity].
    apply Qle_bool_iff in E. exfalso. apply (Qlt_not_le _ _ H E).
Qed.

Lemma refill_capacity now b : capacity (refill now b) = capacity b.
Proof. unfold refill. destruct (Qltb _ _); reflexivity. Qed.

(** A refill never takes a bucket above its capacity. *)
Lemma refill_bounded now b :
  (tokens b <= inject_Z (capacity b))%Q ->
  (tokens (refill now b) <= inject_Z (capacity (refill now b)))%Q.
Proof.
  intros H. unfold refill. destruct (Qltb _ _); simpl; [apply Q.le_min_l|exact H].
Qed.

(** A refill never takes tokens away from a bucket within its capacity. *)
Lemma refill_grows now b :
  (tokens b <= inject_Z (capacity b))%Q -> (tokens b <= available now b)%Q.
Proof.
  intros H. unfold available, refill. destruct (Qltb _ _) eqn:E; simpl; [|apply Qle_refl].
  apply Qltb_true in E. apply Q.min_glb; [exact H|].
  rewrite <- (Qplus_0_r (tokens b)) at 1. apply Qplus_le_r. apply Qlt_le_weak. exact E.
Qed.

Lemma consume_refused now n b :
  (available now b < inject_Z n)%Q -> consume now n b = (false, refill now b).
Proof.
  intros H. unfold consume. fold (available now b).
  destruct (Qle_bool (inject_Z n) (available now b)) eqn:E; [|reflexivity].
  apply Qle_bool_iff in E. exfalso. apply (Qlt_not_le _ _ H E).
Qed.

Lemma consume_granted now n b :
  (inject_Z n <= available now b)%Q ->
  fst (consume now n b) = true /\
  tokens (snd (consume now n b)) = (available now b - inject_Z n)%Q /\
  capacity (snd (consume now n b)) = capacity b.
Proof.
  intros H. unfold consume. fold (available now b).
  apply Qle_bool_iff in H. rewrite H. simpl. repeat split. apply refill_capacity.
Qed.

Lemma consume_bounded now n b :
  (0 <= n)%Z ->
  (tokens b <= inject_Z (capacity b))%Q ->
  (tokens (snd (consume now n b)) <= inject_Z (capacity (snd (consume now n b))))%Q.
Proof.
  intros Hn Hb. pose proof (refill_bounded now b Hb) as Hr.
  unfold consume. destruct (Qle_bool _ _); simpl; [|exact Hr].
  eapply Qle_trans; [|exact Hr].
  rewrite <- (Qplus_0_r (tokens (refill now b))) at 2.
  unfold Qminus. apply Qplus_le_r.
  change 0%Q with (- 0)%Q. apply Qopp_le_compat.
  change 0%Q with (inject_Z 0). rewrite <- Zle_Qle. exact Hn.
Qed.

Lemma consume_all_bounded calls : forall b,
  Forall (fun c => (0 <= snd c)%Z) calls ->
  (tokens b <= inject_Z (capacity b))%Q ->
  (tokens (consume_all calls b) <= inject_Z (capacity (consume_all calls b)))%Q.
Proof.
  induction calls as [|[now n] calls IH]; intros b Hall Hb; simpl; [exact Hb|].
  inversion Hall as [|c cs Hn Hrest]; subst. apply IH; [exact Hrest|].
  apply consume_bounded; assumption.
Qed.

Lemma consume_capacity now n b : capacity (snd (consume now n b)) = capacity b.
Proof. unfold consume. destruct (Qle_bool _ _); simpl; apply refill_capacity. Qed.

Lemma consume_all_capacity calls : forall b, capacity (consume_all calls b) = capacity b.
Proof.
  induction calls as [|[now n] calls IH]; intros b; simpl; [reflexivity|].
  rewrite IH. apply consume_capacity.
Qed.

End SecurityFacts.

(** ** The permission gate *)

Module PermissionFacts.
Import Permissions.

(** C9.  For every action other than [login], [upload] and
    [off-allowlist], [check] returns true whatever the policy is. *)
Theorem check_allows_unrecognized (policy : PermissionPolicy) (action : string) :
  action <> "login" -> action <> "upload" -> action <> "off-allowlist" ->
  check policy action = true.
Proof.
  intros H1 H2 H3. unfold check.
  apply String.eqb_neq in H1, H2, H3. rewrite H1, H2, H3. reflexivity.
Qed.

Lemma check_allows_unrecognized_witness : check deny_all "delete-account" = true.
Proof. apply check_allows_unrecognized; discriminate. Defined.

(** The three gated actions do depend on the policy. *)
Lemma check_gates_recognized :
  check deny_all "login" = false /\ check deny_all "upload" = false /\
  check deny_all "off-allowlist" = false.
Proof. repeat split. Qed.

End PermissionFacts.

(** ** The stable descending sort *)

Module SortFacts.
Import PyList.

Section Sorting.
Context {A K : Type}.
Variable ltb : K -> K -> bool.
Variable key : A -> K.

Lemma insert_desc_perm x l : Permutation (insert_desc ltb key x l) (x :: l).
Proof.
  induction l as [|y l IH]; simpl; [reflexivity|].
  destruct (ltb (key x) (key y)); [|reflexivity].
  rewrite IH. apply perm_swap.
Qed.

(** The sort rearranges its input. *)
Lemma sort_desc_perm l : Permutation (sort_desc ltb key l) l.
Proof.
  induction l as [|x l IH]; simpl; [reflexivity|].
  rewrite insert_desc_perm. constructor. exact IH.
Qed.

(** The keys the comparison is an order on. *)
Variable dom : K -> Prop.
Hypothesis ltb_trans : forall x y z, dom x -> dom y -> dom z ->
  ltb x y = true -> ltb y z = true -> ltb x z = true.
Hypothesis ltb_negtrans : forall x y z, dom x -> dom y -> dom z ->
  ltb x y = false -> ltb y z = false -> ltb x z = false.

(** [earlier x y]: [x] stood before [y] in the input. *)
Variable earlier : A -> A -> Prop.

Lemma insert_desc_sorted x l :
  dom (key x) -> Forall (fun y => dom (key y)) l -> Forall (earlier x) l ->
  StronglySorted (desc_stable ltb key earlier) l ->
  StronglySorted (desc_stable ltb key earlier) (insert_desc ltb key x l).
Proof.
  intros Hx. induction l as [|y l IH]; intros Hdom Hearly Hsorted; simpl.
  - repeat constructor.
  - inversion Hdom as [|? ? Hy Hdl]; subst.
    inversion Hearly as [|? ? Hxy Hxl]; subst.
    inversion Hsorted as [|? ? Hsl Hyl]; subst.
    destruct (ltb (key x) (key y)) eqn:E.
    + constructor; [apply IH; assumption|].
      rewrite (insert_desc_perm x l). constructor; [left; exact E|exact Hyl].
    + constructor; [exact Hsorted|].
      constructor; [right; split; assumption|].
      rewrite List.Forall_forall in Hyl, Hxl, Hdl |- *. intros z Hz. right. split; [|auto].
      destruct (Hyl z Hz) as [Hzy|[Hyz _]].
      * destruct (ltb (key x) (key z)) eqn:Exz; [|reflexivity].
        rewrite (ltb_trans (key x) (key z) (key y)) in E; auto.
      * apply (ltb_negtrans (key x) (key y) (key z)); auto.
Qed.

(** On an input in which [earlier] holds from each element to the ones
    after it, the output is in descending key order and elements the
    comparison does not separate keep their input order. *)
Lemma sort_desc_sorted l :
  Forall (fun y => dom (key y)) l -> StronglySorted earlier l ->
  StronglySorted (desc_stable ltb key earlier) (sort_desc ltb key l).
Proof.
  induction l as [|x l IH]; intros Hdom Hearly; simpl; [constructor|].
  inversion Hdom; subst. inversion Hearly; subst.
  apply insert_desc_sorted; auto.
  - rewrite (sort_desc_perm l). assumption.
  - rewrite (sort_desc_perm l). assumption.
Qed.
End Sorting.

Lemma in_firstn_in {A : Type} (n : nat) (l : list A) x : In x (firstn n l) -> In x l.
Proof. intros H. rewrite <- (firstn_skipn n l). apply in_or_app. left. exact H. Qed.

Lemma in_skipn_in {A : Type} (n : nat) (l : list A) x : In x (skipn n l) -> In x l.
Proof. intros H. rewrite <- (firstn_skipn n l). apply in_or_app. right. exact H. Qed.

(** The elements a prefix of a sorted list leaves out stand behind those
    it keeps. *)
Lemma sorted_prefix_dominates {A : Type} (R : A -> A -> Prop) (n : nat) (l : list A) :
  StronglySorted R l ->
  forall x y, In x (firstn n l) -> In y (skipn n l) -> R x y.
Proof.
  revert n. induction l as [|a l IH]; intros n Hs x y Hx Hy.
  - rewrite firstn_nil in Hx. destruct Hx.
  - destruct n as [|n]; simpl in Hx, Hy; [destruct Hx|].
    inversion Hs as [|? ? Hsl Hal]; subst.
    destruct Hx as [->|Hx].
    + rewrite List.Forall_forall in Hal. apply Hal.
      apply (in_skipn_in n l). exact Hy.
    + apply (IH n); assumption.
Qed.

Lemma sorted_firstn {A : Type} (R : A -> A -> Prop) (n : nat) (l : list A) :
  StronglySorted R l -> StronglySorted R (firstn n l).
Proof.
  revert n. induction l as [|a l IH]; intros n Hs.
  - rewrite firstn_nil. constructor.
  - destruct n as [|n]; simpl; [constructor|].
    inversion Hs as [|? ? Hsl Hal]; subst. constructor; [apply IH; exact Hsl|].
    rewrite List.Forall_forall in Hal |- *. intros z Hz. apply Hal.
    apply (in_firstn_in n l). exact Hz.
Qed.

End SortFacts.

(** ** The selector memory *)

Module SelectorMemoryFacts.
Import SelectorMemory.

Lemma key_ltb_true k1 k2 :
  key_ltb k1 k2 = true <->
  (fst k1 < fst k2)%Z \/ (fst k1 = fst k2 /\ (snd k1 < snd k2)%Q).
Proof.
  unfold key_ltb. rewrite orb_true_iff, andb_true_iff.
  rewrite Z.ltb_lt, Z.eqb_eq, SecurityFacts.Qltb_true. reflexivity.
Qed.

Lemma key_ltb_false k1 k2 :
  key_ltb k1 k2 = false <->
  (fst k2 < fst k1)%Z \/ (fst k1 = fst k2 /\ (snd k2 <= snd k1)%Q).
Proof.
  rewrite <- not_true_iff_false, key_ltb_true. split.
  - intros H. destruct (Z.lt_trichotomy (fst k1) (fst k2)) as [Hlt|[Heq|Hgt]].
    + exfalso. apply H. left. exact Hlt.
    + right. split; [exact Heq|]. apply Qnot_lt_le. intros Hq. apply H. right. split; assumption.
    + left. exact Hgt.
  - intros [Hgt|[Heq Hle]] [Hlt|[Heq' Hlt]]; try lia.
    apply (Qlt_not_le _ _ Hlt Hle).
Qed.

Lemma key_ltb_trans k1 k2 k3 :
  key_ltb k1 k2 = true -> key_ltb k2 k3 = true -> key_ltb k1 k3 = true.
Proof.
  rewrite !key_ltb_true. intros [H1|[E1 Q1]] [H2|[E2 Q2]]; try (left; lia).
  right. split; [lia|]. eapply Qlt_trans; eassumption.
Qed.

Lemma key_ltb_negtrans k1 k2 k3 :
  key_ltb k1 k2 = false -> key_ltb k2 k3 = false -> key_ltb k1 k3 = false.
Proof.
  rewrite !key_ltb_false. intros [H1|[E1 Q1]] [H2|[E2 Q2]]; try (left; lia).
  right. split; [lia|]. eapply Qle_trans; eassumption.
Qed.

(** The rows [get] selects are the matching rows, in the order of the
    specification. *)
Lemma get_rows_sorted h a l tbl :
  Permutation (get_rows h a l tbl) (List.filter (where3 h a l) tbl) /\
  StronglySorted ranks_before (get_rows h a l tbl).
Proof.
  unfold get_rows, order_by_desc. split; [apply SortFacts.sort_desc_perm|].
  set (rows := List.filter (where3 h a l) tbl).
  assert (Hs : StronglySorted
                 (PyList.desc_stable key_ltb order_key (fun _ _ => True))
                 (PyList.sort_desc key_ltb order_key rows)).
  { apply (SortFacts.sort_desc_sorted key_ltb order_key (fun _ => True)).
    - intros x y z _ _ _. apply key_ltb_trans.
    - intros x y z _ _ _. apply key_ltb_negtrans.
    - apply List.Forall_forall. intros; exact I.
    - clear. induction rows; constructor; [assumption|].
      apply List.Forall_forall. intros; exact I. }
  revert Hs. generalize (PyList.sort_desc key_ltb order_key rows). clear.
  induction 1 as [|r rs Hrs IH Hall]; constructor; [exact IH|].
  rewrite List.Forall_forall in Hall |- *. intros r' Hr'.
  destruct (Hall r' Hr') as [Hlt|[Hnlt _]]; unfold ranks_before.
  - apply key_ltb_true in Hlt. simpl in Hlt. destruct Hlt as [Hlt|[Heq Hq]].
    + left. exact Hlt.
    + right. split; [symmetry; exact Heq|apply Qlt_le_weak; exact Hq].
  - apply key_ltb_false in Hnlt. simpl in Hnlt. exact Hnlt.
Qed.

Lemma find_split {A : Type} (p : A -> bool) (l : list A) x :
  List.find p l = Some x ->
  exists pre post, l = pre ++ x :: post /\ p x = true /\ Forall (fun y => p y = false) pre.
Proof.
  induction l as [|y l IH]; simpl; [discriminate|].
  destruct (p y) eqn:E.
  - intros [= ->]. exists [], l. repeat split; [exact E|constructor].
  - intros H. destruct (IH H) as [pre [post [Hl [Hx Hpre]]]].
    exists (y :: pre), post. subst l. repeat split; [exact Hx|constructor; assumption].
Qed.

Lemma update_by_id_other sid cnt now rows :
  Forall (fun r => id r <> sid) rows -> update_by_id sid cnt now rows = rows.
Proof.
  unfold update_by_id.
  induction 1 as [|r rows Hr Hrows IH]; simpl; [reflexivity|].
  rewrite IH. apply Z.eqb_neq in Hr. rewrite Hr. reflexivity.
Qed.

(** With row identifiers that are unique, the update touches one row. *)
Lemma update_by_id_split row cnt now pre post :
  List.NoDup (map id (pre ++ row :: post)) ->
  update_by_id (id row) cnt now (pre ++ row :: post) = pre ++ bump cnt now row :: post.
Proof.
  intros Hnd. rewrite map_app in Hnd. simpl in Hnd.
  pose proof (NoDup_remove_2 _ _ _ Hnd) as Hnot.
  unfold update_by_id. rewrite map_app. simpl. rewrite Z.eqb_refl.
  fold (update_by_id (id row) cnt now pre). fold (update_by_id (id row) cnt now post).
  rewrite !update_by_id_other; [reflexivity| |].
  - apply List.Forall_forall. intros r Hr Heq. apply Hnot. apply in_or_app. right.
    rewrite <- Heq. apply in_map. exact Hr.
  - apply List.Forall_forall. intros r Hr Heq. apply Hnot. apply in_or_app. left.
    rewrite <- Heq. apply in_map. exact Hr.
Qed.

Lemma NoDup_app_end {A : Type} (l : list A) (x : A) :
  List.NoDup l -> ~ In x l -> List.NoDup (l ++ [x]).
Proof.
  induction l as [|y l IH]; intros Hnd Hx; simpl.
  - constructor; [intros []|constructor].
  - inversion Hnd as [|? ? Hy Hl]; subst. constructor.
    + intros Hin. apply in_app_or in Hin. destruct Hin as [Hin|[->|[]]].
      * apply Hy. exact Hin.
      * apply Hx. left. reflexivity.
    + apply IH; [exact Hl|]. intros Hin. apply Hx. right. exact Hin.
Qed.

Lemma find_none_iff {A : Type} (p : A -> bool) (l : list A) :
  List.find p l = None <-> forall x, In x l -> p x = false.
Proof.
  split; [apply find_none|].
  induction l as [|y l IH]; simpl; intros H; [reflexivity|].
  rewrite (H y (or_introl eq_refl)). apply IH. intros x Hx. apply H. right. exact Hx.
Qed.

Lemma fold_max_ge (l : list Z) : forall a, (a <= fold_left Z.max l a)%Z.
Proof.
  induction l as [|x l IH]; intros a; simpl; [lia|].
  specialize (IH (Z.max a x)). lia.
Qed.

Lemma fold_max_bound (l : list Z) : forall a x, In x l -> (x <= fold_left Z.max l a)%Z.
Proof.
  induction l as [|y l IH]; intros a x Hin; simpl; [destruct Hin|].
  destruct Hin as [->|Hin]; [|apply IH; exact Hin].
  pose proof (fold_max_ge l (Z.max a x)). lia.
Qed.

(** The rowid of an inserted row is above every rowid of the table. *)
Lemma next_rowid_fresh tbl r : In r tbl -> (id r < next_rowid tbl)%Z.
Proof.
  destruct tbl as [|r0 tbl]; intros Hin; [destruct Hin|].
  unfold next_rowid. destruct Hin as [->|Hin].
  - pose proof (fold_max_ge (map id tbl) (id r)). lia.
  - pose proof (fold_max_bound (map id tbl) (id r0) (id r) (in_map id _ _ Hin)). lia.
Qed.

Lemma update_by_id_ids sid cnt now tbl : map id (update_by_id sid cnt now tbl) = map id tbl.
Proof.
  unfold update_by_id. rewrite map_map. apply map_ext. intros r.
  destruct (id r =? sid)%Z; reflexivity.
Qed.

(** Unique rowids are an invariant of [save_success]: they hold of every
    table built by it from the empty table. *)
Lemma save_success_keeps_ids_unique now h a l s tbl :
  List.NoDup (map id tbl) -> List.NoDup (map id (save_success now h a l s tbl)).
Proof.
  intros Hnd. unfold save_success. destruct (List.find _ tbl) as [r|].
  - rewrite update_by_id_ids. exact Hnd.
  - rewrite map_app. simpl. apply NoDup_app_end; [exact Hnd|].
    intros Hin. apply in_map_iff in Hin. destruct Hin as [r [Hid Hr]].
    pose proof (next_rowid_fresh tbl r Hr). lia.
Qed.

(** C6.  [get] returns the selectors of the matching rows ordered by
    success count descending and, among equal counts, by update time
    descending.  [save_success] on a tuple that has a row adds exactly 1 to
    the success count of that row, sets its update time to the current time
    and leaves every other row as it was; on a tuple without a row it
    appends a row with success count 1. *)
Theorem selector_memory_contract (tbl : Table) (h a l s : string) (now : Q)
  (Hids : List.NoDup (map id tbl)) :
  (exists rows,
      get h a l tbl = map selector rows /\
      Permutation rows (List.filter (where3 h a l) tbl) /\
      StronglySorted ranks_before rows) /\
  (forall row, List.find (where4 h a l s) tbl = Some row ->
      exists pre post,
        tbl = pre ++ row :: post /\
        save_success now h a l s tbl =
          pre ++ {| id := id row; host := host row; action := action row;
                    label := label row; selector := selector row;
                    success_count := success_count row + 1; updated := now |} :: post) /\
  ((forall row, In row tbl -> where4 h a l s row = false) ->
      save_success now h a l s tbl =
        tbl ++ [ {| id := next_rowid tbl; host := h; action := a; label := l;
                    selector := s; success_count := 1; updated := now |} ]).
Proof.
  split; [|split].
  - exists (get_rows h a l tbl). split; [reflexivity|apply get_rows_sorted].
  - intros row Hfind. destruct (find_split _ _ _ Hfind) as [pre [post [Htbl _]]].
    exists pre, post. split; [exact Htbl|].
    unfold save_success. rewrite Hfind. subst tbl.
    apply update_by_id_split. exact Hids.
  - intros Hnone. unfold save_success.
    apply find_none_iff in Hnone. rewrite Hnone. reflexivity.
Qed.

Lemma selector_memory_contract_witness :
  get "example.com" "click" "Submit" example_table = ["#submit"; "text=Submit"; "#old"] /\
  save_success 40 "example.com" "click" "Submit" "#old" example_table =
    [row 1 "#old" 3 40; row 2 "#submit" 5 20; row 3 "text=Submit" 2 30] /\
  save_success 40 "example.com" "click" "Submit" "#new" example_table =
    example_table ++ [row 4 "#new" 1 40].
Proof.
  assert (Hids : List.NoDup (map id example_table)).
  { repeat constructor; simpl; intuition discriminate. }
  pose proof (selector_memory_contract example_table
                "example.com" "click" "Submit" "#old" 40 Hids) as Hold.
  pose proof (selector_memory_contract example_table
                "example.com" "click" "Submit" "#new" 40 Hids) as Hnew.
  destruct Hold as [_ [_ _]]. destruct Hnew as [_ [_ Hnew]].
  split; [reflexivity|]. split; [reflexivity|].
  apply Hnew. intros r Hr. simpl in Hr.
  destruct Hr as [<-|[<-|[<-|[]]]]; reflexivity.
Defined.

End SelectorMemoryFacts.

(** ** The browser pool *)

Module BrowserPoolFacts.
Import BrowserPool.

Lemma prefill_maxsize m : forall q p, maxsize (fst (prefill m q p)) = maxsize q.
Proof.
  induction m as [|m IH]; intros q p; simpl; [reflexivity|].
  rewrite IH. reflexivity.
Qed.

Lemma prefill_queues m : forall q p,
  _pages_queues (snd (prefill m q p)) = _pages_queues p.
Proof.
  induction m as [|m IH]; intros q p; simpl; [reflexivity|].
  rewrite IH. reflexivity.
Qed.

Lemma launch_unbounded n : forall p, unbounded p -> unbounded (launch n p).
Proof.
  induction n as [|n IH]; intros p Hp; simpl; [exact Hp|].
  destruct (prefill _ _ _) as [q p2] eqn:E. apply IH.
  unfold unbounded in *. simpl.
  assert (Hq : maxsize q = 0%Z).
  { pose proof (prefill_maxsize (Z.to_nat (max_pages_per_browser p)) Queue_new
                  (set_next p (S (next_object p)))) as H.
    rewrite E in H. exact H. }
  assert (Hqs : _pages_queues p2 = _pages_queues p).
  { pose proof (prefill_queues (Z.to_nat (max_pages_per_browser p)) Queue_new
                  (set_next p (S (next_object p)))) as H.
    rewrite E in H. exact H. }
  rewrite Hqs. apply Forall_app. split; [exact Hp|]. constructor; [exact Hq|constructor].
Qed.

Lemma start_unbounded p : unbounded p -> unbounded (start p).
Proof.
  intros Hp. unfold start. destruct (_started p); [exact Hp|].
  apply (launch_unbounded (Z.to_nat (max_browsers p))) in Hp. exact Hp.
Qed.

Lemma stop_unbounded p : unbounded p -> unbounded (stop p).
Proof.
  intros Hp. unfold stop. destruct (negb (_started p)); [exact Hp|]. constructor.
Qed.

(** What [get] hands out is the head of the queue, and the queue keeps
    its tail and its maximum size. *)
Lemma get_got t q x q' :
  get t q = Got x q' ->
  exists r, items q = x :: r /\ q' = {| maxsize := maxsize q; items := r |}.
Proof.
  unfold get. destruct t as [t|].
  - destruct (negb (Qle_bool 0 t)); [discriminate|].
    destruct (items q) as [|y r]; [discriminate|]. intros [= <- <-]. eauto.
  - destruct (items q) as [|y r]; [discriminate|]. intros [= <- <-]. eauto.
Qed.

Lemma scan_unbounded t rest : forall idx before p h p',
  Forall (fun q => maxsize q = 0%Z) (before ++ rest) ->
  scan t idx before rest p = Some (Acquired h p') -> unbounded p'.
Proof.
  induction rest as [|q rest IH]; intros idx before p h p' Hall Hscan; simpl in Hscan;
    [discriminate|].
  destruct (get t q) as [x q'| | |] eqn:G; try discriminate.
  - destruct (get_got t q x q' G) as [r [_ ->]].
    injection Hscan as _ <-. unfold unbounded. simpl.
    apply Forall_app in Hall. destruct Hall as [Hb Hr].
    inversion Hr; subst. apply Forall_app. split; [exact Hb|].
    constructor; [simpl; assumption|assumption].
  - apply (IH (S idx) (before ++ [q]) p h p'); [|exact Hscan].
    rewrite <- app_assoc. exact Hall.
Qed.

(** A scan that raises leaves the pool as it was. *)
Lemma scan_raises t rest : forall idx before p e p',
  scan t idx before rest p = Some (AcquireRaises e p') -> e = bad_timeout /\ p' = p.
Proof.
  induction rest as [|q rest IH]; intros idx before p e p'; simpl; [discriminate|].
  destruct (get t q); [discriminate|apply IH|discriminate|].
  intros [= <- <-]. split; reflexivity.
Qed.

Lemma acquire_unbounded t p h p' :
  unbounded p -> _acquire t p = Acquired h p' -> unbounded p'.
Proof.
  intros Hp. unfold _acquire.
  set (ps := if _started p then p else start p).
  assert (Hps : unbounded ps).
  { subst ps. destruct (_started p); [exact Hp|apply start_unbounded; exact Hp]. }
  destruct (scan t 0 [] (_pages_queues ps) ps) as [r|] eqn:E.
  - intros ->. eapply scan_unbounded; [|exact E]. exact Hps.
  - destruct (_browsers ps); [discriminate|].
    intros [= _ <-]. exact Hps.
Qed.

Lemma acquire_raises_unbounded t p e p' :
  unbounded p -> _acquire t p = AcquireRaises e p' -> unbounded p'.
Proof.
  intros Hp. unfold _acquire.
  set (ps := if _started p then p else start p).
  assert (Hps : unbounded ps).
  { subst ps. destruct (_started p); [exact Hp|apply start_unbounded; exact Hp]. }
  destruct (scan t 0 [] (_pages_queues ps) ps) as [r|] eqn:E.
  - intros ->. destruct (scan_raises _ _ _ _ _ _ _ E) as [_ ->]. exact Hps.
  - destruct (_browsers ps); [|discriminate].
    intros [= _ <-]. exact Hps.
Qed.

Lemma release_unbounded h p : unbounded p -> unbounded (_release h p).
Proof.
  intros Hp. unfold _release.
  destruct (PyList.index _ _) as [j|]; [|exact Hp].
  destruct (_pages_queues p !! j) as [q|] eqn:Eq; [|exact Hp].
  unfold put_nowait. destruct (full q); [exact Hp|].
  unfold unbounded in *. simpl. apply Forall_insert; [exact Hp|].
  simpl. eapply Forall_lookup_1 in Hp; [exact Hp|exact Eq].
Qed.

(** Every queue of a pool in use is unbounded. *)
Lemma reachable_unbounded p : reachable p -> unbounded p.
Proof.
  induction 1.
  - constructor.
  - apply start_unbounded; assumption.
  - apply stop_unbounded; assumption.
  - eapply acquire_unbounded; eassumption.
  - eapply acquire_raises_unbounded; eassumption.
  - apply release_unbounded; assumption.
Qed.

Lemma index_in_range {A : Type} (l : list A) i j :
  PyList.index l i = Some j -> (j < length l)%nat.
Proof.
  unfold PyList.index.
  destruct ((0 <=? i)%Z && (i <? Z.of_nat (length l))%Z) eqn:E1.
  - intros [= <-]. apply andb_true_iff in E1. lia.
  - destruct ((- Z.of_nat (length l) <=? i)%Z && (i <? 0)%Z) eqn:E2; [|discriminate].
    intros [= <-]. apply andb_true_iff in E2. lia.
Qed.

Lemma unbounded_never_full q : maxsize q = 0%Z -> full q = false.
Proof. intros H. unfold full. rewrite H. reflexivity. Qed.

(** When every queue is empty and a browser is there, [_acquire] with a
    timeout makes the overflow handle, on slot 0. *)
Lemma scan_all_empty t rest : forall idx before p,
  Qle_bool 0 t = true ->
  Forall (fun q => items q = []) rest -> scan (Some t) idx before rest p = None.
Proof.
  induction rest as [|q rest IH]; intros idx before p Ht Hall; simpl; [reflexivity|].
  inversion Hall as [|? ? Hq Hrest]; subst. unfold get. rewrite Ht, Hq. simpl.
  apply IH; assumption.
Qed.

Lemma acquire_overflow t p b bs :
  Qle_bool 0 t = true ->
  _started p = true -> _browsers p = b :: bs ->
  Forall (fun q => items q = []) (_pages_queues p) ->
  _acquire (Some t) p =
    Acquired {| page := fst (new_page p); browser_idx := 0 |} (snd (new_page p)).
Proof.
  intros Ht Hs Hb Hall. unfold _acquire. rewrite Hs, scan_all_empty, Hb by assumption.
  reflexivity.
Qed.

(** C10.  In a pool reached by calls on a new pool, the release of a handle
    whose slot index is within the queue list puts the handle at the end of
    that slot's queue and closes nothing: the queue has no maximum size, so
    the put succeeds.  The slot then holds one handle more, whatever
    [max_pages_per_browser] is; in a pool of one browser with one page,
    once the pooled handle and the overflow handle have both been released,
    slot 0 holds two handles. *)
Theorem release_requeues (p : Pool) (h : PageHandle) (j : nat)
  (Hreach : reachable p)
  (Hidx : PyList.index (_pages_queues p) (browser_idx h) = Some j) :
  (exists q,
      _pages_queues p !! j = Some q /\ maxsize q = 0%Z /\
      _release h p =
        set_queues p
          (<[j := {| maxsize := maxsize q;
                     items := items q ++ [(page h, context (page h))] |}]>
             (_pages_queues p))) /\
  closed_pages (_release h p) = closed_pages p /\
  pooled (_release h p) j = pooled p j ++ [(page h, context (page h))] /\
  (exists p0,
      overflow_scenario = Some p0 /\
      (max_pages_per_browser p0 < Z.of_nat (length (pooled p0 0)))%Z).
Proof.
  pose proof (reachable_unbounded p Hreach) as Hunb.
  pose proof (index_in_range _ _ _ Hidx) as Hlt.
  destruct (lookup_lt_is_Some_2 (_pages_queues p) j Hlt) as [q Hq].
  assert (Hmax : maxsize q = 0%Z).
  { unfold unbounded in Hunb. eapply Forall_lookup_1 in Hunb; [exact Hunb|exact Hq]. }
  assert (Hrel : _release h p =
                 set_queues p
                   (<[j := {| maxsize := maxsize q;
                              items := items q ++ [(page h, context (page h))] |}]>
                      (_pages_queues p))).
  { unfold _release. rewrite Hidx, Hq. unfold put_nowait.
    rewrite (unbounded_never_full q Hmax). reflexivity. }
  split; [exists q; repeat split; assumption|].
  split; [rewrite Hrel; reflexivity|].
  split.
  - rewrite Hrel. unfold pooled. simpl.
    rewrite list_lookup_insert_eq by exact Hlt. rewrite Hq. reflexivity.
  - eexists. split; [vm_compute; reflexivity|]. vm_compute. reflexivity.
Qed.

Lemma release_requeues_witness :
  match _acquire (Some 5%Q) (init 1 1) with
  | Acquired h1 p1 =>
      match _acquire (Some 5%Q) p1 with
      | Acquired h2 p2 =>
          browser_idx h2 = 0%Z /\
          closed_pages (_release h2 p2) = [] /\
          pooled (_release h2 p2) 0 = [(page h2, context (page h2))]
      | _ => False
      end
  | _ => False
  end.
Proof.
  destruct (_acquire (Some 5%Q) (init 1 1)) as [h1 p1| |] eqn:E1;
    try (vm_compute in E1; discriminate).
  destruct (_acquire (Some 5%Q) p1) as [h2 p2| |] eqn:E2;
    try (vm_compute in E1; injection E1 as <- <-; vm_compute in E2; discriminate).
  assert (Hreach : reachable p2).
  { eapply reach_acquire; [|exact E2]. eapply reach_acquire; [|exact E1]. constructor. }
  vm_compute in E1. injection E1 as <- <-. vm_compute in E2. injection E2 as <- <-.
  match goal with
  | |- browser_idx ?h = _ /\ _ =>
      pose proof (release_requeues _ h 0%nat Hreach eq_refl) as [_ [Hclosed [Hpooled _]]]
  end.
  split; [reflexivity|]. split; [exact Hclosed|exact Hpooled].
Defined.

End BrowserPoolFacts.

(** ** The order of floats *)

Module FloatOrderFacts.
Import FloatOrder.

Lemma SFltb_key a b :
  a <> S754_nan -> b <> S754_nan ->
  (SFltb a b = true <-> key_lt (sf_key a) (sf_key b)).
Proof.
  intros Ha Hb. unfold SFltb, key_lt.
  destruct a as [sa|sa| |sa ma ea], b as [sb|sb| |sb mb eb]; try congruence;
    try destruct sa; try destruct sb; simpl; try (split; [discriminate|lia]);
    try (split; [intros _; lia|reflexivity]).
  - destruct (Z.compare_spec ea eb) as [E|E|E]; simpl.
    + subst. rewrite Pos.compare_cont_spec. simpl.
      destruct (Pos.compare_spec ma mb) as [F|F|F]; simpl; split;
        try discriminate; try reflexivity; try lia; intros.
    + split; [discriminate|lia].
    + split; [intros _; lia|reflexivity].
  - destruct (Z.compare_spec ea eb) as [E|E|E]; simpl.
    + subst. rewrite Pos.compare_cont_spec. simpl.
      destruct (Pos.compare_spec ma mb) as [F|F|F]; simpl; split;
        try discriminate; try reflexivity; try lia; intros.
    + split; [intros _; lia|reflexivity].
    + split; [discriminate|lia].
Qed.

Lemma key_lt_trans a b c : key_lt a b -> key_lt b c -> key_lt a c.
Proof. unfold key_lt. destruct a as [[a1 a2] a3], b as [[b1 b2] b3], c as [[c1 c2] c3]. simpl. lia. Qed.

Lemma key_lt_negtrans a b c : ~ key_lt a b -> ~ key_lt b c -> ~ key_lt a c.
Proof. unfold key_lt. destruct a as [[a1 a2] a3], b as [[b1 b2] b3], c as [[c1 c2] c3]. simpl. lia. Qed.

Lemma not_nan_spec x : PrimFloat.is_nan x = false -> Prim2SF x <> S754_nan.
Proof.
  unfold PrimFloat.is_nan. rewrite negb_false_iff, FloatAxioms.eqb_spec. intros H E.
  rewrite E in H. discriminate.
Qed.

Lemma ltb_key x y :
  PrimFloat.is_nan x = false -> PrimFloat.is_nan y = false ->
  (PrimFloat.ltb x y = true <-> key_lt (sf_key (Prim2SF x)) (sf_key (Prim2SF y))).
Proof.
  intros Hx Hy. rewrite ltb_spec. apply SFltb_key; apply not_nan_spec; assumption.
Qed.

(** On values that are not NaN the comparison is transitive, and so is its
    complement. *)
Lemma ltb_trans x y z :
  PrimFloat.is_nan x = false -> PrimFloat.is_nan y = false -> PrimFloat.is_nan z = false ->
  PrimFloat.ltb x y = true -> PrimFloat.ltb y z = true -> PrimFloat.ltb x z = true.
Proof.
  intros Hx Hy Hz. rewrite !ltb_key by assumption. apply key_lt_trans.
Qed.

Lemma ltb_negtrans x y z :
  PrimFloat.is_nan x = false -> PrimFloat.is_nan y = false -> PrimFloat.is_nan z = false ->
  PrimFloat.ltb x y = false -> PrimFloat.ltb y z = false -> PrimFloat.ltb x z = false.
Proof.
  intros Hx Hy Hz. rewrite <- !not_true_iff_false, !ltb_key by assumption.
  apply key_lt_negtrans.
Qed.

End FloatOrderFacts.

(** ** The vector store *)

Module VectorStoreFacts.
Import VectorStore.

Section WithHash.
Variable py_hash : string -> Z.

Lemma hash_in_range d token :
  (0 < d)%Z -> exists i, _hash py_hash d token = Ok i /\ (0 <= i < d)%Z.
Proof.
  intros Hd. unfold _hash.
  destruct (d =? 0)%Z eqn:E; [apply Z.eqb_eq in E; lia|].
  eexists. split; [reflexivity|]. apply Z.mod_pos_bound. exact Hd.
Qed.

Lemma bump_in_range v i :
  (0 <= i < Z.of_nat (length v))%Z ->
  exists v', bump v i = Ok v' /\ length v' = length v.
Proof.
  intros Hi. unfold bump, PyList.index.
  destruct ((0 <=? i)%Z && (i <? Z.of_nat (length v))%Z) eqn:E.
  - eexists. split; [reflexivity|]. apply length_alter.
  - apply andb_false_iff in E. destruct E as [E|E]; [apply Z.leb_gt in E|apply Z.ltb_ge in E]; lia.
Qed.

(** In a positive dimension the counting loop of [_embed] returns. *)
Lemma count_tokens_returns d ts : forall v,
  (0 < d)%Z -> length v = Z.to_nat d ->
  exists v', count_tokens py_hash d ts v = Ok v' /\ length v' = Z.to_nat d.
Proof.
  induction ts as [|t ts IH]; intros v Hd Hlen; simpl.
  - exists v. split; [reflexivity|exact Hlen].
  - destruct (hash_in_range d t Hd) as [i [Hi Hrange]]. rewrite Hi. simpl.
    destruct (bump_in_range v i) as [v' [Hb Hlen']]; [lia|].
    rewrite Hb. simpl. apply IH; [exact Hd|congruence].
Qed.

(** In a positive dimension [_embed] returns a vector. *)
Lemma embed_returns d text :
  (0 < d)%Z -> _embed py_hash d text = Ok (embedding py_hash d text).
Proof.
  intros Hd. unfold embedding, _embed.
  destruct (count_tokens_returns d (tokens_of text) (repeat 0%float (Z.to_nat d)) Hd)
    as [v [Hv _]]; [apply repeat_length|].
  rewrite Hv. reflexivity.
Qed.

Lemma add_texts_returns d texts : forall ds vs,
  (0 < d)%Z ->
  add_texts py_hash texts {| dim := d; docs := ds; vecs := vs |} =
    (Ok tt, {| dim := d; docs := ds ++ texts;
               vecs := vs ++ map (embedding py_hash d) texts |}).
Proof.
  induction texts as [|t texts IH]; intros ds vs Hd; simpl.
  - rewrite !app_nil_r. reflexivity.
  - rewrite (embed_returns d t Hd). rewrite IH by exact Hd.
    rewrite <- !app_assoc. reflexivity.
Qed.

(** In a positive dimension [add_texts] indexes every text. *)
Lemma indexed_store d texts :
  (0 < d)%Z ->
  indexed py_hash d texts =
    {| dim := d; docs := texts; vecs := map (embedding py_hash d) texts |}.
Proof.
  intros Hd. unfold indexed, init. rewrite (add_texts_returns d texts [] [] Hd).
  reflexivity.
Qed.

Lemma similarity_dot d query text :
  (0 < d)%Z ->
  similarity py_hash d query text =
    dot (embedding py_hash d query) (embedding py_hash d text).
Proof.
  intros Hd. unfold similarity. rewrite !embed_returns by exact Hd. reflexivity.
Qed.

End WithHash.

(** *** Enumerated lists *)

Lemma map_snd_combine {A B C : Type} (g : B -> C) (a : list A) : forall (b : list B),
  map (fun iv => (fst iv, g (snd iv))) (combine a b) = combine a (map g b).
Proof.
  induction a as [|x a IH]; intros [|y b]; simpl; try reflexivity.
  rewrite IH. reflexivity.
Qed.

Lemma in_enumerated {B : Type} (l : list B) : forall a i s,
  In (i, s) (combine (seq a (length l)) l) ->
  (a <= i < a + length l)%nat /\ nth_error l (i - a) = Some s.
Proof.
  induction l as [|y l IH]; intros a i s Hin; simpl in Hin; [destruct Hin|].
  destruct Hin as [[= <- <-]|Hin].
  - split; [simpl; lia|]. rewrite Nat.sub_diag. reflexivity.
  - apply IH in Hin. destruct Hin as [Hr Hn]. split; [simpl; lia|].
    replace (i - a)%nat with (S (i - S a)) by lia. exact Hn.
Qed.

Lemma enumerated_in {B : Type} (l : list B) : forall a i s,
  nth_error l i = Some s -> In ((a + i)%nat, s) (combine (seq a (length l)) l).
Proof.
  induction l as [|y l IH]; intros a i s Hn; [destruct i; discriminate|].
  destruct i as [|i]; simpl in Hn |- *.
  - injection Hn as <-. left. rewrite Nat.add_0_r. reflexivity.
  - right. replace (a + S i)%nat with (S a + i)%nat by lia. apply IH. exact Hn.
Qed.

Lemma enumerated_increasing {B : Type} (l : list B) : forall a,
  StronglySorted (fun x y : nat * B => (fst x < fst y)%nat) (combine (seq a (length l)) l).
Proof.
  induction l as [|y l IH]; intros a; simpl; constructor; [apply IH|].
  apply List.Forall_forall. intros [i s] Hin. apply in_enumerated in Hin. simpl. lia.
Qed.

Lemma map_fst_enumerated {B : Type} (l : list B) : forall a,
  map fst (combine (seq a (length l)) l) = seq a (length l).
Proof.
  induction l as [|y l IH]; intros a; simpl; [reflexivity|]. rewrite IH. reflexivity.
Qed.

Lemma NoDup_firstn {A : Type} (n : nat) (l : list A) :
  List.NoDup l -> List.NoDup (firstn n l).
Proof.
  revert n. induction l as [|x l IH]; intros n Hnd.
  - rewrite firstn_nil. constructor.
  - destruct n as [|n]; simpl; [constructor|].
    inversion Hnd as [|? ? Hx Hl]; subst. constructor; [|apply IH; exact Hl].
    intros Hin. apply Hx. apply (SortFacts.in_firstn_in n l). exact Hin.
Qed.

Lemma sorted_map {A B : Type} (R : A -> A -> Prop) (R' : B -> B -> Prop) (f : A -> B)
  (l : list A) :
  (forall x y, In x l -> In y l -> R x y -> R' (f x) (f y)) ->
  StronglySorted R l -> StronglySorted R' (map f l).
Proof.
  induction l as [|a l IH]; intros Himp Hs; simpl; [constructor|].
  inversion Hs as [|? ? Hsl Hal]; subst. constructor.
  - apply IH; [|exact Hsl]. intros x y Hx Hy. apply Himp; right; assumption.
  - rewrite List.Forall_forall in Hal. apply List.Forall_forall. intros b Hb.
    apply in_map_iff in Hb. destruct Hb as [x [<- Hx]].
    apply Himp; [left; reflexivity|right; exact Hx|apply Hal; exact Hx].
Qed.

Lemma with_docs_returns (texts : list string) (l : list (nat * float)) :
  (forall p, In p l -> (fst p < length texts)%nat) ->
  with_docs texts l = Ok (map (fun p => (nth (fst p) texts EmptyString, snd p)) l).
Proof.
  induction l as [|[i s] l IH]; intros Hlt; simpl; [reflexivity|].
  assert (Hi : (i < length texts)%nat) by (apply (Hlt (i, s)); left; reflexivity).
  unfold PyList.item, PyList.index.
  replace ((0 <=? Z.of_nat i)%Z && (Z.of_nat i <? Z.of_nat (length texts))%Z) with true
    by (symmetry; apply andb_true_iff; split; [apply Z.leb_le|apply Z.ltb_lt]; lia).
  rewrite Nat2Z.id. rewrite (nth_error_nth' texts EmptyString Hi). simpl.
  rewrite IH; [reflexivity|]. intros p Hp. apply Hlt. right. exact Hp.
Qed.

End VectorStoreFacts.

(** ** The web navigator *)

Module NavigatorFacts.
Import Navigator.

Section WithPage.
Variable py_hash : string -> Z.
Variable pg : Page.

(** What the loop over the remembered selectors of a click does: it
    succeeds exactly when one of them resolves, it only calls the page
    through these selectors, and it writes neither the selector memory
    nor, when none resolves, the log. *)
Lemma click_from_memory_spec sels : forall tried w,
  let r := click_from_memory pg sels tried w in
  fst (fst r) = existsb (fun sel => negb (click_raises pg sel)) sels /\
  sel_mem (snd r) = sel_mem w /\ clock (snd r) = clock w /\
  security (snd r) = security w /\ page_url (snd r) = page_url w /\
  (exists ops, trace (snd r) = trace w ++ ops /\ Forall (memory_click_op sels) ops) /\
  (fst (fst r) = false -> snd (fst r) = tried ++ sels /\ log (snd r) = log w).
Proof.
  induction sels as [|sel sels IH]; intros tried w; simpl.
  - repeat split; try reflexivity.
    + exists []. split; [rewrite app_nil_r; reflexivity|constructor].
    + rewrite app_nil_r. reflexivity.
  - unfold try_click, click_raises.
    assert (Hmono : forall ops, Forall (memory_click_op sels) ops ->
                      Forall (memory_click_op (sel :: sels)) ops).
    { intros ops H. eapply List.Forall_impl; [|exact H].
      intros op [s [Hs Hop]]. exists s. split; [right; exact Hs|exact Hop]. }
    destruct (wait_for_selector pg sel) as [e|] eqn:Ew; simpl.
    + specialize (IH (tried ++ [sel]) (add_trace [OpWaitForSelector sel] w)).
      simpl in IH. destruct IH as [H1 [H2 [H3 [H4 [H5 [[ops [H6 H7]] H8]]]]]].
      repeat split; try assumption.
      * exists (OpWaitForSelector sel :: ops). split.
        -- rewrite H6. simpl. rewrite <- app_assoc. reflexivity.
        -- constructor; [exists sel; split; [left; reflexivity|left; reflexivity]|].
           apply Hmono. exact H7.
      * destruct (H8 H) as [H9 _]. rewrite H9, <- app_assoc. reflexivity.
      * destruct (H8 H) as [_ H9]. exact H9.
    + destruct (click pg sel) as [e|] eqn:Ec; simpl.
      * specialize (IH (tried ++ [sel])
                      (add_trace [OpWaitForSelector sel; OpClick sel] w)).
        simpl in IH. destruct IH as [H1 [H2 [H3 [H4 [H5 [[ops [H6 H7]] H8]]]]]].
        repeat split; try assumption.
        -- exists (OpWaitForSelector sel :: OpClick sel :: ops). split.
           ++ rewrite H6. simpl. rewrite <- app_assoc. reflexivity.
           ++ constructor; [exists sel; split; [left; reflexivity|left; reflexivity]|].
              constructor; [exists sel; split; [left; reflexivity|right; reflexivity]|].
              apply Hmono. exact H7.
        -- destruct (H8 H) as [H9 _]. rewrite H9, <- app_assoc. reflexivity.
        -- destruct (H8 H) as [_ H9]. exact H9.
      * repeat split; try reflexivity; try discriminate.
        exists [OpWaitForSelector sel; OpClick sel]. split; [reflexivity|].
        constructor; [exists sel; split; [left; reflexivity|left; reflexivity]|].
        constructor; [exists sel; split; [left; reflexivity|right; reflexivity]|].
        constructor.
Qed.

Lemma fill_from_memory_spec text sels : forall tried w,
  let r := fill_from_memory pg text sels tried w in
  fst (fst r) = existsb (fun sel => negb (fill_raises pg sel text)) sels /\
  sel_mem (snd r) = sel_mem w /\ clock (snd r) = clock w /\
  security (snd r) = security w /\ page_url (snd r) = page_url w /\
  (exists ops, trace (snd r) = trace w ++ ops /\ Forall (memory_fill_op sels text) ops) /\
  (fst (fst r) = false -> snd (fst r) = tried ++ sels /\ log (snd r) = log w).
Proof.
  induction sels as [|sel sels IH]; intros tried w; simpl.
  - repeat split; try reflexivity.
    + exists []. split; [rewrite app_nil_r; reflexivity|constructor].
    + rewrite app_nil_r. reflexivity.
  - unfold try_fill, fill_raises.
    assert (Hmono : forall ops, Forall (memory_fill_op sels text) ops ->
                      Forall (memory_fill_op (sel :: sels) text) ops).
    { intros ops H. eapply List.Forall_impl; [|exact H].
      intros op [s [Hs Hop]]. exists s. split; [right; exact Hs|exact Hop]. }
    destruct (wait_for_selector pg sel) as [e|] eqn:Ew; simpl.
    + specialize (IH (tried ++ [sel]) (add_trace [OpWaitForSelector sel] w)).
      simpl in IH. destruct IH as [H1 [H2 [H3 [H4 [H5 [[ops [H6 H7]] H8]]]]]].
      repeat split; try assumption.
      * exists (OpWaitForSelector sel :: ops). split.
        -- rewrite H6. simpl. rewrite <- app_assoc. reflexivity.
        -- constructor; [exists sel; split; [left; reflexivity|left; reflexivity]|].
           apply Hmono. exact H7.
      * destruct (H8 H) as [H9 _]. rewrite H9, <- app_assoc. reflexivity.
      * destruct (H8 H) as [_ H9]. exact H9.
    + destruct (fill pg sel text) as [e|] eqn:Ec; simpl.
      * specialize (IH (tried ++ [sel])
                      (add_trace [OpWaitForSelector sel; OpFill sel text] w)).
        simpl in IH. destruct IH as [H1 [H2 [H3 [H4 [H5 [[ops [H6 H7]] H8]]]]]].
        repeat split; try assumption.
        -- exists (OpWaitForSelector sel :: OpFill sel text :: ops). split.
           ++ rewrite H6. simpl. rewrite <- app_assoc. reflexivity.
           ++ constructor; [exists sel; split; [left; reflexivity|left; reflexivity]|].
              constructor; [exists sel; split; [left; reflexivity|right; reflexivity]|].
              apply Hmono. exact H7.
        -- destruct (H8 H) as [H9 _]. rewrite H9, <- app_assoc. reflexivity.
        -- destruct (H8 H) as [_ H9]. exact H9.
      * repeat split; try reflexivity; try discriminate.
        exists [OpWaitForSelector sel; OpFill sel text]. split; [reflexivity|].
        constructor; [exists sel; split; [left; reflexivity|left; reflexivity]|].
        constructor; [exists sel; split; [left; reflexivity|right; reflexivity]|].
        constructor.
Qed.

Ltac oracle_cases :=
  repeat match goal with
         | |- context [match ?x with _ => _ end] =>
             match type of x with
             | option _ => destruct x eqn:?
             | bool => destruct x eqn:?
             end; simpl in *; try discriminate
         | H : context [match ?x with _ => _ end] |- _ =>
             match type of x with
             | option _ => destruct x eqn:?
             | bool => destruct x eqn:?
             end; simpl in *; try discriminate
         end.

(** The three outcomes of [click_best]. *)
Lemma click_best_cases target w :
  let sels := remembered "click" target w in
  let host := host_of (page_url w) in
  let hit := existsb (fun sel => negb (click_raises pg sel)) sels in
  (hit = true ->
     click_best py_hash pg target w = (Ok tt, snd (click_from_memory pg sels [] w))) /\
  (hit = false -> forall dsc, click_descriptor py_hash pg target = Some dsc ->
     fst (click_best py_hash pg target w) = Ok tt /\
     sel_mem (snd (click_best py_hash pg target w)) =
       if nonempty host
       then SelectorMemory.save_success (clock w) host "click" target dsc (sel_mem w)
       else sel_mem w) /\
  (hit = false -> click_descriptor py_hash pg target = None ->
     exists e, text_click pg target = Some e /\
       fst (click_best py_hash pg target w) = Raise e /\
       sel_mem (snd (click_best py_hash pg target w)) = sel_mem w /\
       log (snd (click_best py_hash pg target w)) =
         log w ++ [click_failure_record target e sels]).
Proof.
  intros sels host hit.
  assert (Hstage :
    (if nonempty host
     then click_from_memory pg
            (PyList.slice_to 5 (SelectorMemory.get host "click" target (sel_mem w))) [] w
     else (false, [], w)) = click_from_memory pg sels [] w).
  { subst sels host. unfold remembered. destruct (nonempty _); reflexivity. }
  pose proof (click_from_memory_spec sels [] w) as Hspec. cbv zeta in Hspec.
  fold hit in Hspec.
  unfold click_best. fold host. rewrite Hstage.
  destruct (click_from_memory pg sels [] w) as [[h tried] w1] eqn:El.
  simpl in Hspec. destruct Hspec as [Hh [Hm [Hc [_ [_ [_ Htried]]]]]].
  split; [|split].
  - intros Hhit. rewrite Hh, Hhit. reflexivity.
  - intros Hhit dsc Hd. rewrite Hh, Hhit. rewrite Hhit in Hh.
    unfold click_descriptor, click_raises in Hd. unfold try_click, _semantic_candidate.
    oracle_cases;
      match goal with
      | H : Some _ = Some dsc |- _ => injection H as <-
      end;
      (split; [reflexivity|]); unfold record_success;
      repeat match goal with H : nonempty host = _ |- _ => rewrite H end;
      simpl; congruence.
  - intros Hhit Hd. rewrite Hh, Hhit. rewrite Hhit in Hh.
    destruct (Htried Hh) as [Ht Hl]. simpl in Ht. subst tried.
    unfold click_descriptor, click_raises in Hd. unfold try_click, _semantic_candidate.
    oracle_cases;
      eexists; (split; [reflexivity|]); (split; [reflexivity|]);
      (split; [simpl; assumption|]); simpl; rewrite Hl; reflexivity.
Qed.

Lemma sanitized_fields text w :
  sel_mem (sanitized text w) = sel_mem w /\ clock (sanitized text w) = clock w /\
  page_url (sanitized text w) = page_url w /\ trace (sanitized text w) = trace w.
Proof. unfold sanitized. destruct (Security.is_unsafe_input text); repeat split. Qed.

(** The outcomes of [type_best].  When no stage resolves the field the
    call raises if the semantic stage had a candidate, and returns if it
    had none. *)
Lemma type_best_cases field text w0 :
  let stext := Security.sanitize_input text in
  let w := sanitized text w0 in
  let sels := remembered "type" field w0 in
  let host := host_of (page_url w0) in
  let hit := existsb (fun sel => negb (fill_raises pg sel stext)) sels in
  (hit = true ->
     type_best py_hash pg field text w0 =
       (Ok tt, snd (fill_from_memory pg stext sels [] w))) /\
  (hit = false -> forall dsc, type_descriptor py_hash pg field stext = Some dsc ->
     fst (type_best py_hash pg field text w0) = Ok tt /\
     sel_mem (snd (type_best py_hash pg field text w0)) =
       if nonempty host
       then SelectorMemory.save_success (clock w0) host "type" field dsc (sel_mem w0)
       else sel_mem w0) /\
  (hit = false -> type_descriptor py_hash pg field stext = None ->
     forall c, semantic_choice py_hash pg ModeType field = Some c -> nonempty c = true ->
     exists e, label_fill pg c stext = Some e /\
       fst (type_best py_hash pg field text w0) = Raise e /\
       sel_mem (snd (type_best py_hash pg field text w0)) = sel_mem w0 /\
       log (snd (type_best py_hash pg field text w0)) =
         log w ++ [type_failure_record field e sels]) /\
  (hit = false -> type_descriptor py_hash pg field stext = None ->
     semantic_choice py_hash pg ModeType field = None ->
     fst (type_best py_hash pg field text w0) = Ok tt /\
     sel_mem (snd (type_best py_hash pg field text w0)) = sel_mem w0 /\
     log (snd (type_best py_hash pg field text w0)) = log w).
Proof.
  intros stext w sels host hit.
  destruct (sanitized_fields text w0) as [Sm [Sc [Su _]]]. fold w in Sm, Sc, Su.
  assert (Hstage :
    (if nonempty (host_of (page_url w))
     then fill_from_memory pg stext
            (PyList.slice_to 5
               (SelectorMemory.get (host_of (page_url w)) "type" field (sel_mem w))) [] w
     else (false, [], w)) = fill_from_memory pg stext sels [] w).
  { subst sels. unfold remembered. rewrite Su, Sm. destruct (nonempty _); reflexivity. }
  pose proof (fill_from_memory_spec stext sels [] w) as Hspec. cbv zeta in Hspec.
  fold hit in Hspec.
  unfold type_best. fold stext. fold w. rewrite Hstage. rewrite Su. fold host.
  destruct (fill_from_memory pg stext sels [] w) as [[h tried] w1] eqn:El.
  simpl in Hspec. destruct Hspec as [Hh [Hm [Hc [_ [_ [_ Htried]]]]]].
  rewrite Sm in Hm. rewrite Sc in Hc.
  split; [|split; [|split]].
  - intros Hhit. rewrite Hh, Hhit. reflexivity.
  - intros Hhit dsc Hd. rewrite Hh, Hhit. rewrite Hhit in Hh.
    unfold type_descriptor, fill_raises in Hd. unfold try_fill, _semantic_candidate.
    oracle_cases;
      match goal with
      | H : Some _ = Some dsc |- _ => injection H as <-
      end;
      (split; [reflexivity|]); unfold record_success;
      repeat match goal with H : nonempty host = _ |- _ => rewrite H end;
      simpl; congruence.
  - intros Hhit Hd c Hsem Hc'. rewrite Hh, Hhit. rewrite Hhit in Hh.
    destruct (Htried Hh) as [Ht Hl]. simpl in Ht. subst tried.
    unfold type_descriptor, fill_raises in Hd. unfold try_fill, _semantic_candidate.
    rewrite Hsem in *. rewrite Hc' in *.
    oracle_cases;
      eexists; (split; [reflexivity|]); (split; [reflexivity|]);
      (split; [simpl; assumption|]); simpl; rewrite Hl; reflexivity.
  - intros Hhit Hd Hsem. rewrite Hh, Hhit. rewrite Hhit in Hh.
    destruct (Htried Hh) as [Ht Hl]. simpl in Ht. subst tried.
    unfold type_descriptor, fill_raises in Hd. unfold try_fill, _semantic_candidate.
    rewrite Hsem in *.
    oracle_cases; (split; [reflexivity|]); (split; simpl; assumption).
Qed.

(** *** Navigation *)

Lemma goto_body_blocked url w :
  Security.is_domain_allowed (security w) url = false ->
  goto_body pg url w =
    (Raise (PermissionError ("Navigation blocked by security policy: " +:+ url)),
     add_log ERROR ("Blocked navigation to non-allowed domain: "
                    +:+ Url.netloc (Url.urlparse url)) w).
Proof. intros H. unfold goto_body. rewrite H. reflexivity. Qed.

Lemma goto_body_rate_limited url w :
  Security.is_domain_allowed (security w) url = true ->
  fst (Security.enforce_rate_limit (clock w) url (security w)) = false ->
  goto_body pg url w =
    (Raise (RuntimeError "Rate limit exceeded, retry later"),
     add_log WARNING ("Rate limit exceeded for origin: " +:+ Security.origin_of url)
       (set_security (snd (Security.enforce_rate_limit (clock w) url (security w))) w)).
Proof.
  intros Ha Hr. unfold goto_body. rewrite Ha. simpl.
  destruct (Security.enforce_rate_limit (clock w) url (security w)) as [ok sm].
  simpl in Hr. subst ok. reflexivity.
Qed.

(** Navigation is reached only by an attempt that passed both checks. *)
Lemma goto_body_navigates url w :
  trace (snd (goto_body pg url w)) <> trace w ->
  Security.is_domain_allowed (security w) url = true /\
  fst (Security.enforce_rate_limit (clock w) url (security w)) = true.
Proof.
  unfold goto_body. destruct (Security.is_domain_allowed (security w) url); simpl;
    [|intros H; exfalso; apply H; reflexivity].
  destruct (Security.enforce_rate_limit (clock w) url (security w)) as [ok sm].
  destruct ok; simpl; [intros _; split; reflexivity|].
  intros H. exfalso. apply H. reflexivity.
Qed.

End WithPage.


(** The pauses between the attempts: half a second, then one second. *)
Lemma backoff_pauses :
  (wait_exponential (1 # 2) (1 # 2) 4 1 == 1 # 2)%Q /\
  (wait_exponential (1 # 2) (1 # 2) 4 2 == 1)%Q.
Proof. split; reflexivity. Qed.

(** C2, as stated, fails.  A URL off the allowlist is checked three times,
    with the two pauses in between, before the call fails; and a call that
    finds the bucket of its origin spent is refused twice and, the bucket
    having refilled during the pauses, navigates at the third attempt. *)
Lemma goto_retries_policy_failure :
  (let r := goto responsive_page "https://blocked.test/" (example_world "" ∅) in
   fst r = Raise (PermissionError "Navigation blocked by security policy: https://blocked.test/") /\
   log (snd r) = [blocked_record "https://blocked.test/"; blocked_record "https://blocked.test/";
                  blocked_record "https://blocked.test/"] /\
   Qeq_bool (clock (snd r)) (100 + (1 # 2) + 1) = true) /\
  (let w := example_world "" (<["https://example.com" := spent_bucket]> ∅) in
   let r := goto responsive_page "https://example.com/" w in
   fst (Security.enforce_rate_limit (clock w) "https://example.com/" (security w)) = false /\
   fst r = Ok tt /\
   trace (snd r) = [OpGoto "https://example.com/"] /\
   log (snd r) = [(WARNING, "Rate limit exceeded for origin: https://example.com");
                  (WARNING, "Rate limit exceeded for origin: https://example.com");
                  (INFO, "Navigated to https://example.com/")]).
Proof. split; vm_compute; repeat split; reflexivity. Qed.

(** C2, amended.  For a URL that fails the allowlist check, [goto] makes
    three attempts: each runs the check again and logs the refusal, none
    navigates or touches the rate buckets, the caller sleeps 0.5 s and then
    1 s in between, and the third failure is raised.  A refusal by the rate
    limit is not final either: the call goes on, after the first pause,
    with the attempts that are left.  Policy failures are retried like
    navigation faults. *)
Theorem goto_retries_every_failure (pg : Page) (url : string) (w : World) :
  (Security.is_domain_allowed (security w) url = false ->
     let r := goto pg url w in
     fst r = Raise (PermissionError ("Navigation blocked by security policy: " +:+ url)) /\
     log (snd r) = log w ++ [blocked_record url; blocked_record url; blocked_record url] /\
     trace (snd r) = trace w /\ security (snd r) = security w /\
     (clock (snd r) == clock w + (1 # 2) + 1)%Q) /\
  (Security.is_domain_allowed (security w) url = true ->
   fst (Security.enforce_rate_limit (clock w) url (security w)) = false ->
     fst (goto_body pg url w) = Raise (RuntimeError "Rate limit exceeded, retry later") /\
     goto pg url w =
       retry_from (goto_body pg url) 1 2
         (sleep (wait_exponential (1 # 2) (1 # 2) 4 1) (snd (goto_body pg url w)))).
Proof.
  split.
  - intros Hblocked. unfold goto, retry. cbn [retry_from].
    rewrite (goto_body_blocked pg url w Hblocked).
    rewrite (goto_body_blocked pg url) by exact Hblocked.
    rewrite (goto_body_blocked pg url) by exact Hblocked.
    cbv zeta. simpl fst. simpl snd. unfold blocked_record.
    repeat split; simpl; rewrite <- ?app_assoc; try reflexivity.
    destruct backoff_pauses as [P1 P2]. rewrite P1, P2. reflexivity.
  - intros Hallowed Hrate.
    rewrite (goto_body_rate_limited pg url w Hallowed Hrate).
    split; [reflexivity|]. unfold goto, retry. cbn [retry_from].
    rewrite (goto_body_rate_limited pg url w Hallowed Hrate). reflexivity.
Qed.

Lemma goto_retries_every_failure_witness :
  fst (goto dead_page "https://blocked.test/" (example_world "" ∅)) =
    Raise (PermissionError "Navigation blocked by security policy: https://blocked.test/") /\
  trace (snd (goto dead_page "https://blocked.test/" (example_world "" ∅))) = [].
Proof.
  destruct (goto_retries_every_failure dead_page "https://blocked.test/" (example_world "" ∅))
    as [H _].
  destruct (H eq_refl) as [H1 [_ [H3 _]]]. split; [exact H1|exact H3].
Defined.

(** C4, as stated, fails.  On a page where every interaction times out
    and that has no element to rank, [type_best] returns normally although
    no stage resolved the field; and [click_best] raises the timeout of its
    last stage, which holds no descriptor, while the selector it tried from
    the memory only reaches the log. *)
Lemma exhausted_resolution_counterexample :
  let w := example_world "https://example.com/login" ∅ in
  (type_descriptor VectorStore.demo_hash dead_page "Email" "a@b.c" = None /\
   fst (type_best VectorStore.demo_hash dead_page "Email" "a@b.c" w) = Ok tt) /\
  (remembered "click" "Submit" w = ["#old"] /\
   click_descriptor VectorStore.demo_hash dead_page "Submit" = None /\
   fst (click_best VectorStore.demo_hash dead_page "Submit" w) = Raise timeout_error /\
   log (snd (click_best VectorStore.demo_hash dead_page "Submit" w)) =
     [(ERROR, "All click strategies failed for Submit: Timeout 10000ms exceeded.; tried=['#old']")]).
Proof. vm_compute. repeat split; reflexivity. Qed.

(** C4, amended.  When no remembered selector and no later stage resolves
    the target of a click, [click_best] raises again the exception of its
    last stage, the lookup by visible text; the selectors tried from the
    memory are written to the error log, not to the exception.  When no
    stage resolves the field of a fill and the semantic stage had a
    candidate, [type_best] raises again the exception of the lookup by the
    candidate's label and logs in the same way.  Neither call writes the
    selector memory. *)
Theorem exhausted_resolution_reraises (py_hash : string -> Z) (pg : Page)
  (target field text : string) (w : World) :
  (existsb (fun sel => negb (click_raises pg sel)) (remembered "click" target w) = false ->
   click_descriptor py_hash pg target = None ->
     exists e, text_click pg target = Some e /\
       fst (click_best py_hash pg target w) = Raise e /\
       sel_mem (snd (click_best py_hash pg target w)) = sel_mem w /\
       log (snd (click_best py_hash pg target w)) =
         log w ++ [click_failure_record target e (remembered "click" target w)]) /\
  (existsb (fun sel => negb (fill_raises pg sel (Security.sanitize_input text)))
     (remembered "type" field w) = false ->
   type_descriptor py_hash pg field (Security.sanitize_input text) = None ->
   forall c, semantic_choice py_hash pg ModeType field = Some c -> nonempty c = true ->
     exists e, label_fill pg c (Security.sanitize_input text) = Some e /\
       fst (type_best py_hash pg field text w) = Raise e /\
       sel_mem (snd (type_best py_hash pg field text w)) = sel_mem w /\
       log (snd (type_best py_hash pg field text w)) =
         log (sanitized text w) ++ [type_failure_record field e (remembered "type" field w)]).
Proof.
  split.
  - apply (click_best_cases py_hash pg target w).
  - apply (type_best_cases py_hash pg field text w).
Qed.

Lemma exhausted_resolution_reraises_witness :
  exists e,
    fst (click_best VectorStore.demo_hash dead_page "Submit"
           (example_world "https://example.com/login" ∅)) = Raise e /\
    log (snd (click_best VectorStore.demo_hash dead_page "Submit"
                (example_world "https://example.com/login" ∅))) =
      [click_failure_record "Submit" e ["#old"]].
Proof.
  destruct (exhausted_resolution_reraises VectorStore.demo_hash dead_page
              "Submit" "Email" "a@b.c" (example_world "https://example.com/login" ∅))
    as [Hclick _].
  destruct (Hclick eq_refl eq_refl) as [e [_ [Hraise [_ Hlog]]]].
  exists e. split; [exact Hraise|exact Hlog].
Defined.

(** C7, as stated, fails.  On a page without a host ([about:blank]) a
    click that the target resolves as a CSS selector succeeds at stage 2 and
    nothing is recorded: the memory is what it was. *)
Lemma success_without_host_is_not_recorded :
  let w := example_world "about:blank" ∅ in
  host_of (page_url w) = EmptyString /\
  click_descriptor VectorStore.demo_hash responsive_page "#go" = Some "#go" /\
  fst (click_best VectorStore.demo_hash responsive_page "#go" w) = Ok tt /\
  sel_mem (snd (click_best VectorStore.demo_hash responsive_page "#go" w)) = sel_mem w.
Proof. vm_compute. repeat split; reflexivity. Qed.

(** C7, amended.  When one of the remembered selectors resolves the target
    of a click or a fill (stage 1), the call returns, the only calls made
    on the page are attempts through remembered selectors, and the selector
    memory is unchanged.  When none does and a later stage resolves the
    target, the call returns and, when the page has a host, the memory
    becomes what [save_success] makes of it for the descriptor of that
    stage; when the page has no host, nothing is recorded. *)
Theorem memory_hit_writes_nothing (py_hash : string -> Z) (pg : Page)
  (target field text : string) (w : World) :
  let host := host_of (page_url w) in
  let stext := Security.sanitize_input text in
  (existsb (fun sel => negb (click_raises pg sel)) (remembered "click" target w) = true ->
     fst (click_best py_hash pg target w) = Ok tt /\
     sel_mem (snd (click_best py_hash pg target w)) = sel_mem w /\
     exists ops, trace (snd (click_best py_hash pg target w)) = trace w ++ ops /\
                 Forall (memory_click_op (remembered "click" target w)) ops) /\
  (existsb (fun sel => negb (click_raises pg sel)) (remembered "click" target w) = false ->
   forall dsc, click_descriptor py_hash pg target = Some dsc ->
     fst (click_best py_hash pg target w) = Ok tt /\
     sel_mem (snd (click_best py_hash pg target w)) =
       if nonempty host
       then SelectorMemory.save_success (clock w) host "click" target dsc (sel_mem w)
       else sel_mem w) /\
  (existsb (fun sel => negb (fill_raises pg sel stext)) (remembered "type" field w) = true ->
     fst (type_best py_hash pg field text w) = Ok tt /\
     sel_mem (snd (type_best py_hash pg field text w)) = sel_mem w /\
     exists ops, trace (snd (type_best py_hash pg field text w)) = trace w ++ ops /\
                 Forall (memory_fill_op (remembered "type" field w) stext) ops) /\
  (existsb (fun sel => negb (fill_raises pg sel stext)) (remembered "type" field w) = false ->
   forall dsc, type_descriptor py_hash pg field stext = Some dsc ->
     fst (type_best py_hash pg field text w) = Ok tt /\
     sel_mem (snd (type_best py_hash pg field text w)) =
       if nonempty host
       then SelectorMemory.save_success (clock w) host "type" field dsc (sel_mem w)
       else sel_mem w).
Proof.
  intros host stext. subst host stext. split; [|split; [|split]].
  - intros Hhit.
    destruct (click_best_cases py_hash pg target w) as [H _]. rewrite (H Hhit).
    destruct (click_from_memory_spec pg (remembered "click" target w) [] w)
      as [_ [Hm [_ [_ [_ [Hops _]]]]]].
    split; [reflexivity|]. split; [exact Hm|exact Hops].
  - apply (click_best_cases py_hash pg target w).
  - intros Hhit.
    destruct (type_best_cases py_hash pg field text w) as [H _]. rewrite (H Hhit).
    destruct (fill_from_memory_spec pg (Security.sanitize_input text)
                (remembered "type" field w) [] (sanitized text w))
      as [_ [Hm [_ [_ [_ [Hops _]]]]]].
    destruct (sanitized_fields text w) as [Sm [_ [_ St]]].
    cbv zeta in Hm, Hops. destruct Hops as [ops [Ht Hf]].
    split; [reflexivity|]. split; [cbn [snd]; rewrite Hm; exact Sm|].
    exists ops. split; [cbn [snd]; rewrite Ht, St; reflexivity|exact Hf].
  - apply (type_best_cases py_hash pg field text w).
Qed.

Lemma memory_hit_writes_nothing_witness :
  let w := example_world "https://example.com/checkout" ∅ in
  fst (click_best VectorStore.demo_hash responsive_page "Submit" w) = Ok tt /\
  sel_mem (snd (click_best VectorStore.demo_hash responsive_page "Submit" w)) = sel_mem w /\
  sel_mem (snd (click_best VectorStore.demo_hash responsive_page "Pay" w)) =
    SelectorMemory.save_success 100 "example.com" "click" "Pay" "Pay" (sel_mem w).
Proof.
  intros w.
  destruct (memory_hit_writes_nothing VectorStore.demo_hash responsive_page
              "Submit" "Email" "a@b.c" w) as [Hhit _].
  destruct (memory_hit_writes_nothing VectorStore.demo_hash responsive_page
              "Pay" "Email" "a@b.c" w) as [_ [Hmiss _]].
  destruct (Hhit eq_refl) as [H1 [H2 _]].
  destruct (Hmiss eq_refl "Pay" eq_refl) as [_ H3].
  split; [exact H1|]. split; [exact H2|exact H3].
Defined.

End NavigatorFacts.

(** ** The run loops *)

Module OrchestratorFacts.
Import Orchestrator.

Section Run.
Variable World : Type.
Variable llm_plan : string -> string -> list string.
Variable execute_step : string -> string -> World -> result string * World.
Variable should_stop : World -> bool.
Variable snapshot_dom : World -> string.

Lemma runner_body_dispatched goal context idx step st :
  dispatched (runner_body World llm_plan execute_step snapshot_dom goal context idx step st)
  = dispatched st ++ [step].
Proof.
  unfold runner_body. destruct (execute_step _ _ _) as [[obs|e] w1]; simpl; [|reflexivity].
  destruct (validate obs); reflexivity.
Qed.

Lemma runner_loop_dispatched goal context steps : forall idx st,
  exists rest,
    steps = firstn (length steps - length rest) steps ++ rest /\
    dispatched (runner_loop World llm_plan execute_step should_stop snapshot_dom
                  goal context steps idx st)
    = dispatched st ++ firstn (length steps - length rest) steps.
Proof.
  induction steps as [|step steps IH]; intros idx st; simpl.
  - exists []. split; [reflexivity|]. rewrite app_nil_r. reflexivity.
  - destruct (should_stop (world st)).
    + exists (step :: steps). simpl. rewrite Nat.sub_diag. simpl.
      split; [reflexivity|]. rewrite app_nil_r. reflexivity.
    + destruct (IH (idx + 1)%Z
                  (runner_body World llm_plan execute_step snapshot_dom goal context
                     idx step st)) as [rest [Hsplit Hd]].
      exists rest. rewrite Hd, runner_body_dispatched, <- app_assoc.
      assert (Hle : (length rest <= length steps)%nat).
      { pose proof (f_equal (@length string) Hsplit) as Hl.
        rewrite length_app in Hl. lia. }
      replace (S (length steps) - length rest)%nat
        with (S (length steps - length rest)) by lia.
      simpl. split; [f_equal; exact Hsplit|reflexivity].
Qed.

(** Whatever the planner answers on the way, the steps a run of
    [MultiAgentRunner.run] hands to its agents are the first steps of the
    plan it started with, in order. *)
Lemma runner_executes_the_first_plan goal context w :
  exists rest,
    llm_plan goal context =
      dispatched (final (runner_run World llm_plan execute_step should_stop snapshot_dom
                           goal context w)) ++ rest.
Proof.
  unfold runner_run, finish. simpl.
  destruct (runner_loop_dispatched goal context (llm_plan goal context) 1%Z
              {| plan := llm_plan goal context; observations := []; step_log := [];
                 dispatched := []; world := w |}) as [rest [Hsplit Hd]].
  exists rest. rewrite Hd. simpl. exact Hsplit.
Qed.

Lemma agent_loop_dispatched goal context steps : forall idx st,
  dispatched (agent_loop World llm_plan execute_step snapshot_dom goal context steps idx st)
  = dispatched st ++ steps.
Proof.
  induction steps as [|step steps IH]; intros idx st; simpl.
  - rewrite app_nil_r. reflexivity.
  - rewrite IH. unfold agent_body.
    destruct (execute_step _ _ _) as [[obs|e] w1]; simpl; rewrite <- app_assoc; reflexivity.
Qed.

(** A run of [BaseAgent.run] hands exactly the steps of the plan it
    started with to [_execute_step]. *)
Lemma agent_executes_the_first_plan goal context w :
  dispatched (final (agent_run World llm_plan execute_step snapshot_dom goal context w))
  = llm_plan goal context.
Proof. unfold agent_run, finish. simpl. apply agent_loop_dispatched. Qed.

End Run.

(** C3, at the failing input.  The plan is [open https://shop.test],
    [click Buy]; the first step raises (or, in the second run, returns an
    observation that fails validation) and the planner answers the re-plan
    with [wait 2s], [extract title].  The run returns the new plan as its
    plan, and the step it executes next is [click Buy], the rest of the
    old plan; no step of the new plan is executed. *)
Theorem replan_keeps_iterating_old_plan :
  let raised := runner_run unit example_plan example_execute
                  (fun _ => false) (fun _ => "<html></html>") "buy a ticket" "" tt in
  let rejected := runner_run unit example_plan example_execute_timeout
                    (fun _ => false) (fun _ => "<html></html>") "buy a ticket" "" tt in
  let agent := agent_run unit example_plan example_execute
                 (fun _ => "<html></html>") "buy a ticket" "" tt in
  (result_plan raised = ["wait 2s"; "extract title"] /\
   dispatched (final raised) = ["open https://shop.test"; "click Buy"] /\
   result_observations raised = ["[base] done:click Buy"]) /\
  (validate "extract:title:Gateway Timeout" = false /\
   result_plan rejected = ["wait 2s"; "extract title"] /\
   dispatched (final rejected) = ["open https://shop.test"; "click Buy"]) /\
  (result_plan agent = ["wait 2s"; "extract title"] /\
   dispatched (final agent) = ["open https://shop.test"; "click Buy"]).
Proof. vm_compute. repeat split; reflexivity. Qed.

End OrchestratorFacts.

(** * Further properties of the code *)

(** ** security.py: sanitizing, cookies, buckets *)

Module SecurityMoreFacts.
Import Security SecurityMore.

Lemma remove_chars_clean p s :
  PyStr.all_chars (fun c => negb (p c)) (PyStr.remove_chars p s) = true.
Proof.
  induction s as [|c s IH]; simpl; [reflexivity|].
  destruct (p c) eqn:E; simpl; [exact IH|]. rewrite E, IH. reflexivity.
Qed.

Lemma remove_chars_id p s :
  PyStr.all_chars (fun c => negb (p c)) s = true -> PyStr.remove_chars p s = s.
Proof.
  induction s as [|c s IH]; simpl; [reflexivity|].
  intros H. apply andb_true_iff in H. destruct H as [Hc Hs].
  apply negb_true_iff in Hc. rewrite Hc, IH by exact Hs. reflexivity.
Qed.

Lemma lower_char_angle c : is_angle (PyStr.lower_char c) = is_angle c.
Proof. destruct c as [[] [] [] [] [] [] [] []]; reflexivity. Qed.

Lemma lower_no_angle s : no_angle (PyStr.lower s) = no_angle s.
Proof.
  unfold no_angle. induction s as [|c s IH]; simpl; [reflexivity|].
  rewrite lower_char_angle, IH. reflexivity.
Qed.

(** A text that starts with [<] occurs in no text free of angle brackets. *)
Lemma contains_needs_angle sub s :
  no_angle s = true -> PyStr.contains (String "<" sub) s = false.
Proof.
  unfold no_angle. induction s as [|c s IH]; intros H; [reflexivity|].
  simpl in H. apply andb_true_iff in H. destruct H as [Hc Hs].
  cbn [PyStr.contains]. rewrite (IH Hs), orb_false_r.
  cbn [String.prefix]. destruct (ascii_dec "<" c) as [<-|Hne]; [discriminate Hc|reflexivity].
Qed.

Lemma sanitize_unsafe_no_angle s :
  is_unsafe_input s = true -> no_angle (sanitize_input s) = true.
Proof. intros H. unfold sanitize_input. rewrite H. apply remove_chars_clean. Qed.

(** X1.  Whatever the input, the text [sanitize_input] returns holds no
    [<script] in any letter case; and the text returned for an input in which
    a marker was found holds no angle bracket at all. *)
Theorem sanitize_input_strips_script_tags (s : string) :
  PyStr.contains "<script" (PyStr.lower (sanitize_input s)) = false /\
  (is_unsafe_input s = true -> no_angle (sanitize_input s) = true).
Proof.
  split; [|apply sanitize_unsafe_no_angle].
  destruct (is_unsafe_input s) eqn:E.
  - apply contains_needs_angle. rewrite lower_no_angle.
    apply sanitize_unsafe_no_angle. exact E.
  - unfold sanitize_input. rewrite E. unfold is_unsafe_input, unsafe_markers in E.
    simpl in E. apply orb_false_iff in E. destruct E as [E _]. exact E.
Qed.

Lemma sanitize_input_strips_script_tags_witness :
  sanitize_input "<ScRiPt>alert(1)</ScRiPt>" = "ScRiPtalert(1)/ScRiPt" /\
  no_angle (sanitize_input "<ScRiPt>alert(1)</ScRiPt>") = true.
Proof.
  split; [reflexivity|].
  apply (sanitize_input_strips_script_tags "<ScRiPt>alert(1)</ScRiPt>"). reflexivity.
Defined.

(** X2.  A text without angle brackets is returned as it is, also when it
    holds one of the markers: a [javascript:] address or an inline handler
    passes through unchanged. *)
Theorem sanitize_input_keeps_text_without_angles (s : string) :
  no_angle s = true -> sanitize_input s = s.
Proof.
  intros H. unfold sanitize_input. destruct (is_unsafe_input s); [|reflexivity].
  apply remove_chars_id. exact H.
Qed.

Lemma sanitize_input_keeps_text_without_angles_witness :
  is_unsafe_input "javascript:alert(document.cookie)" = true /\
  sanitize_input "javascript:alert(document.cookie)" = "javascript:alert(document.cookie)".
Proof.
  split; [reflexivity|].
  apply sanitize_input_keeps_text_without_angles. reflexivity.
Defined.

(** X3.  Sanitizing twice is sanitizing once. *)
Theorem sanitize_input_idempotent (s : string) :
  sanitize_input (sanitize_input s) = sanitize_input s.
Proof.
  destruct (is_unsafe_input s) eqn:E.
  - unfold sanitize_input at 1. destruct (is_unsafe_input (sanitize_input s)); [|reflexivity].
    apply remove_chars_id. apply sanitize_unsafe_no_angle. exact E.
  - unfold sanitize_input at 2. rewrite E. unfold sanitize_input. rewrite E. reflexivity.
Qed.

(** X4.  [filter_cookies] returns, in their order, exactly the cookies that
    have a [name] and whose name is on the whitelist; with an empty whitelist
    it returns none. *)
Theorem filter_cookies_keeps_whitelisted (sm : SecurityManager)
  (cookies : list (gmap string string)) (c : gmap string string) :
  (In c (filter_cookies sm cookies) <->
   In c cookies /\ exists n, c !! "name" = Some n /\ In n (cookie_whitelist sm)) /\
  (exists keep, filter_cookies sm cookies = List.filter keep cookies) /\
  (cookie_whitelist sm = [] -> filter_cookies sm cookies = []).
Proof.
  unfold filter_cookies. split; [|split].
  - destruct (cookie_whitelist sm) as [|w wl] eqn:Ew.
    + split; [intros []|intros [_ [n [_ []]]]].
    + rewrite filter_In. split.
      * intros [Hin Hk]. split; [exact Hin|].
        destruct (c !! "name") as [n|]; [|discriminate]. exists n. split; [reflexivity|].
        apply existsb_exists in Hk. destruct Hk as [x [Hx Heq]].
        apply String.eqb_eq in Heq. subst x. exact Hx.
      * intros [Hin [n [Hn Hw]]]. split; [exact Hin|]. rewrite Hn.
        apply existsb_exists. exists n. split; [exact Hw|apply String.eqb_refl].
  - destruct (cookie_whitelist sm) as [|w wl].
    + exists (fun _ => false). induction cookies as [|x xs IH]; [reflexivity|exact IH].
    + eexists. reflexivity.
  - intros ->. reflexivity.
Qed.

(** *** The token bucket, continued *)

Lemma refill_nonneg now b :
  (0 <= capacity b)%Z -> (0 <= tokens b)%Q -> (0 <= tokens (refill now b))%Q.
Proof.
  intros Hc Ht. unfold refill. destruct (Qltb 0 _) eqn:E; simpl; [|exact Ht].
  apply SecurityFacts.Qltb_true in E. apply Q.min_glb.
  - change 0%Q with (inject_Z 0). rewrite <- Zle_Qle. exact Hc.
  - rewrite <- (Qplus_0_r 0). apply Qplus_le_compat; [exact Ht|apply Qlt_le_weak; exact E].
Qed.

Lemma consume_nonneg now n b :
  (0 <= capacity b)%Z -> (0 <= tokens b)%Q -> (0 <= tokens (snd (consume now n b)))%Q.
Proof.
  intros Hc Ht. pose proof (refill_nonneg now b Hc Ht) as Hr.
  unfold consume. destruct (Qle_bool _ _) eqn:E; simpl; [|exact Hr].
  apply Qle_bool_iff in E. unfold Qminus. rewrite <- (Qplus_opp_r (inject_Z n)).
  apply Qplus_le_l. exact E.
Qed.

(** X5.  A bucket whose capacity is not negative never holds a negative
    number of tokens, whatever is asked of it and whenever. *)
Theorem tokens_never_negative (cap : Z) (rate t0 : Q) (calls : list (Q * Z)) :
  (0 <= cap)%Z -> (0 <= tokens (consume_all calls (TokenBucket_init cap rate t0)))%Q.
Proof.
  intros Hcap.
  assert (G : forall b, (0 <= capacity b)%Z -> (0 <= tokens b)%Q ->
                        (0 <= tokens (consume_all calls b))%Q).
  { induction calls as [|[now n] calls IH]; intros b Hc Ht; simpl; [exact Ht|].
    apply IH; [rewrite SecurityFacts.consume_capacity; exact Hc|].
    apply consume_nonneg; assumption. }
  apply G; simpl; [exact Hcap|].
  change 0%Q with (inject_Z 0). rewrite <- Zle_Qle. exact Hcap.
Qed.

Lemma tokens_never_negative_witness :
  Qle_bool 0 (tokens (consume_all [(0%Q, 2%Z); (1%Q, 5%Z); (2%Q, (-3)%Z); (2%Q, 4%Z)]
                        (TokenBucket_init 2 1 0))) = true.
Proof.
  apply Qle_bool_iff. apply tokens_never_negative. discriminate.
Defined.

(** *** Rate limiting by origin *)

(** At the clock reading of its last refill a bucket is not refilled. *)
Lemma refill_same_instant b : refill (last_refill b) b = b.
Proof.
  unfold refill.
  assert (E : Qltb 0 ((last_refill b - last_refill b) * refill_rate b) = false).
  { unfold Qltb. apply negb_false_iff. apply Qle_bool_iff.
    assert (H : ((last_refill b - last_refill b) * refill_rate b == 0)%Q) by ring.
    rewrite H. apply Qle_refl. }
  rewrite E. reflexivity.
Qed.

Lemma enforce_known_origin now url sm b :
  buckets sm !! origin_of url = Some b -> last_refill b = now ->
  enforce_rate_limit now url sm =
    (fst (consume now 1 b),
     with_buckets sm (<[origin_of url := snd (consume now 1 b)]> (buckets sm))).
Proof.
  intros Hb Hl. unfold enforce_rate_limit, _bucket_for. rewrite Hb.
  destruct (consume now 1 b) as [ok b']. reflexivity.
Qed.

Lemma enforce_many_known k : forall now url sm b,
  buckets sm !! origin_of url = Some b -> last_refill b = now ->
  (tokens b == inject_Z (Z.of_nat k))%Q ->
  fst (enforce_many (S k) now url sm) = repeat true k ++ [false].
Proof.
  induction k as [|k IH]; intros now url sm b Hb Hl Ht.
  - cbn [enforce_many]. rewrite (enforce_known_origin now url sm b Hb Hl).
    unfold consume. subst now. rewrite refill_same_instant.
    assert (E : Qle_bool (inject_Z 1) (tokens b) = false).
    { apply not_true_iff_false. intros H. apply Qle_bool_iff in H.
      rewrite Ht in H. revert H. apply Qlt_not_le. reflexivity. }
    rewrite E. reflexivity.
  - change (enforce_many (S (S k)) now url sm)
      with (let '(ok, sm1) := enforce_rate_limit now url sm in
            let '(oks, sm2) := enforce_many (S k) now url sm1 in (ok :: oks, sm2)).
    rewrite (enforce_known_origin now url sm b Hb Hl).
    assert (E : Qle_bool (inject_Z 1) (tokens b) = true).
    { apply Qle_bool_iff. rewrite Ht, <- Zle_Qle. lia. }
    assert (Hc : consume now 1 b =
                 (true, {| capacity := capacity b; tokens := (tokens b - inject_Z 1)%Q;
                           refill_rate := refill_rate b; last_refill := last_refill b |})).
    { unfold consume. subst now. rewrite refill_same_instant, E. reflexivity. }
    rewrite Hc. cbn [fst snd].
    set (b' := {| capacity := capacity b; tokens := (tokens b - inject_Z 1)%Q;
                  refill_rate := refill_rate b; last_refill := last_refill b |}).
    set (sm1 := with_buckets sm (<[origin_of url := b']> (buckets sm))).
    specialize (IH now url sm1 b').
    destruct (enforce_many (S k) now url sm1) as [oks sm2]. cbn [fst] in IH |- *.
    rewrite IH; [reflexivity| | |].
    + subst sm1. simpl. apply lookup_insert_eq.
    + exact Hl.
    + subst b'. simpl. rewrite Ht, Nat2Z.inj_succ. unfold Z.succ.
      rewrite inject_Z_plus. ring.
Qed.




End SecurityMoreFacts.

(** ** executor/selector_memory.py: round trip, frame and invariant *)

Module SelectorMemoryMoreFacts.
Import SelectorMemory SelectorMemoryMore.

Lemma where3_bump h a l cnt now r : where3 h a l (bump cnt now r) = where3 h a l r.
Proof. reflexivity. Qed.

Lemma where4_tuple h a l s r : where4 h a l s r = true <-> tuple r = (h, a, l, s).
Proof.
  unfold where4, where3, tuple. rewrite !andb_true_iff, !String.eqb_eq. split.
  - intros [[[-> ->] ->] ->]. reflexivity.
  - intros [= -> -> -> ->]. repeat split.
Qed.

Lemma in_get h a l tbl r :
  In r tbl -> where3 h a l r = true -> In (selector r) (get h a l tbl).
Proof.
  intros Hin Hw. unfold get. apply in_map.
  destruct (SelectorMemoryFacts.get_rows_sorted h a l tbl) as [Hperm _].
  eapply Permutation_in; [symmetry; exact Hperm|]. apply filter_In. split; assumption.
Qed.

(** X9.  What [save_success] records, [get] finds: after a selector was
    saved for a host, action and label, the lookup for them returns it. *)
Theorem saved_selector_is_found (now : Q) (h a l s : string) (tbl : Table) :
  In s (get h a l (save_success now h a l s tbl)).
Proof.
  unfold save_success. destruct (List.find (where4 h a l s) tbl) as [row|] eqn:E.
  - apply find_some in E. destruct E as [Hin Hw].
    pose proof Hw as Ht. apply where4_tuple in Ht. injection Ht as Hh Ha Hl Hs.
    replace s with (selector (bump (success_count row) now row)) by exact Hs.
    apply in_get.
    + unfold update_by_id. apply in_map_iff. exists row. rewrite Z.eqb_refl.
      split; [reflexivity|exact Hin].
    + rewrite where3_bump. unfold where4 in Hw. apply andb_true_iff in Hw. apply Hw.
  - set (r := {| id := next_rowid tbl; host := h; action := a; label := l;
                 selector := s; success_count := 1; updated := now |}).
    change s with (selector r). apply in_get.
    + apply in_or_app. right. left. reflexivity.
    + unfold where3, r. simpl. rewrite !String.eqb_refl. reflexivity.
Qed.

Lemma unique_id_row tbl r r' :
  List.NoDup (map id tbl) -> In r tbl -> In r' tbl -> id r = id r' -> r = r'.
Proof.
  induction tbl as [|x tbl IH]; intros Hnd Hr Hr' Hid; [destruct Hr|].
  simpl in Hnd. inversion Hnd as [|? ? Hx Hnd']; subst.
  destruct Hr as [->|Hr], Hr' as [->|Hr'].
  - reflexivity.
  - exfalso. apply Hx. rewrite Hid. apply in_map. exact Hr'.
  - exfalso. apply Hx. rewrite <- Hid. apply in_map. exact Hr.
  - apply IH; assumption.
Qed.

Lemma filter_update_other h' a' l' row cnt now tbl rows :
  List.NoDup (map id tbl) -> In row tbl -> where3 h' a' l' row = false ->
  incl rows tbl ->
  List.filter (where3 h' a' l') (update_by_id (id row) cnt now rows) =
  List.filter (where3 h' a' l') rows.
Proof.
  intros Hnd Hrow Hw. unfold update_by_id.
  induction rows as [|r rows IH]; intros Hincl; simpl; [reflexivity|].
  assert (Hr : In r tbl) by (apply Hincl; left; reflexivity).
  rewrite IH by (intros x Hx; apply Hincl; right; exact Hx).
  destruct (id r =? id row)%Z eqn:E; [|reflexivity].
  apply Z.eqb_eq in E. pose proof (unique_id_row tbl r row Hnd Hr Hrow E) as ->.
  rewrite where3_bump, Hw. reflexivity.
Qed.

(** X10.  In a table with unique rowids, saving a selector for one host,
    action and label changes no lookup for another host, action or label. *)
Theorem save_success_leaves_other_lookups (now : Q) (h a l s h' a' l' : string)
  (tbl : Table) :
  List.NoDup (map id tbl) -> (h', a', l') <> (h, a, l) ->
  get h' a' l' (save_success now h a l s tbl) = get h' a' l' tbl.
Proof.
  intros Hnd Hne.
  assert (Hother : forall r, where3 h a l r = true -> where3 h' a' l' r = false).
  { intros r Hr. apply not_true_iff_false. intros Hr'. apply Hne.
    unfold where3 in Hr, Hr'. rewrite !andb_true_iff, !String.eqb_eq in Hr, Hr'.
    destruct Hr as [[<- <-] <-], Hr' as [[<- <-] <-]. reflexivity. }
  unfold get, get_rows. f_equal. f_equal.
  unfold save_success. destruct (List.find (where4 h a l s) tbl) as [row|] eqn:E.
  - apply find_some in E. destruct E as [Hin Hw].
    apply (filter_update_other h' a' l' row _ now tbl tbl Hnd Hin); [|apply incl_refl].
    apply Hother. unfold where4 in Hw. apply andb_true_iff in Hw. apply Hw.
  - rewrite List.filter_app. simpl.
    rewrite (Hother {| id := next_rowid tbl; host := h; action := a; label := l;
                       selector := s; success_count := 1; updated := now |}).
    + apply app_nil_r.
    + unfold where3. simpl. rewrite !String.eqb_refl. reflexivity.
Qed.

Lemma save_success_leaves_other_lookups_witness :
  get "example.com" "type" "Submit"
    (save_success 40 "example.com" "click" "Submit" "#old" example_table) =
  get "example.com" "type" "Submit" example_table.
Proof.
  apply save_success_leaves_other_lookups.
  - repeat constructor; simpl; intuition discriminate.
  - discriminate.
Defined.

Lemma update_by_id_tuples sid cnt now tbl :
  map tuple (update_by_id sid cnt now tbl) = map tuple tbl.
Proof.
  unfold update_by_id. rewrite map_map. apply map_ext. intros r.
  destruct (id r =? sid)%Z; reflexivity.
Qed.

(** X11.  The empty table is well formed and [save_success] keeps a table
    well formed: rowids stay unique, no tuple of host, action, label and
    selector gets a second row, and no success count falls below 1. *)
Theorem save_success_keeps_well_formed :
  well_formed [] /\
  (forall now h a l s tbl, well_formed tbl -> well_formed (save_success now h a l s tbl)).
Proof.
  split; [repeat split; constructor|].
  intros now h a l s tbl [Hids [Htup Hcnt]].
  split; [apply SelectorMemoryFacts.save_success_keeps_ids_unique; exact Hids|].
  unfold save_success. destruct (List.find (where4 h a l s) tbl) as [row|] eqn:E.
  - split; [rewrite update_by_id_tuples; exact Htup|].
    apply find_some in E. destruct E as [Hin _].
    rewrite List.Forall_forall in Hcnt. pose proof (Hcnt row Hin) as Hrow.
    unfold update_by_id. apply List.Forall_forall. intros r Hr.
    apply in_map_iff in Hr. destruct Hr as [r0 [<- Hr0]].
    destruct (id r0 =? id row)%Z; [simpl; lia|apply Hcnt; exact Hr0].
  - split.
    + rewrite map_app. simpl. apply SelectorMemoryFacts.NoDup_app_end; [exact Htup|].
      intros Hin. apply in_map_iff in Hin. destruct Hin as [r [Ht Hr]].
      change (tuple r = (h, a, l, s)) in Ht.
      apply where4_tuple in Ht. pose proof (find_none _ _ E r Hr) as Hn. congruence.
    + apply Forall_app. split; [exact Hcnt|]. constructor; [simpl; lia|constructor].
Qed.

(** X12.  When no tuple has two rows, a lookup returns no selector twice. *)
Theorem get_returns_each_selector_once (h a l : string) (tbl : Table) :
  List.NoDup (map tuple tbl) -> List.NoDup (get h a l tbl).
Proof.
  intros Htup. unfold get.
  destruct (SelectorMemoryFacts.get_rows_sorted h a l tbl) as [Hperm _].
  apply (Permutation_NoDup (l := map selector (List.filter (where3 h a l) tbl)));
    [apply Permutation_map; symmetry; exact Hperm|].
  clear Hperm. induction tbl as [|r tbl IH]; simpl; [constructor|].
  simpl in Htup. inversion Htup as [|? ? Hr Htup']; subst.
  destruct (where3 h a l r) eqn:E; [|apply IH; exact Htup'].
  simpl. constructor; [|apply IH; exact Htup'].
  intros Hin. apply in_map_iff in Hin. destruct Hin as [r' [Hs Hr']].
  apply filter_In in Hr'. destruct Hr' as [Hin' E'].
  apply Hr. apply in_map_iff. exists r'. split; [|exact Hin'].
  unfold where3 in E, E'. rewrite !andb_true_iff, !String.eqb_eq in E, E'.
  destruct E as [[E1 E2] E3], E' as [[E1' E2'] E3']. unfold tuple. congruence.
Qed.

Lemma get_returns_each_selector_once_witness :
  List.NoDup (get "example.com" "click" "Submit" example_table) /\
  length (get "example.com" "click" "Submit" example_table) = 3%nat.
Proof.
  split; [|reflexivity]. apply get_returns_each_selector_once.
  repeat constructor; simpl; intuition discriminate.
Defined.

End SelectorMemoryMoreFacts.

(** ** memory/vector_store.py: what the embedding ignores, and what a search
    can return *)

Module VectorStoreMoreFacts.
Import VectorStore.

Lemma lower_char_idempotent c : PyStr.lower_char (PyStr.lower_char c) = PyStr.lower_char c.
Proof. destruct c as [[] [] [] [] [] [] [] []]; reflexivity. Qed.

Lemma lower_idempotent s : PyStr.lower (PyStr.lower s) = PyStr.lower s.
Proof.
  induction s as [|c s IH]; simpl; [reflexivity|].
  rewrite lower_char_idempotent, IH. reflexivity.
Qed.

Lemma tokens_of_lower text : tokens_of (PyStr.lower text) = tokens_of text.
Proof. unfold tokens_of. rewrite lower_idempotent. reflexivity. Qed.

(** X13.  The embedding does not see letter case: a text and its lower-case
    form have the same embedding, in every dimension, and so the same
    similarity to every query; and a query may be given in any case. *)
Theorem embedding_ignores_case (py_hash : string -> Z) (d : Z) (text query : string) :
  _embed py_hash d (PyStr.lower text) = _embed py_hash d text /\
  similarity py_hash d query (PyStr.lower text) = similarity py_hash d query text /\
  similarity py_hash d (PyStr.lower query) text = similarity py_hash d query text.
Proof.
  assert (H : forall t, _embed py_hash d (PyStr.lower t) = _embed py_hash d t).
  { intros t. unfold _embed. rewrite tokens_of_lower. reflexivity. }
  split; [apply H|]. unfold similarity. rewrite !H. split; reflexivity.
Qed.

Lemma lower_char_alnum c : PyStr.is_alnum (PyStr.lower_char c) = PyStr.is_alnum c.
Proof. destruct c as [[] [] [] [] [] [] [] []]; reflexivity. Qed.

Lemma alnum_runs_none s :
  PyStr.all_chars (fun c => negb (PyStr.is_alnum c)) s = true ->
  alnum_runs s EmptyString = [].
Proof.
  induction s as [|c s IH]; simpl; [reflexivity|].
  intros H. apply andb_true_iff in H. destruct H as [Hc Hs].
  apply negb_true_iff in Hc. rewrite Hc. apply IH. exact Hs.
Qed.

Lemma lower_keeps_non_alnum s :
  PyStr.all_chars (fun c => negb (PyStr.is_alnum c)) (PyStr.lower s) =
  PyStr.all_chars (fun c => negb (PyStr.is_alnum c)) s.
Proof.
  induction s as [|c s IH]; simpl; [reflexivity|].
  rewrite lower_char_alnum, IH. reflexivity.
Qed.

Lemma fold_add_zeros n :
  fold_left PrimFloat.add (map (fun x => (x * x)%float) (repeat 0%float n)) 0%float = 0%float.
Proof. induction n as [|n IH]; simpl; [reflexivity|exact IH]. Qed.

Lemma map_div_zeros n :
  map (fun x => (x / 1)%float) (repeat 0%float n) = repeat 0%float n.
Proof. induction n as [|n IH]; simpl; [reflexivity|]. rewrite IH. reflexivity. Qed.

(** X14.  A text without a letter or a digit (the empty text, punctuation,
    blanks) is embedded as the zero vector, in every dimension and without a
    call of [hash]: the norm 0 is replaced by 1 and nothing is divided by
    zero. *)
Theorem text_without_tokens_embeds_to_zero (py_hash : string -> Z) (d : Z) (text : string) :
  PyStr.all_chars (fun c => negb (PyStr.is_alnum c)) text = true ->
  _embed py_hash d text = Ok (repeat 0%float (Z.to_nat d)).
Proof.
  intros H. unfold _embed, tokens_of.
  rewrite alnum_runs_none by (rewrite lower_keeps_non_alnum; exact H).
  simpl. unfold fsum. rewrite fold_add_zeros. simpl. rewrite map_div_zeros. reflexivity.
Qed.

Lemma text_without_tokens_embeds_to_zero_witness :
  _embed demo_hash 4 " -- ?! " = Ok [0%float; 0%float; 0%float; 0%float] /\
  _embed demo_hash 0 "" = Ok [].
Proof.
  split.
  - apply (text_without_tokens_embeds_to_zero demo_hash 4 " -- ?! "). reflexivity.
  - apply (text_without_tokens_embeds_to_zero demo_hash 0 ""). reflexivity.
Defined.

Lemma slice_to_incl {A : Type} (k : Z) (l : list A) x : In x (PyList.slice_to k l) -> In x l.
Proof.
  unfold PyList.slice_to. destruct (0 <=? k)%Z; apply SortFacts.in_firstn_in.
Qed.

Lemma slice_to_length {A : Type} (k : Z) (l : list A) :
  (length (PyList.slice_to k l) <= length l)%nat.
Proof.
  unfold PyList.slice_to. destruct (0 <=? k)%Z; rewrite length_firstn; lia.
Qed.

(** In a positive dimension a search returns: the entries it returns, as
    positions of the ranking. *)
Lemma search_returns (py_hash : string -> Z) (d : Z) (texts : list string) (query : string)
  (k : Z) :
  (0 < d)%Z ->
  exists ranked : list (nat * float),
    similarity_search py_hash query k (indexed py_hash d texts) =
      Ok (map (fun p => (nth (fst p) texts EmptyString, snd p)) (PyList.slice_to k ranked)) /\
    length ranked = length texts /\
    (forall p, In p ranked ->
       (fst p < length texts)%nat /\
       snd p = similarity py_hash d query (nth (fst p) texts EmptyString)).
Proof.
  intros Hd.
  set (sims := map (similarity py_hash d query) texts).
  set (scores := combine (seq 0 (length sims)) sims).
  assert (Hlen : length sims = length texts) by (subst sims; apply length_map).
  assert (Hgood : forall p, In p scores ->
                    (fst p < length texts)%nat /\
                    snd p = similarity py_hash d query (nth (fst p) texts EmptyString)).
  { intros [i s] Hin. apply VectorStoreFacts.in_enumerated in Hin.
    destruct Hin as [Hr Hn]. simpl. rewrite Nat.sub_0_r in Hn. split; [lia|].
    subst sims. rewrite nth_error_map in Hn.
    destruct (nth_error texts i) as [t|] eqn:Et; [|discriminate].
    injection Hn as <-. rewrite (nth_error_nth _ _ EmptyString Et). reflexivity. }
  pose proof (SortFacts.sort_desc_perm PrimFloat.ltb snd scores) as Hperm.
  exists (PyList.sort_desc PrimFloat.ltb snd scores). split; [|split].
  - rewrite (VectorStoreFacts.indexed_store py_hash d texts Hd).
    unfold similarity_search. simpl dim.
    rewrite (VectorStoreFacts.embed_returns py_hash d query Hd).
    simpl bind. simpl vecs. simpl docs.
    unfold PyList.enumerate. rewrite VectorStoreFacts.map_snd_combine, length_map, map_map.
    rewrite (map_ext _ (similarity py_hash d query))
      by (intros t; symmetry; apply VectorStoreFacts.similarity_dot; exact Hd).
    fold sims. rewrite <- Hlen. fold scores.
    apply VectorStoreFacts.with_docs_returns.
    intros p Hp. apply Hgood. eapply Permutation_in; [exact Hperm|].
    apply (slice_to_incl k _ p Hp).
  - rewrite (Permutation_length Hperm). subst scores.
    rewrite length_combine, length_seq, Hlen. lia.
  - intros p Hp. apply Hgood. eapply Permutation_in; eassumption.
Qed.

(** X15.  In a store of positive dimension [similarity_search] returns for
    every query and every [k], negative ones too; it returns at most as many
    entries as texts were indexed, and every entry is an indexed text with
    its similarity to the query. *)
Theorem search_returns_indexed_texts (py_hash : string -> Z) (d : Z) (texts : list string)
  (query : string) (k : Z) :
  (0 < d)%Z ->
  exists r,
    similarity_search py_hash query k (indexed py_hash d texts) = Ok r /\
    (length r <= length texts)%nat /\
    (forall t s, In (t, s) r -> In t texts /\ s = similarity py_hash d query t).
Proof.
  intros Hd. destruct (search_returns py_hash d texts query k Hd) as [ranked [Hres [Hlen Hgood]]].
  eexists. split; [exact Hres|]. split.
  - rewrite length_map, <- Hlen. apply slice_to_length.
  - intros t s Hin. apply in_map_iff in Hin. destruct Hin as [p [[= <- <-] Hp]].
    destruct (Hgood p (slice_to_incl k ranked p Hp)) as [Hlt Hs].
    split; [apply nth_In; exact Hlt|exact Hs].
Qed.

Lemma search_returns_indexed_texts_witness :
  exists r,
    similarity_search demo_hash "submit" (-1) (indexed demo_hash 512 example_texts) = Ok r /\
    (length r <= length example_texts)%nat.
Proof.
  destruct (search_returns_indexed_texts demo_hash 512 example_texts "submit" (-1))
    as [r [Hres [Hlen _]]]; [reflexivity|].
  exists r. split; [exact Hres|exact Hlen].
Defined.

Lemma has_token_nonempty text : tokens_of text <> [] -> exists t ts, tokens_of text = t :: ts.
Proof. destruct (tokens_of text) as [|t ts]; [congruence|]. intros _. exists t, ts. reflexivity. Qed.

(** X16.  In a positive dimension [add_texts] returns normally, and adds
    every text to [docs] and one vector per text to [vecs].  In dimension 0 a
    text that has a token makes it raise [ZeroDivisionError], with that text
    already in [docs] and no vector for it: the two lists are no longer of
    one length. *)
Theorem add_texts_alignment (py_hash : string -> Z) (s : SimpleVectorStore)
  (t : string) (texts : list string) :
  ((0 < dim s)%Z ->
     fst (add_texts py_hash texts s) = Ok tt /\
     docs (snd (add_texts py_hash texts s)) = docs s ++ texts /\
     length (vecs (snd (add_texts py_hash texts s))) = (length (vecs s) + length texts)%nat) /\
  (dim s = 0%Z -> tokens_of t <> [] ->
     add_texts py_hash (t :: texts) s =
       (Raise ZeroDivisionError, {| dim := 0; docs := docs s ++ [t]; vecs := vecs s |})).
Proof.
  destruct s as [d ds vs]. simpl. split.
  - intros Hd. rewrite (VectorStoreFacts.add_texts_returns py_hash d texts ds vs Hd). simpl.
    rewrite length_app, length_map. repeat split.
  - intros -> Htok. destruct (has_token_nonempty t Htok) as [t0 [ts E]].
    unfold _embed. rewrite E. reflexivity.
Qed.

Lemma add_texts_alignment_witness :
  add_texts demo_hash ["Log in"; "Sign up"] (init 0) =
    (Raise ZeroDivisionError, {| dim := 0; docs := ["Log in"]; vecs := [] |}).
Proof.
  destruct (add_texts_alignment demo_hash (init 0) "Log in" ["Sign up"]) as [_ H].
  apply H; [reflexivity|discriminate].
Defined.

End VectorStoreMoreFacts.

Module BrowserPoolMoreFacts.
Import BrowserPool BrowserPoolMore.

Lemma prefill_fields m : forall q p,
  let p' := snd (prefill m q p) in
  max_browsers p' = max_browsers p /\ max_pages_per_browser p' = max_pages_per_browser p /\
  _started p' = _started p /\ _browsers p' = _browsers p /\
  closed_pages p' = closed_pages p /\ closed_browsers p' = closed_browsers p.
Proof.
  induction m as [|m IH]; intros q p; simpl; [repeat split|].
  exact (IH _ (set_next p (S (S (next_object p))))).
Qed.

Lemma prefill_items m : forall q p,
  length (items (fst (prefill m q p))) = (length (items q) + m)%nat.
Proof.
  induction m as [|m IH]; intros q p; simpl; [lia|].
  rewrite IH. simpl. rewrite length_app. simpl. lia.
Qed.

(** What [n] rounds of the outer loop of [start] add. *)
Lemma launch_shape n : forall p,
  let p' := launch n p in
  max_browsers p' = max_browsers p /\ max_pages_per_browser p' = max_pages_per_browser p /\
  _started p' = _started p /\ closed_pages p' = closed_pages p /\
  closed_browsers p' = closed_browsers p /\
  length (_browsers p') = (length (_browsers p) + n)%nat /\
  exists qs, _pages_queues p' = _pages_queues p ++ qs /\ length qs = n /\
    Forall (fun q => maxsize q = 0%Z /\
                     length (items q) = Z.to_nat (max_pages_per_browser p)) qs.
Proof.
  induction n as [|n IH]; intros p; simpl.
  - repeat split; try lia. exists []. rewrite app_nil_r. repeat split. constructor.
  - pose proof (prefill_fields (Z.to_nat (max_pages_per_browser p)) Queue_new
                  (set_next p (S (next_object p)))) as Hf.
    pose proof (prefill_items (Z.to_nat (max_pages_per_browser p)) Queue_new
                  (set_next p (S (next_object p)))) as Hi.
    pose proof (BrowserPoolFacts.prefill_maxsize (Z.to_nat (max_pages_per_browser p)) Queue_new
                  (set_next p (S (next_object p)))) as Hm.
    pose proof (BrowserPoolFacts.prefill_queues (Z.to_nat (max_pages_per_browser p)) Queue_new
                  (set_next p (S (next_object p)))) as Hq.
    destruct (prefill _ _ _) as [q p2]. simpl in Hf, Hi, Hm, Hq.
    destruct Hf as [H1 [H2 [H3 [H4 [H5 H6]]]]].
    match goal with |- context [launch n ?x] => destruct (IH x) as [I1 [I2 [I3 [I4 [I5 [I6 I7]]]]]] end.
    simpl in I1, I2, I3, I4, I5, I6, I7.
    split; [rewrite I1; exact H1|]. split; [rewrite I2; exact H2|].
    split; [rewrite I3; exact H3|]. split; [rewrite I4; exact H5|].
    split; [rewrite I5; exact H6|].
    split; [rewrite I6, length_app, H4; simpl; lia|].
    destruct I7 as [qs [Eqs [Hlen Hall]]]. exists (q :: qs).
    split; [rewrite Eqs, Hq, <- app_assoc; reflexivity|]. split; [simpl; lia|].
    constructor; [split; [exact Hm|exact Hi]|].
    rewrite H2 in Hall. exact Hall.
Qed.

Lemma start_consistent p : consistent p -> consistent (start p).
Proof.
  intros [Hl Hs]. unfold start. destruct (_started p) eqn:E; [split; [exact Hl|rewrite E; exact Hs]|].
  destruct (launch_shape (Z.to_nat (max_browsers p)) p)
    as [I1 [_ [_ [_ [_ [I6 [qs [Eqs [Hlen _]]]]]]]]].
  unfold consistent. simpl. rewrite I6, Eqs, length_app, Hlen, I1, <- Hl, Hs. simpl. lia.
Qed.

Lemma stop_consistent p : consistent p -> consistent (stop p).
Proof.
  intros [Hl Hs]. unfold stop. destruct (_started p) eqn:E; simpl.
  - split; reflexivity.
  - split; [exact Hl|rewrite E; exact Hs].
Qed.

(** What a scan that hands out a page does: the page is the head of the
    first queue that is not empty, and that queue keeps its tail. *)
Lemma scan_acquired t rest : forall before p h p',
  scan t (length before) before rest p = Some (Acquired h p') ->
  exists j q x r,
    browser_idx h = Z.of_nat j /\ (before ++ rest) !! j = Some q /\
    items q = x :: r /\ page h = fst x /\
    p' = set_queues p (<[j := {| maxsize := maxsize q; items := r |}]> (before ++ rest)).
Proof.
  induction rest as [|q rest IH]; intros before p h p' Hscan; simpl in Hscan;
    [discriminate|].
  destruct (get t q) as [x q'| | |] eqn:G; try discriminate.
  - destruct (BrowserPoolFacts.get_got t q x q' G) as [r [Eitems ->]].
    injection Hscan as <- <-. exists (length before), q, x, r. simpl.
    split; [reflexivity|]. split; [apply list_lookup_middle; reflexivity|].
    split; [exact Eitems|]. split; [reflexivity|].
    f_equal. symmetry. replace (length before) with (length before + 0)%nat by lia.
    rewrite insert_app_r. reflexivity.
  - replace (S (length before)) with (length (before ++ [q])) in Hscan
      by (rewrite length_app; simpl; lia).
    apply IH in Hscan. rewrite <- app_assoc in Hscan. exact Hscan.
Qed.

(** With a timeout that is not negative a scan hands out a page or finds
    every queue empty. *)
Lemma scan_with_timeout t rest : forall idx before p,
  Qle_bool 0 t = true ->
  scan (Some t) idx before rest p = None \/
  exists h p', scan (Some t) idx before rest p = Some (Acquired h p').
Proof.
  induction rest as [|q rest IH]; intros idx before p Ht; simpl; [left; reflexivity|].
  unfold get. rewrite Ht. simpl. destruct (items q); [apply IH; exact Ht|right; eauto].
Qed.

(** With a negative timeout a scan raises at the first queue. *)
Lemma scan_bad_timeout t q rest idx before p :
  Qle_bool 0 t = false ->
  scan (Some t) idx before (q :: rest) p = Some (AcquireRaises bad_timeout p).
Proof. intros Ht. simpl. unfold get. rewrite Ht. reflexivity. Qed.

Lemma started_pool_consistent p : consistent p -> consistent (started_pool p).
Proof.
  intros H. unfold started_pool. destruct (_started p); [exact H|apply start_consistent; exact H].
Qed.

Lemma started_pool_started p : _started (started_pool p) = true.
Proof.
  unfold started_pool. destruct (_started p) eqn:E; [exact E|].
  unfold start. rewrite E. reflexivity.
Qed.

Lemma started_pool_keeps p :
  max_browsers (started_pool p) = max_browsers p /\
  closed_pages (started_pool p) = closed_pages p.
Proof.
  unfold started_pool. destruct (_started p) eqn:E; [split; reflexivity|].
  unfold start. rewrite E. simpl.
  destruct (launch_shape (Z.to_nat (max_browsers p)) p) as [I1 [_ [_ [I4 _]]]].
  split; assumption.
Qed.

(** The two ways [_acquire] hands out a page: from a queue, or a new one on
    the first browser. *)
Lemma acquire_acquired t p h p' :
  _acquire t p = Acquired h p' ->
  (exists j q x r,
     browser_idx h = Z.of_nat j /\ _pages_queues (started_pool p) !! j = Some q /\
     items q = x :: r /\ page h = fst x /\
     p' = set_queues (started_pool p)
            (<[j := {| maxsize := maxsize q; items := r |}]> (_pages_queues (started_pool p)))) \/
  (_browsers (started_pool p) <> [] /\ browser_idx h = 0%Z /\
   page h = fst (new_page (started_pool p)) /\ p' = snd (new_page (started_pool p))).
Proof.
  unfold _acquire. fold (started_pool p).
  destruct (scan t 0 [] (_pages_queues (started_pool p)) (started_pool p)) as [r|] eqn:E.
  - intros ->. left. apply (scan_acquired t _ [] _ _ _ E).
  - destruct (_browsers (started_pool p)) eqn:Eb; [discriminate|].
    intros [= <- <-]. right. repeat split. discriminate.
Qed.

Lemma acquire_consistent t p h p' :
  consistent p -> _acquire t p = Acquired h p' -> consistent p'.
Proof.
  intros Hp Ha. apply started_pool_consistent in Hp.
  destruct (acquire_acquired t p h p' Ha) as [[j [q [x [r [_ [_ [_ [_ ->]]]]]]]]|[_ [_ [_ ->]]]].
  - destruct Hp as [Hl Hs]. unfold consistent. simpl. rewrite length_insert. split; assumption.
  - exact Hp.
Qed.

(** [_acquire] raises because of the timeout or because the pool has no
    browser; the pool is then as [start] left it. *)
Lemma acquire_raises t p e p' :
  _acquire t p = AcquireRaises e p' ->
  p' = started_pool p /\
  (e = bad_timeout \/
   e = RuntimeError "No browsers available" /\ _browsers (started_pool p) = []).
Proof.
  unfold _acquire. fold (started_pool p).
  destruct (scan t 0 [] (_pages_queues (started_pool p)) (started_pool p)) as [r|] eqn:E.
  - intros ->. destruct (BrowserPoolFacts.scan_raises _ _ _ _ _ _ _ E) as [-> ->].
    split; [reflexivity|left; reflexivity].
  - destruct (_browsers (started_pool p)); [|discriminate].
    intros [= <- <-]. split; [reflexivity|right; split; reflexivity].
Qed.

Lemma release_consistent h p : consistent p -> consistent (_release h p).
Proof.
  intros [Hl Hs]. unfold _release.
  destruct (PyList.index _ _) as [j|]; [|split; assumption].
  destruct (_pages_queues p !! j) as [q|]; [|split; assumption].
  destruct (put_nowait _ q); [|split; assumption].
  unfold consistent. simpl. rewrite length_insert. split; assumption.
Qed.

Lemma reachable_consistent p : reachable p -> consistent p.
Proof.
  induction 1.
  - split; reflexivity.
  - apply start_consistent; assumption.
  - apply stop_consistent; assumption.
  - eapply acquire_consistent; eassumption.
  - match goal with H : _acquire _ _ = AcquireRaises _ _ |- _ =>
      apply acquire_raises in H; destruct H as [-> _] end.
    apply started_pool_consistent; assumption.
  - apply release_consistent; assumption.
Qed.

(** X17.  However a pool is driven (started, stopped, pages acquired and
    released, in any order), it has as many queues as browsers; a started
    pool has [max_browsers] of them (none when that is negative), a pool that
    is not started has none; and no queue has a maximum size. *)
Theorem pool_keeps_its_shape (p : Pool) :
  reachable p ->
  length (_pages_queues p) = length (_browsers p) /\
  (_started p = true -> length (_browsers p) = Z.to_nat (max_browsers p)) /\
  (_started p = false -> _browsers p = [] /\ _pages_queues p = []) /\
  Forall (fun q => maxsize q = 0%Z) (_pages_queues p).
Proof.
  intros Hr. destruct (reachable_consistent p Hr) as [Hl Hs].
  split; [symmetry; exact Hl|]. split; [|split].
  - intros E. rewrite E in Hs. exact Hs.
  - intros E. rewrite E in Hs. split; [exact Hs|].
    rewrite Hs in Hl. simpl in Hl. destruct (_pages_queues p); [reflexivity|discriminate].
  - apply BrowserPoolFacts.reachable_unbounded. exact Hr.
Qed.

Lemma pool_keeps_its_shape_witness :
  length (_pages_queues (_release {| page := {| page_id := 50; context := 49 |};
                                      browser_idx := 1 |} (start (init 2 3)))) = 2%nat.
Proof.
  assert (Hr : reachable (_release {| page := {| page_id := 50; context := 49 |};
                                      browser_idx := 1 |} (start (init 2 3))))
    by (apply reach_release, reach_start, reach_init).
  destruct (pool_keeps_its_shape _ Hr) as [Hl _]. rewrite Hl. reflexivity.
Defined.

(** X18.  [start] on a pool that is not started launches [max_browsers]
    browsers and gives each a queue without maximum size, holding
    [max_pages_per_browser] pages; it closes nothing.  On a started pool it
    does nothing, so that starting twice is starting once. *)
Theorem start_fills_the_pool (p : Pool) :
  (_started p = false ->
     _started (start p) = true /\
     length (_browsers (start p)) = (length (_browsers p) + Z.to_nat (max_browsers p))%nat /\
     closed_pages (start p) = closed_pages p /\
     exists qs,
       _pages_queues (start p) = _pages_queues p ++ qs /\
       length qs = Z.to_nat (max_browsers p) /\
       Forall (fun q => maxsize q = 0%Z /\
                        length (items q) = Z.to_nat (max_pages_per_browser p)) qs) /\
  start (start p) = start p.
Proof.
  split.
  - intros E. unfold start. rewrite E. simpl.
    destruct (launch_shape (Z.to_nat (max_browsers p)) p)
      as [_ [_ [_ [I4 [_ [I6 I7]]]]]].
    repeat split; assumption.
  - unfold start at 1. destruct (_started (start p)) eqn:E; [reflexivity|].
    unfold start in E. destruct (_started p) eqn:E'; [congruence|discriminate].
Qed.

Lemma start_fills_the_pool_witness :
  _started (start (init 2 3)) = true /\ length (_browsers (start (init 2 3))) = 2%nat.
Proof.
  destruct (start_fills_the_pool (init 2 3)) as [H _].
  destruct (H eq_refl) as [Hs [Hl _]]. split; [exact Hs|exact Hl].
Defined.

Lemma lookup_zero_of_nonempty {A : Type} (l : list A) :
  l <> [] -> exists x, l !! 0%nat = Some x.
Proof. destruct l as [|x l]; [congruence|]. intros _. exists x. reflexivity. Qed.



(** X20.  Without a timeout [_acquire] uses the first queue only: it takes
    the page at its head, and when that queue is empty it waits there, for
    ever when nothing is released to it, whatever the other queues hold
    and without making a page on the first browser. *)
Theorem acquire_without_timeout_uses_first_queue (p : Pool) (q : Queue) (qs : list Queue) :
  _started p = true -> _pages_queues p = q :: qs ->
  _acquire None p =
    match items q with
    | [] => AcquireBlocks
    | x :: r =>
        Acquired {| page := fst x; browser_idx := 0 |}
                 (set_queues p ({| maxsize := maxsize q; items := r |} :: qs))
    end.
Proof.
  intros Hs Hq. unfold _acquire. rewrite Hs, Hq. simpl. unfold get.
  destruct (items q); reflexivity.
Qed.

Lemma acquire_without_timeout_uses_first_queue_witness :
  _acquire None
    (set_queues (start (init 2 1))
       [Queue_new; {| maxsize := 0; items := [({| page_id := 5; context := 4 |}, 4%nat)] |}]) =
  AcquireBlocks.
Proof.
  rewrite (acquire_without_timeout_uses_first_queue _ Queue_new
             [{| maxsize := 0; items := [({| page_id := 5; context := 4 |}, 4%nat)] |}]);
    reflexivity.
Defined.

(** X21.  [stop] on a started pool closes every pooled page and every
    browser and leaves the pool without queues; stopping again changes
    nothing; and a handle released after the stop is not taken back: its
    page is closed. *)
Theorem stop_empties_the_pool (p : Pool) :
  _started p = true ->
  closed_pages (stop p) = closed_pages p ++ map fst (concat (map items (_pages_queues p))) /\
  closed_browsers (stop p) = closed_browsers p ++ _browsers p /\
  _pages_queues (stop p) = [] /\ _browsers (stop p) = [] /\
  stop (stop p) = stop p /\
  forall h, _release h (stop p) = close_page (page h) (stop p).
Proof.
  intros Hs. unfold stop at 1 2 3 4. rewrite Hs. simpl. repeat split.
  - unfold stop. rewrite Hs. reflexivity.
  - intros h. unfold _release, stop. rewrite Hs. simpl.
    destruct (PyList.index _ _); reflexivity.
Qed.

Lemma stop_empties_the_pool_witness :
  length (closed_pages (stop (start (init 2 3)))) = 6%nat /\
  length (closed_browsers (stop (start (init 2 3)))) = 2%nat.
Proof.
  destruct (stop_empties_the_pool (start (init 2 3)) eq_refl) as [Hp [Hb _]].
  rewrite Hp, Hb. split; reflexivity.
Defined.

Lemma release_in_range h p j :
  unbounded p -> PyList.index (_pages_queues p) (browser_idx h) = Some j ->
  closed_pages (_release h p) = closed_pages p /\
  pooled (_release h p) j = pooled p j ++ [(page h, context (page h))].
Proof.
  intros Hunb Hidx.
  pose proof (BrowserPoolFacts.index_in_range _ _ _ Hidx) as Hlt.
  destruct (lookup_lt_is_Some_2 (_pages_queues p) j Hlt) as [q Hq].
  assert (Hmax : maxsize q = 0%Z).
  { unfold unbounded in Hunb. eapply Forall_lookup_1 in Hunb; [exact Hunb|exact Hq]. }
  unfold _release. rewrite Hidx, Hq. unfold put_nowait.
  rewrite (BrowserPoolFacts.unbounded_never_full q Hmax). split; [reflexivity|].
  unfold pooled. simpl. rewrite list_lookup_insert_eq by exact Hlt. rewrite Hq. reflexivity.
Qed.

Lemma index_of_nat {A : Type} (l : list A) (j : nat) :
  (j < length l)%nat -> PyList.index l (Z.of_nat j) = Some j.
Proof.
  intros H. unfold PyList.index.
  replace ((0 <=? Z.of_nat j)%Z && (Z.of_nat j <? Z.of_nat (length l))%Z) with true.
  - rewrite Nat2Z.id. reflexivity.
  - symmetry. apply andb_true_iff. split; [apply Z.leb_le|apply Z.ltb_lt]; lia.
Qed.

Lemma index_past_the_end {A : Type} (l : list A) (j : nat) :
  (length l <= j)%nat -> PyList.index l (Z.of_nat j) = None.
Proof.
  intros H. unfold PyList.index.
  replace ((0 <=? Z.of_nat j)%Z && (Z.of_nat j <? Z.of_nat (length l))%Z) with false
    by (symmetry; apply andb_false_iff; right; apply Z.ltb_ge; lia).
  replace ((- Z.of_nat (length l) <=? Z.of_nat j)%Z && (Z.of_nat j <? 0)%Z) with false
    by (symmetry; apply andb_false_iff; right; apply Z.ltb_ge; lia).
  reflexivity.
Qed.



End BrowserPoolMoreFacts.

Module NavigatorMoreFacts.
Import Navigator NavigatorMore.

Lemma allowed_domains_enforce now url sm :
  Security.allowed_domains (snd (Security.enforce_rate_limit now url sm)) =
  Security.allowed_domains sm.
Proof.
  unfold Security.enforce_rate_limit, Security._bucket_for.
  destruct (Security.buckets sm !! Security.origin_of url);
    destruct (Security.consume now 1 _); reflexivity.
Qed.

Lemma is_domain_allowed_by_list sm1 sm2 url :
  Security.allowed_domains sm1 = Security.allowed_domains sm2 ->
  Security.is_domain_allowed sm1 url = Security.is_domain_allowed sm2 url.
Proof. intros H. unfold Security.is_domain_allowed. rewrite H. reflexivity. Qed.

Section WithPage.
Variable py_hash : string -> Z.
Variable pg : Page.

Ltac goto_case n Hd :=
  split;
  [ exists n; split; [lia|]; split; [try rewrite app_nil_r; reflexivity|];
    intros Hr; try discriminate; split; reflexivity
  | split; [reflexivity|]; split; [reflexivity|]; first [exact Hd|reflexivity] ].

(** One attempt of [goto]. *)
Lemma goto_body_step url w :
  let r := goto_body pg url w in
  (exists n, (n <= 1)%nat /\ trace (snd r) = trace w ++ repeat (OpGoto url) n /\
     (fst r = Ok tt -> n = 1%nat /\ Security.is_domain_allowed (security w) url = true)) /\
  sel_mem (snd r) = sel_mem w /\ clock (snd r) = clock w /\
  Security.allowed_domains (security (snd r)) = Security.allowed_domains (security w).
Proof.
  unfold goto_body.
  pose proof (allowed_domains_enforce (clock w) url (security w)) as Hd.
  destruct (Security.is_domain_allowed (security w) url); simpl;
    [destruct (Security.enforce_rate_limit (clock w) url (security w)) as [[|] sm];
     simpl in *; [destruct (page_goto pg _ url); simpl|]|].
  - goto_case 1%nat Hd.
  - goto_case 1%nat Hd.
  - goto_case 0%nat Hd.
  - goto_case 0%nat Hd.
Qed.

Lemma retry_from_goto url left : forall attempt w,
  let r := retry_from (goto_body pg url) left attempt w in
  (exists n, (n <= S left)%nat /\ trace (snd r) = trace w ++ repeat (OpGoto url) n /\
     (fst r = Ok tt -> (0 < n)%nat /\ Security.is_domain_allowed (security w) url = true)) /\
  sel_mem (snd r) = sel_mem w /\
  Security.allowed_domains (security (snd r)) = Security.allowed_domains (security w).
Proof.
  induction left as [|left IH]; intros attempt w; simpl;
    destruct (goto_body_step url w) as [[n [Hn [Ht Hok]]] [Hm [_ Hd]]];
    destruct (goto_body pg url w) as [[[]|e] w1]; simpl in *.
  - split; [|split; assumption].
    exists n. split; [lia|]. split; [exact Ht|].
    intros _. destruct (Hok eq_refl) as [-> Ha]. split; [lia|exact Ha].
  - split; [|split; assumption].
    exists n. split; [lia|]. split; [exact Ht|]. discriminate.
  - split; [|split; assumption].
    exists n. split; [lia|]. split; [exact Ht|].
    intros _. destruct (Hok eq_refl) as [-> Ha]. split; [lia|exact Ha].
  - set (w2 := sleep (wait_exponential (1 # 2) (1 # 2) 4 attempt) w1).
    destruct (IH (S attempt) w2) as [[n' [Hn' [Ht' Hok']]] [Hm' Hd']].
    split; [|split; [rewrite Hm'; exact Hm|rewrite Hd'; exact Hd]].
    exists (n + n')%nat. split; [lia|]. split.
    + rewrite Ht'. subst w2. simpl. rewrite Ht, <- app_assoc, repeat_app. reflexivity.
    + intros Hr. destruct (Hok' Hr) as [Hpos Hall]. split; [lia|].
      rewrite <- Hall. apply is_domain_allowed_by_list. subst w2. simpl. symmetry. exact Hd.
Qed.

Lemma goto_body_clock url w : clock (snd (goto_body pg url w)) = clock w.
Proof. destruct (goto_body_step url w) as [_ [_ [H _]]]. exact H. Qed.

(** X23.  Whatever the page does, a call of [goto] navigates at most three
    times, and to nothing but the URL it was given; it returns normally
    only after a navigation, and only to a URL the allowlist accepts; it
    writes neither the selector memory nor the allowlist; and it pauses for
    0, 0.5 or 1.5 seconds in all. *)
Theorem goto_navigates_at_most_three_times (url : string) (w : World) :
  let r := goto pg url w in
  (exists n, (n <= 3)%nat /\ trace (snd r) = trace w ++ repeat (OpGoto url) n /\
     (fst r = Ok tt -> (0 < n)%nat /\ Security.is_domain_allowed (security w) url = true)) /\
  sel_mem (snd r) = sel_mem w /\
  Security.allowed_domains (security (snd r)) = Security.allowed_domains (security w) /\
  ((clock (snd r) == clock w)%Q \/ (clock (snd r) == clock w + (1 # 2))%Q \/
   (clock (snd r) == clock w + (1 # 2) + 1)%Q).
Proof.
  intros r. destruct (retry_from_goto url 2 1 w) as [H1 [H2 H3]].
  split; [exact H1|]. split; [exact H2|]. split; [exact H3|].
  subst r. unfold goto, retry.
  destruct NavigatorFacts.backoff_pauses as [B1 B2].
  cbn [retry_from].
  pose proof (goto_body_clock url w) as C1.
  destruct (goto_body pg url w) as [[a|e1] w1]; cbn [fst snd] in *;
    [left; rewrite C1; reflexivity|].
  set (w1' := sleep (wait_exponential (1 # 2) (1 # 2) 4 1) w1).
  pose proof (goto_body_clock url w1') as C2.
  assert (Hc1 : (clock w1' == clock w + (1 # 2))%Q).
  { change (clock w1') with (clock w1 + wait_exponential (1 # 2) (1 # 2) 4 1)%Q.
    rewrite C1. lra. }
  destruct (goto_body pg url w1') as [[a|e2] w2]; cbn [fst snd] in *;
    [right; left; rewrite C2; exact Hc1|].
  set (w2' := sleep (wait_exponential (1 # 2) (1 # 2) 4 2) w2).
  pose proof (goto_body_clock url w2') as C3.
  assert (Hc2 : (clock w2' == clock w + (1 # 2) + 1)%Q).
  { change (clock w2') with (clock w2 + wait_exponential (1 # 2) (1 # 2) 4 2)%Q.
    rewrite C2. lra. }
  destruct (goto_body pg url w2') as [[a|e3] w3]; cbn [fst snd] in *;
    right; right; rewrite C3; exact Hc2.
Qed.

(** *** The calls made on the page *)

Lemma page_calls_refl P w : page_calls P w w.
Proof. split; [exists []; rewrite app_nil_r; split; [reflexivity|constructor]|repeat split]. Qed.

Lemma page_calls_trans P w1 w2 w3 :
  page_calls P w1 w2 -> page_calls P w2 w3 -> page_calls P w1 w3.
Proof.
  intros [[o1 [T1 F1]] [C1 [S1 U1]]] [[o2 [T2 F2]] [C2 [S2 U2]]]. split.
  - exists (o1 ++ o2). rewrite T2, T1, <- app_assoc. split; [reflexivity|].
    apply Forall_app. split; assumption.
  - repeat split; congruence.
Qed.

Lemma page_calls_log P w w1 lvl msg :
  page_calls P w w1 -> page_calls P w (add_log lvl msg w1).
Proof. intros H. exact H. Qed.

Lemma page_calls_trace P w w1 ops :
  Forall P ops -> page_calls P w w1 -> page_calls P w (add_trace ops w1).
Proof.
  intros Hops H. apply (page_calls_trans P w w1); [exact H|].
  split; [exists ops; split; [reflexivity|exact Hops]|repeat split].
Qed.

Lemma page_calls_record P w w1 host action label descriptor :
  page_calls P w w1 -> page_calls P w (record_success host action label descriptor w1).
Proof. intros H. unfold record_success. destruct (nonempty host); exact H. Qed.

Lemma page_calls_sanitized P text w : page_calls P w (sanitized text w).
Proof.
  unfold sanitized. destruct (Security.is_unsafe_input text);
    [apply page_calls_log|]; apply page_calls_refl.
Qed.

Lemma fill_from_memory_calls text sels tried w :
  page_calls (fill_op text) w (snd (fill_from_memory pg text sels tried w)).
Proof.
  destruct (NavigatorFacts.fill_from_memory_spec pg text sels tried w)
    as [_ [_ [Hc [Hs [Hu [[ops [Ht Hops]] _]]]]]].
  split; [|repeat split; assumption].
  exists ops. split; [exact Ht|].
  eapply List.Forall_impl; [|exact Hops].
  intros op [sel [_ [->| ->]]]; simpl; [exact I|reflexivity].
Qed.

Lemma click_from_memory_calls sels tried w :
  page_calls click_op w (snd (click_from_memory pg sels tried w)).
Proof.
  destruct (NavigatorFacts.click_from_memory_spec pg sels tried w)
    as [_ [_ [Hc [Hs [Hu [[ops [Ht Hops]] _]]]]]].
  split; [|repeat split; assumption].
  exists ops. split; [exact Ht|].
  eapply List.Forall_impl; [|exact Hops].
  intros op [sel [_ [->| ->]]]; exact I.
Qed.

Ltac page_cases :=
  repeat match goal with
         | |- context [match ?x with _ => _ end] =>
             match type of x with
             | option _ => destruct x
             | bool => destruct x
             end; simpl
         end.

Ltac page_calls_done H :=
  repeat first [ apply page_calls_record
               | apply page_calls_log
               | apply page_calls_trace; [repeat constructor|] ];
  exact H.

(** X24.  Whatever the page does and whatever the selector memory holds,
    the only text [type_best] ever hands to the page is the sanitized one:
    each of its calls on the page waits for a selector, lists the candidate
    elements, or fills in [sanitize_input text].  It makes no click and no
    navigation, and leaves the clock, the security manager and the URL of
    the page as they were. *)
Theorem type_best_sends_sanitized_text (field text : string) (w : World) :
  page_calls (fill_op (Security.sanitize_input text)) w
    (snd (type_best py_hash pg field text w)).
Proof.
  unfold type_best.
  set (stext := Security.sanitize_input text).
  pose proof (page_calls_sanitized (fill_op stext) text w) as H0.
  set (w0 := sanitized text w) in *.
  set (sels := PyList.slice_to 5
                 (SelectorMemory.get (host_of (page_url w0)) "type" field (sel_mem w0))).
  assert (H1 : page_calls (fill_op stext) w
                 (snd (if nonempty (host_of (page_url w0))
                       then fill_from_memory pg stext sels [] w0
                       else (false, [], w0)))).
  { destruct (nonempty (host_of (page_url w0))); [|exact H0].
    eapply page_calls_trans; [exact H0|apply fill_from_memory_calls]. }
  destruct (if nonempty (host_of (page_url w0))
            then fill_from_memory pg stext sels [] w0
            else (false, [], w0)) as [[hit tried] w1].
  simpl in H1. destruct hit; simpl; [exact H1|].
  unfold try_fill, _semantic_candidate.
  page_cases; page_calls_done H1.
Qed.

(** X25.  Whatever the page does and whatever the selector memory holds,
    [click_best] only waits for selectors, lists the candidate elements and
    clicks: it fills in nothing and navigates nowhere, and leaves the
    clock, the security manager and the URL of the page as they were. *)
Theorem click_best_only_clicks (target : string) (w : World) :
  page_calls click_op w (snd (click_best py_hash pg target w)).
Proof.
  unfold click_best.
  set (sels := PyList.slice_to 5
                 (SelectorMemory.get (host_of (page_url w)) "click" target (sel_mem w))).
  assert (H1 : page_calls click_op w
                 (snd (if nonempty (host_of (page_url w))
                       then click_from_memory pg sels [] w
                       else (false, [], w)))).
  { destruct (nonempty (host_of (page_url w))); [|apply page_calls_refl].
    apply click_from_memory_calls. }
  destruct (if nonempty (host_of (page_url w))
            then click_from_memory pg sels [] w
            else (false, [], w)) as [[hit tried] w1].
  simpl in H1. destruct hit; simpl; [exact H1|].
  unfold try_click, _semantic_candidate.
  page_cases; page_calls_done H1.
Qed.

Lemma nonempty_filter_in (l : list string) c :
  In c (List.filter nonempty l) -> In c l /\ nonempty c = true.
Proof. intros H. apply filter_In in H. exact H. Qed.

(** X26.  The candidate [_semantic_candidate] returns is the text of one of
    the first 200 candidate elements of the page, and is not empty; there is
    no candidate exactly when the listing of the elements fails or none of
    these elements has a text. *)
Theorem semantic_candidate_is_on_the_page (mode : Mode) (query : string) :
  match semantic_choice py_hash pg mode query with
  | Some c =>
      nonempty c = true /\
      exists handles h,
        query_selector_all pg (candidates_css mode) = Some handles /\
        In h (firstn 200 handles) /\ c = doc_of h
  | None =>
      query_selector_all pg (candidates_css mode) = None \/
      exists handles,
        query_selector_all pg (candidates_css mode) = Some handles /\
        Forall (fun h => doc_of h = EmptyString) (firstn 200 handles)
  end.
Proof.
  unfold semantic_choice.
  destruct (query_selector_all pg (candidates_css mode)) as [handles|]; [|left; reflexivity].
  destruct (List.filter nonempty (map doc_of (firstn 200 handles))) as [|d ds] eqn:Ef.
  - right. exists handles. split; [reflexivity|].
    apply List.Forall_forall. intros h Hh.
    destruct (doc_of h) as [|a s] eqn:Ed; [reflexivity|].
    assert (Hin : In (String a s) (List.filter nonempty (map doc_of (firstn 200 handles)))).
    { apply filter_In. split; [|reflexivity]. rewrite <- Ed. apply in_map. exact Hh. }
    rewrite Ef in Hin. destruct Hin.
  - unfold VectorStore.init.
    rewrite (VectorStoreFacts.add_texts_returns py_hash 512 (d :: ds) [] []) by reflexivity.
    rewrite !app_nil_l.
    rewrite <- (VectorStoreFacts.indexed_store py_hash 512 (d :: ds)) by reflexivity.
    destruct (VectorStoreMoreFacts.search_returns py_hash 512 (d :: ds) query 1)
      as [ranked [Hres [Hlen Hgood]]]; [reflexivity|].
    rewrite Hres. destruct ranked as [|p ranked]; [discriminate|].
    simpl. destruct (Hgood p (or_introl eq_refl)) as [Hlt _].
    assert (Hin : In (nth (fst p) (d :: ds) EmptyString)
                     (List.filter nonempty (map doc_of (firstn 200 handles))))
      by (rewrite Ef; apply nth_In; exact Hlt).
    apply nonempty_filter_in in Hin. destruct Hin as [Hin Hne].
    split; [exact Hne|].
    apply in_map_iff in Hin. destruct Hin as [h [Hd Hh]].
    exists handles, h. split; [reflexivity|]. split; [exact Hh|symmetry; exact Hd].
Qed.

End WithPage.

End NavigatorMoreFacts.

Module OrchestratorMoreFacts.
Import Orchestrator OrchestratorMore.

Lemma sorted_snoc (l : list Z) (x : Z) :
  StronglySorted Z.lt l -> Forall (fun y => (y < x)%Z) l -> StronglySorted Z.lt (l ++ [x]).
Proof.
  induction l as [|a l IH]; intros Hs Hlt; simpl.
  - constructor; constructor.
  - inversion Hs as [|? ? Hs' Ha]; subst. inversion Hlt as [|? ? Hax Hlt']; subst.
    constructor; [apply IH; assumption|].
    apply Forall_app. split; [exact Ha|]. constructor; [exact Hax|constructor].
Qed.

Section Run.
Variable World : Type.
Variable llm_plan : string -> string -> list string.
Variable execute_step : string -> string -> World -> result string * World.
Variable should_stop : World -> bool.
Variable snapshot_dom : World -> string.

Lemma runner_body_lockstep plan0 goal context pre step steps idx st done :
  plan0 = pre ++ step :: steps -> idx = (Z.of_nat (length pre) + 1)%Z ->
  lockstep plan0 idx st done ->
  exists done',
    lockstep plan0 (idx + 1)
      (runner_body World llm_plan execute_step snapshot_dom goal context idx step st) done'.
Proof.
  intros Hp Hi [Hl [Ho [Hin [Hlt Hs]]]].
  assert (Hlt' : Forall (fun d => (number d < idx + 1)%Z) done).
  { eapply List.Forall_impl; [|exact Hlt]. intros d Hd. simpl in Hd. lia. }
  unfold runner_body. destruct (execute_step _ step (world st)) as [[obs|e] w1].
  - exists (done ++ [(idx, step, obs)]).
    assert (Hnew : lockstep plan0 (idx + 1)
                     {| plan := plan st;
                        observations := observations st ++ ["[" +:+ classify step +:+ "] " +:+ obs];
                        step_log := step_log st ++ [(idx, classify step +:+ ":" +:+ step, obs)];
                        dispatched := dispatched st ++ [step]; world := w1 |}
                     (done ++ [(idx, step, obs)])).
    { unfold lockstep. simpl. rewrite !map_app, Hl, Ho. simpl.
      split; [reflexivity|]. split; [reflexivity|]. split; [|split].
      - apply Forall_app. split; [exact Hin|]. constructor; [|constructor].
        simpl. split; [lia|]. subst plan0 idx.
        replace (Z.to_nat (Z.of_nat (length pre) + 1 - 1)) with (length pre) by lia.
        apply list_lookup_middle. reflexivity.
      - apply Forall_app. split; [exact Hlt'|]. constructor; [|constructor].
        unfold number. simpl. lia.
      - apply sorted_snoc; [exact Hs|]. rewrite List.Forall_map. exact Hlt. }
    destruct (validate obs); exact Hnew.
  - exists done. unfold lockstep. simpl. repeat split; assumption.
Qed.

Lemma runner_loop_lockstep plan0 goal context steps : forall pre idx st done,
  plan0 = pre ++ steps -> idx = (Z.of_nat (length pre) + 1)%Z ->
  lockstep plan0 idx st done ->
  exists done' idx',
    lockstep plan0 idx'
      (runner_loop World llm_plan execute_step should_stop snapshot_dom
         goal context steps idx st) done'.
Proof.
  induction steps as [|step steps IH]; intros pre idx st done Hp Hi Hinv; simpl.
  - exists done, idx. exact Hinv.
  - destruct (should_stop (world st)); [exists done, idx; exact Hinv|].
    destruct (runner_body_lockstep plan0 goal context pre step steps idx st done Hp Hi Hinv)
      as [done1 Hinv1].
    apply (IH (pre ++ [step]) (idx + 1)%Z _ done1).
    + rewrite <- app_assoc. exact Hp.
    + rewrite length_app. simpl. lia.
    + exact Hinv1.
Qed.

(** When nothing fails, the loop leaves the plan alone and observes every
    step. *)
Lemma runner_loop_without_failures goal context steps :
  (forall w, should_stop w = false) ->
  (forall who step w, exists obs w',
      execute_step who step w = (Ok obs, w') /\ validate obs = true) ->
  forall idx st,
    let st' := runner_loop World llm_plan execute_step should_stop snapshot_dom
                 goal context steps idx st in
    plan st' = plan st /\ dispatched st' = dispatched st ++ steps /\
    length (observations st') = (length (observations st) + length steps)%nat.
Proof.
  intros Hstop Hexec. induction steps as [|step steps IH]; intros idx st; simpl.
  - rewrite app_nil_r. repeat split. lia.
  - rewrite Hstop.
    destruct (IH (idx + 1)%Z
                (runner_body World llm_plan execute_step snapshot_dom goal context idx step st))
      as [Hp [Hd Ho]].
    rewrite Hp, Hd, Ho. unfold runner_body.
    destruct (Hexec (classify step) step (world st)) as [obs [w' [-> Hv]]].
    rewrite Hv. simpl. rewrite <- app_assoc, length_app. simpl.
    split; [reflexivity|]. split; [reflexivity|lia].
Qed.

(** X27.  The books of a run of [MultiAgentRunner.run].  The observations
    returned and the steps logged to the memory go in pairs: there is one of
    each for every step that returned an observation, in the order of the
    steps; each logged step carries its number, counted from 1, in the plan
    the run started with (also after a re-plan), and the numbers increase.
    When no stop is asked for and every step returns an observation that
    passes validation, the run returns the plan it started with, has handed
    each of its steps to an agent, and returns one observation per step. *)
Theorem runner_books_go_in_pairs (goal context : string) (w : World) :
  let res := runner_run World llm_plan execute_step should_stop snapshot_dom goal context w in
  (exists done : list Returned,
     step_log (final res) = map logged done /\
     result_observations res = map observed done /\
     Forall (in_plan (llm_plan goal context)) done /\
     StronglySorted Z.lt (map number done)) /\
  ((forall w, should_stop w = false) ->
   (forall who step w, exists obs w',
       execute_step who step w = (Ok obs, w') /\ validate obs = true) ->
   result_plan res = llm_plan goal context /\
   dispatched (final res) = llm_plan goal context /\
   length (result_observations res) = length (llm_plan goal context)).
Proof.
  intros res. subst res. unfold runner_run, finish. simpl. split.
  - destruct (runner_loop_lockstep (llm_plan goal context) goal context
                (llm_plan goal context) [] 1%Z
                {| plan := llm_plan goal context; observations := []; step_log := [];
                   dispatched := []; world := w |} [])
      as [done [idx' [Hl [Ho [Hin [_ Hs]]]]]].
    + reflexivity.
    + reflexivity.
    + unfold lockstep. simpl. repeat split; constructor.
    + exists done. repeat split; assumption.
  - intros Hstop Hexec.
    destruct (runner_loop_without_failures goal context (llm_plan goal context) Hstop Hexec 1%Z
                {| plan := llm_plan goal context; observations := []; step_log := [];
                   dispatched := []; world := w |}) as [Hp [Hd Ho]].
    simpl in Hp, Hd, Ho. split; [exact Hp|]. split; [exact Hd|exact Ho].
Qed.

(** The plan a run returns is the plan it started with or an answer of the
    planner to the context with an observation added. *)
Lemma runner_loop_plan goal context steps : forall idx st,
  let st' := runner_loop World llm_plan execute_step should_stop snapshot_dom
               goal context steps idx st in
  plan st' = plan st \/
  exists observation, plan st' = replan llm_plan goal context (plan st) observation.
Proof.
  induction steps as [|step steps IH]; intros idx st; simpl; [left; reflexivity|].
  destruct (should_stop (world st)); [left; reflexivity|].
  set (st1 := runner_body World llm_plan execute_step snapshot_dom goal context idx step st).
  assert (H1 : plan st1 = plan st \/
               exists observation, plan st1 = replan llm_plan goal context (plan st) observation).
  { subst st1. unfold runner_body.
    destruct (execute_step _ step (world st)) as [[obs|e] w1]; simpl.
    - destruct (validate obs); simpl; [left; reflexivity|right; eexists; reflexivity].
    - right. eexists. reflexivity. }
  destruct (IH (idx + 1)%Z st1) as [H|[o H]]; rewrite H.
  - exact H1.
  - right. exists o. reflexivity.
Qed.

End Run.

Lemma runner_books_go_in_pairs_witness :
  let res := runner_run unit example_plan (fun _ _ w => (Ok "clicked:a, button", w))
               (fun _ => false) (fun _ => "<html></html>") "buy a ticket" "" tt in
  result_plan res = ["open https://shop.test"; "click Buy"] /\
  length (result_observations res) = 2%nat.
Proof.
  intros res.
  destruct (runner_books_go_in_pairs unit example_plan (fun _ _ w => (Ok "clicked:a, button", w))
              (fun _ => false) (fun _ => "<html></html>") "buy a ticket" "" tt) as [_ H].
  destruct H as [Hp [_ Ho]].
  - reflexivity.
  - intros who step u. exists "clicked:a, button", u. split; reflexivity.
  - split; [exact Hp|exact Ho].
Defined.

(** *** The keywords of [validate] and [classify] *)

Lemma lower_app a b : PyStr.lower (a +:+ b) = PyStr.lower a +:+ PyStr.lower b.
Proof. induction a as [|c a IH]; simpl; [reflexivity|]. rewrite IH. reflexivity. Qed.

Lemma prefix_app k s : String.prefix k (k +:+ s) = true.
Proof.
  induction k as [|c k IH]; simpl; [destruct s; reflexivity|].
  destruct (ascii_dec c c); [exact IH|congruence].
Qed.

Lemma contains_unfold sub s :
  PyStr.contains sub s =
  String.prefix sub s || match s with
                         | EmptyString => false
                         | String _ s' => PyStr.contains sub s'
                         end.
Proof. destruct s; reflexivity. Qed.

Lemma contains_inside k pre post : PyStr.contains k (pre +:+ k +:+ post) = true.
Proof.
  induction pre as [|c pre IH].
  - change (EmptyString +:+ k +:+ post) with (k +:+ post).
    rewrite contains_unfold, prefix_app. reflexivity.
  - change (String c pre +:+ k +:+ post) with (String c (pre +:+ k +:+ post)).
    rewrite contains_unfold, IH. apply orb_true_r.
Qed.

Lemma contains_in_lower k pre mid post :
  PyStr.lower mid = k -> PyStr.contains k (PyStr.lower (pre +:+ mid +:+ post)) = true.
Proof.
  intros <-. rewrite !lower_app. apply contains_inside.
Qed.

(** X28.  A keyword decides wherever it stands and however it is cased.
    An observation in which [error], [timeout] or [not found] occurs, in any
    letter case and inside any text, does not pass [validate]; a step in
    which [login] or [sign in] occurs is classified [login], whatever else
    it mentions. *)
Theorem keyword_anywhere_decides (pre mid post : string) :
  (In (PyStr.lower mid) ["error"; "timeout"; "not found"] ->
     validate (pre +:+ mid +:+ post) = false) /\
  (In (PyStr.lower mid) ["login"; "sign in"] ->
     classify (pre +:+ mid +:+ post) = "login").
Proof.
  split.
  - intros Hin. unfold validate. apply negb_false_iff.
    apply existsb_exists. exists (PyStr.lower mid). split; [exact Hin|].
    apply contains_in_lower. reflexivity.
  - intros Hin. unfold classify.
    destruct Hin as [H|[H|[]]].
    + rewrite (contains_in_lower "login" pre mid post) by (symmetry; exact H). reflexivity.
    + rewrite (contains_in_lower "sign in" pre mid post) by (symmetry; exact H).
      rewrite orb_true_r. reflexivity.
Qed.

Lemma keyword_anywhere_decides_witness :
  validate "extract:title:No Errors Found" = false /\
  classify "Fill the form after Sign In" = "login".
Proof.
  destruct (keyword_anywhere_decides "extract:title:No " "Error" "s Found") as [Hv _].
  destruct (keyword_anywhere_decides "Fill the form after " "Sign In" "") as [_ Hc].
  split; [apply Hv; left; reflexivity|apply Hc; right; left; reflexivity].
Defined.

End OrchestratorMoreFacts.

Module LLMFacts.
Import LLM.

Lemma rstrip_by_unfold p c s :
  PyStr.rstrip_by p (String c s) =
  match PyStr.rstrip_by p s with
  | EmptyString => if p c then EmptyString else String c EmptyString
  | r => String c r
  end.
Proof. reflexivity. Qed.

Lemma rstrip_by_idempotent p s :
  PyStr.rstrip_by p (PyStr.rstrip_by p s) = PyStr.rstrip_by p s.
Proof.
  induction s as [|c s IH]; [reflexivity|].
  rewrite rstrip_by_unfold. destruct (PyStr.rstrip_by p s) as [|a r] eqn:E.
  - destruct (p c) eqn:Ec; [reflexivity|]. simpl. rewrite Ec. reflexivity.
  - rewrite rstrip_by_unfold, IH. reflexivity.
Qed.

Lemma rstrip_by_head p c s :
  p c = false -> exists r, PyStr.rstrip_by p (String c s) = String c r.
Proof.
  intros Hc. rewrite rstrip_by_unfold. destruct (PyStr.rstrip_by p s) as [|a r].
  - rewrite Hc. eauto.
  - eauto.
Qed.

Lemma lstrip_by_head p s :
  PyStr.lstrip_by p s = EmptyString \/
  exists c r, PyStr.lstrip_by p s = String c r /\ p c = false.
Proof.
  induction s as [|c s IH]; simpl; [left; reflexivity|].
  destruct (p c) eqn:Ec; [exact IH|]. right. exists c, s. split; [reflexivity|exact Ec].
Qed.

(** Stripping twice is stripping once. *)
Lemma strip_idempotent s : PyStr.strip (PyStr.strip s) = PyStr.strip s.
Proof.
  unfold PyStr.strip.
  destruct (lstrip_by_head PyStr.is_space s) as [->|[c [r [-> Hc]]]]; [reflexivity|].
  destruct (rstrip_by_head PyStr.is_space c r Hc) as [r' Er]. rewrite Er.
  simpl PyStr.lstrip_by. rewrite Hc. rewrite <- Er. apply rstrip_by_idempotent.
Qed.

Lemma parse_line_stripped line step :
  parse_line line = Some step -> PyStr.strip step = step.
Proof.
  unfold parse_line. destruct (PyStr.strip line) as [|c r]; [discriminate|].
  intros [= <-]. apply strip_idempotent.
Qed.

Lemma steps_of_stripped text : Forall (fun step => PyStr.strip step = step) (steps_of text).
Proof.
  unfold steps_of. induction (splitlines text) as [|l ls IH]; simpl; [constructor|].
  destruct (parse_line l) as [step|] eqn:E; [|exact IH].
  constructor; [eapply parse_line_stripped; exact E|exact IH].
Qed.

Lemma steps_of_length text : (length (steps_of text) <= length (splitlines text))%nat.
Proof.
  unfold steps_of. induction (splitlines text) as [|l ls IH]; [simpl; lia|].
  change (omap parse_line (l :: ls))
    with (match parse_line l with
          | Some y => y :: omap parse_line ls
          | None => omap parse_line ls
          end).
  destruct (parse_line l); simpl; lia.
Qed.

(** X29.  Whatever the provider answers, [LLMOrchestrator.plan] returns a
    plan that is not empty, whose steps have no white space at either end,
    and that has at most one step per line of the answer, or the four
    steps of the default plan when the answer gives none. *)
Theorem plan_is_never_empty (complete : string -> string -> string) (goal context : string) :
  let text := complete "You produce ordered, concise web-automation steps."
                       (plan_prompt goal context) in
  (0 < length (plan complete goal context))%nat /\
  Forall (fun step => PyStr.strip step = step) (plan complete goal context) /\
  (length (plan complete goal context) <= Nat.max 4 (length (splitlines text)))%nat /\
  (steps_of text = [] -> plan complete goal context = default_plan).
Proof.
  intros text. unfold plan. fold text.
  pose proof (steps_of_stripped text) as Hs. pose proof (steps_of_length text) as Hl.
  destruct (steps_of text) as [|step steps].
  - split; [simpl; lia|]. split; [repeat constructor|]. split; [simpl; lia|reflexivity].
  - split; [simpl; lia|]. split; [exact Hs|]. split; [lia|discriminate].
Qed.

Lemma mock_plan_prompt goal context :
  MockLLM_complete (plan_prompt goal context) =
    "1) Navigate to relevant sites" +:+ nl +:+ "2) Extract required data" +:+ nl
    +:+ "3) Validate results and summarize".
Proof.
  unfold MockLLM_complete, plan_prompt.
  rewrite OrchestratorMoreFacts.contains_unfold. reflexivity.
Qed.

Lemma mock_plan_constant goal context : plan mock_complete goal context = mock_plan.
Proof. unfold plan, mock_complete. rewrite mock_plan_prompt. reflexivity. Qed.

(** X30.  With the mock provider the planner does not read the goal or the
    context: every plan and every re-plan is the same three steps, without
    their numbers.  So a run of [MultiAgentRunner.run] with it returns these
    three steps as its plan, whatever its steps do, and the steps it hands
    to its agents are the first of these. *)
Theorem mock_planner_always_answers_the_same (goal context : string) :
  plan mock_complete goal context = mock_plan /\
  (forall last_plan observation,
     Orchestrator.replan (plan mock_complete) goal context last_plan observation = mock_plan) /\
  (forall (World : Type) (execute_step : string -> string -> World -> result string * World)
          (should_stop : World -> bool) (snapshot_dom : World -> string) (w : World),
     let res := Orchestrator.runner_run World (plan mock_complete) execute_step should_stop
                  snapshot_dom goal context w in
     Orchestrator.result_plan res = mock_plan /\
     exists rest, mock_plan = Orchestrator.dispatched (Orchestrator.final res) ++ rest).
Proof.
  split; [apply mock_plan_constant|]. split.
  - intros last_plan observation. unfold Orchestrator.replan. apply mock_plan_constant.
  - intros World execute_step should_stop snapshot_dom w res. split.
    + subst res. unfold Orchestrator.runner_run, Orchestrator.finish.
      cbn [Orchestrator.result_plan].
      destruct (OrchestratorMoreFacts.runner_loop_plan World (plan mock_complete) execute_step
                  should_stop snapshot_dom goal context (plan mock_complete goal context) 1%Z
                  {| Orchestrator.plan := plan mock_complete goal context;
                     Orchestrator.observations := []; Orchestrator.step_log := [];
                     Orchestrator.dispatched := []; Orchestrator.world := w |})
        as [H|[o H]]; rewrite H.
      * apply mock_plan_constant.
      * unfold Orchestrator.replan. apply mock_plan_constant.
    + destruct (OrchestratorFacts.runner_executes_the_first_plan World (plan mock_complete)
                  execute_step should_stop snapshot_dom goal context w) as [rest H].
      exists rest. rewrite <- (mock_plan_constant goal context). exact H.
Qed.

End LLMFacts.

(** ** Binary64 rounding *)

Module Binary64Facts.
Import Binary64.
Local Open Scope Z_scope.

Lemma fexp_spec z : fexp prec emax z = Z.max (z - 53) (-1074).
Proof. reflexivity. Qed.

Lemma fexp_mono a b : a <= b -> fexp prec emax a <= fexp prec emax b.
Proof. rewrite !fexp_spec. lia. Qed.

Lemma fexp_emin a : -1074 <= fexp prec emax a.
Proof. rewrite fexp_spec. lia. Qed.

(** *** The number of binary digits *)

Lemma digits2_pos_bounds p :
  2 ^ (Z.pos (digits2_pos p) - 1) <= Z.pos p < 2 ^ Z.pos (digits2_pos p).
Proof.
  induction p as [p IH|p IH|]; simpl digits2_pos.
  - rewrite Pos2Z.inj_succ.
    replace (Z.succ (Z.pos (digits2_pos p)) - 1) with (Z.succ (Z.pos (digits2_pos p) - 1)) by lia.
    rewrite !Z.pow_succ_r by lia. lia.
  - rewrite Pos2Z.inj_succ.
    replace (Z.succ (Z.pos (digits2_pos p)) - 1) with (Z.succ (Z.pos (digits2_pos p) - 1)) by lia.
    rewrite !Z.pow_succ_r by lia. lia.
  - simpl. lia.
Qed.

Lemma Zdigits2_nonneg m : 0 <= Zdigits2 m.
Proof. destruct m; simpl; lia. Qed.

Lemma Zdigits2_bounds m : 0 < m -> 2 ^ (Zdigits2 m - 1) <= m < 2 ^ Zdigits2 m.
Proof. destruct m as [|p|p]; try lia. intros _. apply digits2_pos_bounds. Qed.

Lemma Zdigits2_pos m : 0 < m -> 0 < Zdigits2 m.
Proof. destruct m; simpl; lia. Qed.

Lemma pow2_lt_inv a b : 0 <= a -> 0 <= b -> 2 ^ a < 2 ^ b -> a < b.
Proof.
  intros Ha Hb H. destruct (Z_lt_le_dec a b) as [Hlt|Hge]; [exact Hlt|].
  pose proof (Z.pow_le_mono_r 2 b a ltac:(lia) Hge). lia.
Qed.

Lemma Zdigits2_unique m d : 0 < d -> 2 ^ (d - 1) <= m < 2 ^ d -> Zdigits2 m = d.
Proof.
  intros Hd [Hlo Hhi].
  assert (Hm : 0 < m) by (pose proof (Z.pow_pos_nonneg 2 (d - 1)); lia).
  pose proof (Zdigits2_bounds m Hm) as [Hlo' Hhi']. pose proof (Zdigits2_pos m Hm) as Hp.
  assert (H1 : d - 1 < Zdigits2 m) by (apply pow2_lt_inv; lia).
  assert (H2 : Zdigits2 m - 1 < d) by (apply pow2_lt_inv; lia).
  lia.
Qed.

Lemma Zdigits2_mono m n : 0 <= m <= n -> Zdigits2 m <= Zdigits2 n.
Proof.
  intros [Hm Hmn]. destruct (Z.eq_dec m 0) as [->|Hne]; [apply Zdigits2_nonneg|].
  pose proof (Zdigits2_bounds m ltac:(lia)) as [Hlo _].
  pose proof (Zdigits2_bounds n ltac:(lia)) as [_ Hhi].
  pose proof (Zdigits2_pos m ltac:(lia)). pose proof (Zdigits2_pos n ltac:(lia)).
  assert (Zdigits2 m - 1 < Zdigits2 n) by (apply pow2_lt_inv; lia). lia.
Qed.

Lemma Zdigits2_shift m k : 0 < m -> 0 <= k -> Zdigits2 (m * 2 ^ k) = Zdigits2 m + k.
Proof.
  intros Hm Hk. pose proof (Zdigits2_bounds m Hm) as [Hlo Hhi].
  pose proof (Zdigits2_pos m Hm) as Hp.
  apply Zdigits2_unique; [lia|].
  replace (Zdigits2 m + k - 1) with (Zdigits2 m - 1 + k) by lia.
  rewrite !Z.pow_add_r by lia.
  pose proof (Z.pow_pos_nonneg 2 k ltac:(lia) Hk). split; nia.
Qed.

(** The digits of a quotient by a power of two. *)
Lemma Zdigits2_div m k :
  0 < m -> 0 <= k -> k < Zdigits2 m -> Zdigits2 (m / 2 ^ k) = Zdigits2 m - k.
Proof.
  intros Hm Hk Hlt. pose proof (Zdigits2_bounds m Hm) as [Hlo Hhi].
  pose proof (Z.pow_pos_nonneg 2 k ltac:(lia) Hk) as Hpk.
  apply Zdigits2_unique; [lia|]. split.
  - apply Z.div_le_lower_bound; [lia|].
    rewrite <- Z.pow_add_r by lia. replace (k + (Zdigits2 m - k - 1)) with (Zdigits2 m - 1) by lia.
    exact Hlo.
  - apply Z.div_lt_upper_bound; [lia|].
    rewrite <- Z.pow_add_r by lia. replace (k + (Zdigits2 m - k)) with (Zdigits2 m) by lia.
    exact Hhi.
Qed.

Lemma Zdigits2_div_small m k : 0 <= m -> Zdigits2 m <= k -> m / 2 ^ k = 0.
Proof.
  intros Hm Hk. destruct (Z.eq_dec m 0) as [->|Hne]; [apply Z.div_0_l; pose proof (Z.pow_pos_nonneg 2 k); pose proof (Zdigits2_nonneg 0); lia|].
  pose proof (Zdigits2_bounds m ltac:(lia)) as [_ Hhi].
  pose proof (Zdigits2_nonneg m).
  apply Z.div_small. split; [lia|].
  pose proof (Z.pow_le_mono_r 2 (Zdigits2 m) k ltac:(lia) Hk). lia.
Qed.


(** *** Shifting right *)

Lemma iter_pos_nat {A : Type} (f : A -> A) p : forall x,
  SpecFloat.iter_pos f p x = Nat.iter (Pos.to_nat p) f x.
Proof.
  induction p as [p IH|p IH|]; intros x; simpl SpecFloat.iter_pos.
  - rewrite !IH, Pos2Nat.inj_xI. rewrite <- Nat.iter_add.
    replace (Pos.to_nat p + Pos.to_nat p)%nat with (2 * Pos.to_nat p)%nat by lia.
    rewrite <- Nat.iter_succ_r. reflexivity.
  - rewrite !IH, Pos2Nat.inj_xO. rewrite <- Nat.iter_add.
    replace (Pos.to_nat p + Pos.to_nat p)%nat with (2 * Pos.to_nat p)%nat by lia.
    reflexivity.
  - reflexivity.
Qed.

Lemma shr_1_spec m r s :
  0 <= m ->
  shr_1 {| shr_m := m; shr_r := r; shr_s := s |} =
    {| shr_m := m / 2; shr_r := Z.odd m; shr_s := r || s |}.
Proof.
  intros Hm. destruct m as [|p|p]; [reflexivity| |lia].
  destruct p as [p|p|]; unfold shr_1.
  - f_equal. rewrite Pos2Z.inj_xI. apply Z.div_unique with (r := 1); lia.
  - f_equal. rewrite Pos2Z.inj_xO. apply Z.div_unique with (r := 0); lia.
  - reflexivity.
Qed.

Lemma shr_iter_m n : forall m r s,
  0 <= m ->
  shr_m (Nat.iter n shr_1 {| shr_m := m; shr_r := r; shr_s := s |}) = m / 2 ^ Z.of_nat n.
Proof.
  induction n as [|n IH]; intros m r s Hm.
  - simpl. rewrite Z.div_1_r. reflexivity.
  - rewrite Nat.iter_succ_r, shr_1_spec by exact Hm.
    rewrite IH by (apply Z.div_pos; lia).
    rewrite Nat2Z.inj_succ, Z.pow_succ_r by lia.
    rewrite Z.div_div by (try lia; apply Z.pow_pos_nonneg; lia). reflexivity.
Qed.

(** Shifting a multiple of the power of two loses nothing. *)
Lemma shr_iter_exact n : forall m,
  0 <= m -> m mod 2 ^ Z.of_nat n = 0 ->
  loc_of_shr_record (Nat.iter n shr_1 {| shr_m := m; shr_r := false; shr_s := false |})
  = loc_Exact.
Proof.
  induction n as [|n IH]; intros m Hm Hmod; [reflexivity|].
  rewrite Nat.iter_succ_r, shr_1_spec by exact Hm.
  rewrite Nat2Z.inj_succ, Z.pow_succ_r in Hmod by lia.
  pose proof (Z.pow_pos_nonneg 2 (Z.of_nat n) ltac:(lia) ltac:(lia)) as Hp.
  rewrite Z.rem_mul_r in Hmod by lia.
  assert (Heven : m mod 2 = 0).
  {
    pose proof (Z.mod_pos_bound m 2 ltac:(lia)).
    pose proof (Z.mod_pos_bound (m / 2) (2 ^ Z.of_nat n) ltac:(lia)). lia. }
  assert (Hodd : Z.odd m = false).
  { rewrite <- Z.negb_even. rewrite Zeven_mod. rewrite Heven. reflexivity. }
  rewrite Hodd. simpl orb. apply IH; [apply Z.div_pos; lia|].
  pose proof (Z.mod_pos_bound m 2 ltac:(lia)).
  pose proof (Z.mod_pos_bound (m / 2) (2 ^ Z.of_nat n) ltac:(lia)). lia.
Qed.

Lemma round_nearest_even_bounds m l : m <= round_nearest_even m l <= m + 1.
Proof.
  destruct l as [|[| |]]; simpl; try lia. destruct (Z.even m); lia.
Qed.

Lemma shr_fexp_spec m e l :
  0 <= m ->
  let e1 := stage_exp m e in
  snd (shr_fexp prec emax m e l) = e1 /\
  shr_m (fst (shr_fexp prec emax m e l)) = m / 2 ^ (e1 - e) /\
  (e1 = e -> fst (shr_fexp prec emax m e l) = shr_record_of_loc m l) /\
  (l = loc_Exact -> m mod 2 ^ (e1 - e) = 0 ->
     loc_of_shr_record (fst (shr_fexp prec emax m e l)) = loc_Exact).
Proof.
  intros Hm e1. unfold shr_fexp, shr. subst e1. unfold stage_exp.
  set (f := fexp prec emax (Zdigits2 m + e)).
  destruct (f - e) as [|p|p] eqn:Ek.
  - assert (Z.max e f = e) as -> by lia. rewrite Z.sub_diag, Z.div_1_r. simpl.
    repeat split; try reflexivity.
    + destruct l as [|[| |]]; reflexivity.
    + intros -> _. reflexivity.
  - assert (Z.max e f = e + Z.pos p) as -> by lia.
    replace (e + Z.pos p - e) with (Z.pos p) by lia. simpl fst. simpl snd.
    rewrite iter_pos_nat.
    assert (Hp : Z.pos p = Z.of_nat (Pos.to_nat p)) by (rewrite positive_nat_Z; reflexivity).
    rewrite Hp. repeat split.
    + destruct l as [|[| |]]; simpl shr_record_of_loc; apply shr_iter_m; exact Hm.
    + intros Habs. lia.
    + intros -> Hmod. apply shr_iter_exact; assumption.
  - assert (Z.max e f = e) as -> by lia. rewrite Z.sub_diag, Z.div_1_r. simpl.
    repeat split; try reflexivity.
    + destruct l as [|[| |]]; reflexivity.
    + intros -> _. reflexivity.
Qed.


Lemma stage_exp_ge m e : e <= stage_exp m e /\ -1074 <= stage_exp m e.
Proof. unfold stage_exp. pose proof (fexp_emin (Zdigits2 m + e)). lia. Qed.

Lemma stage_digits m e :
  0 <= m -> Zdigits2 (m / 2 ^ (stage_exp m e - e)) <= 53.
Proof.
  intros Hm. pose proof (stage_exp_ge m e) as [Hge _].
  destruct (Z.eq_dec m 0) as [->|Hne].
  { rewrite Z.div_0_l; [simpl; lia|]. pose proof (Z.pow_pos_nonneg 2 (stage_exp 0 e - e)). lia. }
  destruct (Z_lt_le_dec (stage_exp m e - e) (Zdigits2 m)) as [Hlt|Hle].
  - rewrite Zdigits2_div by lia. unfold stage_exp in *. rewrite fexp_spec in *. lia.
  - rewrite Zdigits2_div_small by lia. simpl. lia.
Qed.

Lemma loc_of_shr_record_of_loc m l : loc_of_shr_record (shr_record_of_loc m l) = l.
Proof. destruct l as [|[| |]]; reflexivity. Qed.

Lemma shr_m_record_of_loc m l : shr_m (shr_record_of_loc m l) = m.
Proof. destruct l as [|[| |]]; reflexivity. Qed.

(** What [binary_round_aux] computes. *)
Lemma binary_round_aux_spec s m e l :
  0 <= m ->
  let e1 := stage_exp m e in
  let m1 := m / 2 ^ (e1 - e) in
  exists m2,
    m1 <= m2 <= m1 + 1 /\
    (l = loc_Exact -> m mod 2 ^ (e1 - e) = 0 -> m2 = m1) /\
    (m2 / 2 ^ (stage_exp m2 e1 - e1)) * 2 ^ (stage_exp m2 e1 - e1) = m2 /\
    binary_round_aux prec emax s m e l = round_result s m2 e1.
Proof.
  intros Hm e1 m1. unfold binary_round_aux.
  destruct (shr_fexp_spec m e l Hm) as [He [Hm1 [Hsame Hexact]]].
  fold e1 in He, Hm1, Hsame, Hexact. fold m1 in Hm1.
  destruct (shr_fexp prec emax m e l) as [mrs' e'] eqn:E1. simpl in He, Hm1, Hsame, Hexact.
  subst e'.
  set (m2 := round_nearest_even (shr_m mrs') (loc_of_shr_record mrs')).
  assert (Hm1pos : 0 <= m1).
  { subst m1. apply Z.div_pos; [exact Hm|]. apply Z.pow_pos_nonneg; [lia|].
    pose proof (stage_exp_ge m e). fold e1 in H. lia. }
  assert (Hb : m1 <= m2 <= m1 + 1).
  { subst m2. rewrite Hm1. apply round_nearest_even_bounds. }
  assert (Hm2 : 0 <= m2) by lia.
  destruct (shr_fexp_spec m2 e1 loc_Exact Hm2) as [He2 [Hm3 _]].
  destruct (shr_fexp prec emax m2 e1 loc_Exact) as [mrs'' e''] eqn:E2.
  simpl in He2, Hm3. subst e''.
  exists m2. split; [exact Hb|]. split; [|split].
  - intros Hl Hmod. subst m2. rewrite (Hexact Hl Hmod). simpl. exact Hm1.
  - pose proof (stage_digits m e Hm) as Hd. fold e1 in Hd. fold m1 in Hd.
    pose proof (stage_exp_ge m e) as [_ Hemin]. fold e1 in Hemin.
    assert (Hm1lt : m1 < 2 ^ 53).
    { destruct (Z.eq_dec m1 0) as [->|Hne]; [reflexivity|].
      pose proof (Zdigits2_bounds m1 ltac:(lia)) as [_ Hhi].
      pose proof (Zdigits2_nonneg m1).
      pose proof (Z.pow_le_mono_r 2 (Zdigits2 m1) 53 ltac:(lia) Hd). lia. }
    destruct (Z.eq_dec m2 (2 ^ 53)) as [E|Hne].
    + rewrite E. unfold stage_exp. rewrite fexp_spec.
      change (Zdigits2 (2 ^ 53)) with 54.
      replace (Z.max e1 (Z.max (54 + e1 - 53) (-1074)) - e1) with 1 by lia.
      reflexivity.
    + assert (Hd2 : Zdigits2 m2 <= 53).
      { destruct (Z.eq_dec m2 0) as [->|Hne0]; [simpl; lia|].
        pose proof (Zdigits2_bounds m2 ltac:(lia)) as [Hlo _].
        pose proof (Zdigits2_pos m2 ltac:(lia)).
        assert (Zdigits2 m2 - 1 < 53); [|lia].
        apply pow2_lt_inv; lia. }
      unfold stage_exp. rewrite fexp_spec.
      replace (Z.max e1 (Z.max (Zdigits2 m2 + e1 - 53) (-1074)) - e1) with 0 by lia.
      rewrite Z.div_1_r. lia.
  - unfold round_result. rewrite Hm3. reflexivity.
Qed.


(** *** Comparing dyadic numbers *)

Lemma pow2_pos k : 0 <= k -> 0 < 2 ^ k.
Proof. intros. apply Z.pow_pos_nonneg; lia. Qed.

Lemma pow2_split a b : 0 <= a -> 0 <= b -> 2 ^ (a + b) = 2 ^ a * 2 ^ b.
Proof. intros. apply Z.pow_add_r; assumption. Qed.

Lemma dle_base c m1 e1 m2 e2 :
  c <= e1 -> c <= e2 -> (dle m1 e1 m2 e2 <-> m1 * 2 ^ (e1 - c) <= m2 * 2 ^ (e2 - c)).
Proof.
  intros H1 H2. unfold dle. set (b := Z.min e1 e2).
  replace (e1 - c) with ((e1 - b) + (b - c)) by lia.
  replace (e2 - c) with ((e2 - b) + (b - c)) by lia.
  rewrite !pow2_split by lia.
  pose proof (pow2_pos (b - c) ltac:(lia)). pose proof (pow2_pos (e1 - b) ltac:(lia)).
  pose proof (pow2_pos (e2 - b) ltac:(lia)). split; intros; nia.
Qed.

Lemma dlt_base c m1 e1 m2 e2 :
  c <= e1 -> c <= e2 -> (dlt m1 e1 m2 e2 <-> m1 * 2 ^ (e1 - c) < m2 * 2 ^ (e2 - c)).
Proof.
  intros H1 H2. unfold dlt. set (b := Z.min e1 e2).
  replace (e1 - c) with ((e1 - b) + (b - c)) by lia.
  replace (e2 - c) with ((e2 - b) + (b - c)) by lia.
  rewrite !pow2_split by lia.
  pose proof (pow2_pos (b - c) ltac:(lia)). pose proof (pow2_pos (e1 - b) ltac:(lia)).
  pose proof (pow2_pos (e2 - b) ltac:(lia)). split; intros; nia.
Qed.

Lemma dle_refl m e : dle m e m e.
Proof. unfold dle. lia. Qed.

Lemma dle_trans m1 e1 m2 e2 m3 e3 :
  dle m1 e1 m2 e2 -> dle m2 e2 m3 e3 -> dle m1 e1 m3 e3.
Proof.
  set (c := Z.min e1 (Z.min e2 e3)).
  rewrite (dle_base c m1 e1 m2 e2), (dle_base c m2 e2 m3 e3), (dle_base c m1 e1 m3 e3) by lia.
  lia.
Qed.

Lemma dlt_le m1 e1 m2 e2 : dlt m1 e1 m2 e2 -> dle m1 e1 m2 e2.
Proof. unfold dlt, dle. lia. Qed.

Lemma dle_lt_trans m1 e1 m2 e2 m3 e3 :
  dle m1 e1 m2 e2 -> dlt m2 e2 m3 e3 -> dlt m1 e1 m3 e3.
Proof.
  set (c := Z.min e1 (Z.min e2 e3)).
  rewrite (dle_base c m1 e1 m2 e2), (dlt_base c m2 e2 m3 e3), (dlt_base c m1 e1 m3 e3) by lia.
  lia.
Qed.

Lemma dlt_le_trans m1 e1 m2 e2 m3 e3 :
  dlt m1 e1 m2 e2 -> dle m2 e2 m3 e3 -> dlt m1 e1 m3 e3.
Proof.
  set (c := Z.min e1 (Z.min e2 e3)).
  rewrite (dlt_base c m1 e1 m2 e2), (dle_base c m2 e2 m3 e3), (dlt_base c m1 e1 m3 e3) by lia.
  lia.
Qed.

Lemma dle_total m1 e1 m2 e2 : dle m1 e1 m2 e2 \/ dlt m2 e2 m1 e1.
Proof. unfold dle, dlt. rewrite (Z.min_comm e2 e1). lia. Qed.

Lemma dlt_not_le m1 e1 m2 e2 : dlt m1 e1 m2 e2 -> dle m2 e2 m1 e1 -> False.
Proof. unfold dle, dlt. rewrite (Z.min_comm e2 e1). lia. Qed.

(** The same number written with another exponent. *)
Lemma dle_shift_l m e k m2 e2 : 0 <= k -> (dle (m * 2 ^ k) (e - k) m2 e2 <-> dle m e m2 e2).
Proof.
  intros Hk. set (c := Z.min (e - k) e2).
  rewrite (dle_base c (m * 2 ^ k) (e - k) m2 e2), (dle_base c m e m2 e2) by lia.
  replace (e - c) with (k + (e - k - c)) by lia. rewrite pow2_split by lia.
  rewrite Z.mul_assoc. reflexivity.
Qed.

Lemma dle_shift_r m e k m1 e1 : 0 <= k -> (dle m1 e1 (m * 2 ^ k) (e - k) <-> dle m1 e1 m e).
Proof.
  intros Hk. set (c := Z.min (e - k) e1).
  rewrite (dle_base c m1 e1 (m * 2 ^ k) (e - k)), (dle_base c m1 e1 m e) by lia.
  replace (e - c) with (k + (e - k - c)) by lia. rewrite pow2_split by lia.
  rewrite Z.mul_assoc. reflexivity.
Qed.

Lemma dlt_shift_l m e k m2 e2 : 0 <= k -> (dlt (m * 2 ^ k) (e - k) m2 e2 <-> dlt m e m2 e2).
Proof.
  intros Hk. set (c := Z.min (e - k) e2).
  rewrite (dlt_base c (m * 2 ^ k) (e - k) m2 e2), (dlt_base c m e m2 e2) by lia.
  replace (e - c) with (k + (e - k - c)) by lia. rewrite pow2_split by lia.
  rewrite Z.mul_assoc. reflexivity.
Qed.

Lemma dlt_shift_r m e k m1 e1 : 0 <= k -> (dlt m1 e1 (m * 2 ^ k) (e - k) <-> dlt m1 e1 m e).
Proof.
  intros Hk. set (c := Z.min (e - k) e1).
  rewrite (dlt_base c m1 e1 (m * 2 ^ k) (e - k)), (dlt_base c m1 e1 m e) by lia.
  replace (e - c) with (k + (e - k - c)) by lia. rewrite pow2_split by lia.
  rewrite Z.mul_assoc. reflexivity.
Qed.

(** Magnitudes: a number with more digits (exponent counted) is greater. *)
Lemma dle_digits m1 e1 m2 e2 :
  0 < m1 -> 0 < m2 -> dle m1 e1 m2 e2 -> Zdigits2 m1 + e1 <= Zdigits2 m2 + e2.
Proof.
  intros H1 H2 H. set (c := Z.min e1 e2). apply (dle_base c) in H; try lia.
  pose proof (pow2_pos (e1 - c) ltac:(lia)) as Hp. assert (Hnn : 0 <= m1 * 2 ^ (e1 - c)) by nia.
  pose proof (Zdigits2_mono (m1 * 2 ^ (e1 - c)) (m2 * 2 ^ (e2 - c)) (conj Hnn H)) as Hm.
  rewrite (Zdigits2_shift m1), (Zdigits2_shift m2) in Hm by lia. lia.
Qed.

Lemma digits_dlt m1 e1 m2 e2 :
  0 < m1 -> 0 < m2 -> Zdigits2 m1 + e1 < Zdigits2 m2 + e2 -> dlt m1 e1 m2 e2.
Proof.
  intros H1 H2 H. destruct (dle_total m2 e2 m1 e1) as [Hle|Hlt]; [|exact Hlt].
  pose proof (dle_digits m2 e2 m1 e1 H2 H1 Hle). lia.
Qed.


(** *** Rounding below a number of the format *)

Lemma bounded_spec mx ex :
  bounded prec emax mx ex = true <->
  fexp prec emax (Zdigits2 (Z.pos mx) + ex) = ex /\ ex <= 971.
Proof.
  unfold bounded, canonical_mantissa. rewrite andb_true_iff, Z.eqb_eq, Z.leb_le.
  simpl Zdigits2. change (emax - prec) with 971. reflexivity.
Qed.

Lemma bounded_digits mx ex :
  bounded prec emax mx ex = true -> Zdigits2 (Z.pos mx) <= 53 /\ -1074 <= ex.
Proof.
  intros H. apply bounded_spec in H. destruct H as [H _]. rewrite fexp_spec in H. lia.
Qed.

(** Rounding a number that is at most a number [x] of the format gives at
    most [x], and no infinity. *)
Lemma round_upper s m e l mx ex :
  0 <= m -> bounded prec emax mx ex = true -> e <= ex ->
  dlt m e (Z.pos mx) ex \/ (dle m e (Z.pos mx) ex /\ l = loc_Exact) ->
  match binary_round_aux prec emax s m e l with
  | S754_zero s' => s' = s
  | S754_finite s' p e'' =>
      s' = s /\ e <= e'' /\ e'' <= ex /\ dle (Z.pos p) e'' (Z.pos mx) ex
  | _ => False
  end.
Proof.
  intros Hm Hb Hex Hle.
  destruct (proj1 (bounded_spec mx ex) Hb) as [Hcan Hmax].
  assert (Hle' : m <= Z.pos mx * 2 ^ (ex - e)).
  { assert (H : dle m e (Z.pos mx) ex) by (destruct Hle as [H|[H _]]; [apply dlt_le|]; exact H).
    apply (dle_base e) in H; try lia. rewrite Z.sub_diag in H. simpl in H. lia. }
  assert (HD : Zdigits2 m + e <= Zdigits2 (Z.pos mx) + ex).
  { destruct (Z.eq_dec m 0) as [->|Hne]; [simpl; lia|].
    apply dle_digits; try lia.
    destruct Hle as [H|[H _]]; [apply dlt_le|]; exact H. }
  destruct (binary_round_aux_spec s m e l Hm) as [m2 [Hb2 [Hexact [Hm3 ->]]]].
  set (e1 := stage_exp m e) in *.
  assert (He1 : e <= e1 <= ex).
  { subst e1. unfold stage_exp. pose proof (fexp_mono _ _ HD). lia. }
  pose proof (pow2_pos (e1 - e) ltac:(lia)) as HG.
  set (G := 2 ^ (e1 - e)) in *.
  set (Y := Z.pos mx * 2 ^ (ex - e1)).
  assert (HX : Z.pos mx * 2 ^ (ex - e) = Y * G).
  { subst Y G. replace (ex - e) with ((ex - e1) + (e1 - e)) by lia.
    rewrite pow2_split by lia. ring. }
  assert (Hm1 : 0 <= m / G) by (apply Z.div_pos; lia).
  assert (Hm2 : m2 <= Y).
  { destruct Hle as [Hlt|[_ Hl]].
    - apply (dlt_base e) in Hlt; try lia. rewrite Z.sub_diag in Hlt. simpl in Hlt.
      assert (m / G < Y) by (apply Z.div_lt_upper_bound; [lia|]; nia). lia.
    - destruct (Z.eq_dec m (Y * G)) as [E|Hne].
      + assert (Hmod : m mod G = 0) by (rewrite E; apply Z.mod_mul; lia).
        rewrite (Hexact Hl Hmod). rewrite E, Z.div_mul by lia. lia.
      + assert (m / G < Y) by (apply Z.div_lt_upper_bound; [lia|]; nia). lia. }
  unfold round_result.
  set (e2 := stage_exp m2 e1) in *.
  assert (He2 : e1 <= e2 <= ex).
  { subst e2. unfold stage_exp. split; [lia|].
    destruct (Z.eq_dec m2 0) as [->|Hne].
    - simpl Zdigits2. pose proof (fexp_mono (0 + e1) (Zdigits2 (Z.pos mx) + ex)).
      pose proof (Zdigits2_pos (Z.pos mx)). lia.
    - assert (Hd : Zdigits2 m2 <= Zdigits2 Y) by (apply Zdigits2_mono; lia).
      subst Y. rewrite Zdigits2_shift in Hd by lia.
      pose proof (fexp_mono (Zdigits2 m2 + e1) (Zdigits2 (Z.pos mx) + ex)). lia. }
  pose proof (pow2_pos (e2 - e1) ltac:(lia)) as HG2.
  assert (Hm3pos : 0 <= m2 / 2 ^ (e2 - e1)) by (apply Z.div_pos; lia).
  destruct (m2 / 2 ^ (e2 - e1)) as [|p|p] eqn:E3; [reflexivity| |lia].
  replace (e2 <=? emax - prec) with true by (symmetry; apply Z.leb_le; change (emax - prec) with 971; lia).
  split; [reflexivity|]. split; [lia|]. split; [lia|].
  apply (dle_base e); try lia. rewrite HX.
  replace (e2 - e) with ((e2 - e1) + (e1 - e)) by lia. rewrite pow2_split by lia.
  fold G. rewrite Z.mul_assoc, Hm3. nia.
Qed.


(** *** [binary_round] and [binary_normalize] *)

Lemma iter_xO mx d : Z.pos (Pos.iter xO mx d) = Z.pos mx * 2 ^ Z.pos d.
Proof.
  induction d as [|d IH] using Pos.peano_ind.
  - simpl. lia.
  - rewrite Pos.iter_succ, Pos2Z.inj_xO, IH, Pos2Z.inj_succ, Z.pow_succ_r by lia. ring.
Qed.

Lemma shl_align_spec mx ex ex' :
  snd (shl_align mx ex ex') = Z.min ex ex' /\
  Z.pos (fst (shl_align mx ex ex')) = Z.pos mx * 2 ^ (ex - Z.min ex ex').
Proof.
  unfold shl_align. destruct (ex' - ex) as [|d|d] eqn:E; simpl.
  - replace (Z.min ex ex') with ex by lia. rewrite Z.sub_diag. simpl. lia.
  - replace (Z.min ex ex') with ex by lia. rewrite Z.sub_diag. simpl. lia.
  - replace (Z.min ex ex') with ex' by lia. rewrite iter_xO.
    replace (ex - ex') with (Z.pos d) by lia. split; reflexivity.
Qed.

(** [binary_round] as a rounding of the aligned mantissa. *)
Lemma binary_round_aligned s mx ex :
  exists mz ez,
    binary_round prec emax s mx ex = binary_round_aux prec emax s (Z.pos mz) ez loc_Exact /\
    ez <= ex /\ ez <= fexp prec emax (Zdigits2 (Z.pos mx) + ex) /\
    Z.pos mz = Z.pos mx * 2 ^ (ex - ez) /\
    Zdigits2 (Z.pos mz) + ez = Zdigits2 (Z.pos mx) + ex.
Proof.
  unfold binary_round.
  pose proof (shl_align_spec mx ex (fexp prec emax (Z.pos (digits2_pos mx) + ex))) as [He Hmz].
  destruct (shl_align mx ex (fexp prec emax (Z.pos (digits2_pos mx) + ex))) as [mz ez].
  simpl in He, Hmz. exists mz, ez. split; [reflexivity|].
  change (Zdigits2 (Z.pos mx)) with (Z.pos (digits2_pos mx)).
  split; [rewrite He; apply Z.le_min_l|]. split; [rewrite He; apply Z.le_min_r|].
  rewrite <- He in Hmz. split; [exact Hmz|].
  rewrite Hmz, Zdigits2_shift by lia. simpl Zdigits2. lia.
Qed.

Lemma binary_round_upper s m e mx ex :
  bounded prec emax mx ex = true ->
  dle (Z.pos m) e (Z.pos mx) ex ->
  match binary_round prec emax s m e with
  | S754_zero s' => s' = s
  | S754_finite s' p e'' => s' = s /\ e'' <= ex /\ dle (Z.pos p) e'' (Z.pos mx) ex
  | _ => False
  end.
Proof.
  intros Hb Hle. destruct (binary_round_aligned s m e) as [mz [ez [-> [He [Hf [Hmz Hd]]]]]].
  destruct (proj1 (bounded_spec mx ex) Hb) as [Hcan _].
  assert (Hle' : dle (Z.pos mz) ez (Z.pos mx) ex).
  { rewrite Hmz. replace ez with (e - (e - ez)) at 2 by lia. apply dle_shift_l; [lia|exact Hle]. }
  assert (Hez : ez <= ex).
  { pose proof (dle_digits (Z.pos m) e (Z.pos mx) ex ltac:(lia) ltac:(lia) Hle) as HD.
    pose proof (fexp_mono _ _ HD). lia. }
  pose proof (round_upper s (Z.pos mz) ez loc_Exact mx ex ltac:(lia) Hb Hez
                (or_intror (conj Hle' eq_refl))) as H.
  destruct (binary_round_aux prec emax s (Z.pos mz) ez loc_Exact); try exact H.
  destruct H as [H1 [_ [H3 H4]]]. repeat split; assumption.
Qed.

(** [binary_round] gives a number of the format. *)
Lemma binary_round_valid s m e : valid_binary (binary_round prec emax s m e) = true.
Proof.
  destruct (binary_round_aligned s m e) as [mz [ez [-> [He [Hf [Hmz Hd]]]]]].
  destruct (binary_round_aux_spec s (Z.pos mz) ez loc_Exact ltac:(lia)) as [m2 [Hb2 [_ [Hm3 ->]]]].
  set (e1 := stage_exp (Z.pos mz) ez) in *.
  assert (He1 : e1 = fexp prec emax (Zdigits2 (Z.pos mz) + ez)).
  { subst e1. unfold stage_exp. rewrite Hd. lia. }
  pose proof (pow2_pos (e1 - ez) ltac:(rewrite He1, Hd; lia)) as HG.
  assert (Hm1 : 0 <= Z.pos mz / 2 ^ (e1 - ez)) by (apply Z.div_pos; lia).
  unfold round_result. set (e2 := stage_exp m2 e1) in *.
  assert (He2 : e1 <= e2) by (subst e2; unfold stage_exp; lia).
  pose proof (pow2_pos (e2 - e1) ltac:(lia)) as HG2.
  destruct (m2 / 2 ^ (e2 - e1)) as [|p|p] eqn:E3; [reflexivity| |reflexivity].
  destruct (e2 <=? emax - prec) eqn:Eo; [|reflexivity].
  simpl. apply bounded_spec. apply Z.leb_le in Eo. change (emax - prec) with 971 in Eo.
  split; [|exact Eo].
  assert (Hd2 : Zdigits2 m2 = Zdigits2 (Z.pos p) + (e2 - e1)).
  { rewrite <- Hm3. apply Zdigits2_shift; lia. }
  replace (Zdigits2 (Z.pos p) + e2) with (Zdigits2 m2 + e1) by lia.
  subst e2. unfold stage_exp.
  assert (Hge : e1 <= fexp prec emax (Zdigits2 m2 + e1)); [|lia].
  rewrite He1 at 1. rewrite !fexp_spec.
  destruct (Z_le_gt_dec (Zdigits2 (Z.pos mz) + ez - 53) (-1074)) as [Hsub|Hnorm]; [lia|].
  assert (Hk : e1 - ez = Zdigits2 (Z.pos mz) - 53) by (rewrite He1, fexp_spec; lia).
  assert (Hd1 : Zdigits2 (Z.pos mz / 2 ^ (e1 - ez)) = 53).
  { rewrite Zdigits2_div; try lia. rewrite Hd in *. rewrite He1, fexp_spec. lia. }
  assert (Hd2' : 53 <= Zdigits2 m2).
  { rewrite <- Hd1. apply Zdigits2_mono. lia. }
  lia.
Qed.

Lemma binary_normalize_valid m e sz : valid_binary (binary_normalize prec emax m e sz) = true.
Proof. destruct m; simpl; [reflexivity|apply binary_round_valid|apply binary_round_valid]. Qed.

End Binary64Facts.

(** ** The token bucket in binary64 *)

Module Security64Facts.
Import PyNum Security64 Binary64 Binary64Facts.
Local Open Scope Z_scope.

Lemma le_Z_finite f m e z :
  Prim2SF f = S754_finite false m e ->
  (le_Z (Flt f) z = true <-> dle (Z.pos m) e z 0).
Proof.
  intros H. unfold le_Z, compare_Z, compare_float_Z. rewrite H. simpl cond_Zopp.
  unfold dle. destruct (0 <=? e) eqn:E.
  - apply Z.leb_le in E. rewrite Z.min_r by lia.
    replace (e - 0) with e by lia. rewrite Z.sub_diag. change (2 ^ 0) with 1.
    destruct (Z.compare_spec (Z.pos m * 2 ^ e) z); split; intros; try lia; try discriminate; reflexivity.
  - apply Z.leb_gt in E. rewrite Z.min_l by lia.
    replace (0 - e) with (- e) by lia. rewrite Z.sub_diag. change (2 ^ 0) with 1.
    destruct (Z.compare_spec (Z.pos m) (z * 2 ^ (- e))); split; intros; try lia; try discriminate; reflexivity.
Qed.

Lemma ge_Z_finite f m e z :
  Prim2SF f = S754_finite false m e ->
  (ge_Z (Flt f) z = true <-> dle z 0 (Z.pos m) e).
Proof.
  intros H. unfold ge_Z, compare_Z, compare_float_Z. rewrite H. simpl cond_Zopp.
  unfold dle. destruct (0 <=? e) eqn:E.
  - apply Z.leb_le in E. rewrite Z.min_l by lia.
    replace (e - 0) with e by lia. rewrite Z.sub_diag. change (2 ^ 0) with 1.
    destruct (Z.compare_spec (Z.pos m * 2 ^ e) z); split; intros; try lia; try discriminate; reflexivity.
  - apply Z.leb_gt in E. rewrite Z.min_r by lia.
    replace (0 - e) with (- e) by lia. rewrite Z.sub_diag. change (2 ^ 0) with 1.
    destruct (Z.compare_spec (Z.pos m) (z * 2 ^ (- e))); split; intros; try lia; try discriminate; reflexivity.
Qed.

(** A float that is at most an int is no NaN: the two tests of [consume]
    and [min] are each other's negation on it. *)
Lemma le_Z_compares a z : le_Z a z = true -> forall n, lt_Z a n = negb (ge_Z a n).
Proof.
  unfold le_Z, lt_Z, ge_Z. intros H n. destruct a as [t|f]; simpl in *.
  - destruct (t ?= n); reflexivity.
  - unfold compare_float_Z in *. destruct (Prim2SF f) as [s|s| |s m e]; try discriminate.
    + destruct (0 ?= n); reflexivity.
    + destruct s; reflexivity.
    + destruct (0 <=? e); match goal with |- context [?a ?= ?b] => destruct (a ?= b) end; reflexivity.
Qed.

Lemma max_float_bounded : bounded prec emax (2 ^ 53 - 1)%positive 971 = true.
Proof. vm_compute. reflexivity. Qed.

(** [float(z)] returns for every int up to the greatest float. *)
Lemma float_of_Z_returns z :
  Z.abs z <= max_float_Z -> exists g, float_of_Z z = Ok g.
Proof.
  intros H. unfold float_of_Z.
  assert (B : forall s p, Z.pos p <= max_float_Z ->
     match binary_round prec emax s p 0 with S754_infinity _ => False | _ => True end).
  { intros s p Hp. pose proof (binary_round_upper s p 0 _ _ max_float_bounded) as U.
    destruct (binary_round prec emax s p 0); try exact I. apply U.
    apply (dle_base 0); [lia|lia|]. change (2 ^ (0 - 0)) with 1.
    change (Z.pos (2 ^ 53 - 1) * 2 ^ (971 - 0)) with max_float_Z. lia. }
  destruct z as [|p|p]; simpl.
  - eexists; reflexivity.
  - specialize (B false p ltac:(lia)).
    destruct (binary_round prec emax false p 0); try (eexists; reflexivity). destruct B.
  - specialize (B true p ltac:(lia)).
    destruct (binary_round prec emax true p 0); try (eexists; reflexivity). destruct B.
Qed.

(** [float(n)] for an int [n >= 0] that is at most a float [x >= 0] returns,
    and is at most [x] too. *)
Lemma float_of_Z_upper n mx ex :
  0 <= n -> bounded prec emax mx ex = true -> dle n 0 (Z.pos mx) ex ->
  exists g, float_of_Z n = Ok g /\
    (Prim2SF g = S754_zero false \/
     exists p e, Prim2SF g = S754_finite false p e /\ dle (Z.pos p) e (Z.pos mx) ex).
Proof.
  intros Hn Hb Hle. unfold float_of_Z. destruct n as [|p|p]; [| |lia].
  - exists (SF2Prim (S754_zero false)). split; [reflexivity|]. left.
    apply Prim2SF_SF2Prim. reflexivity.
  - change (binary_normalize prec emax (Z.pos p) 0 false)
      with (binary_round prec emax false p 0).
    pose proof (binary_round_upper false p 0 mx ex Hb Hle) as U.
    pose proof (binary_round_valid false p 0) as V.
    destruct (binary_round prec emax false p 0) as [s|s| |s q e]; try (destruct U; fail).
    + subst s. exists (SF2Prim (S754_zero false)). split; [reflexivity|]. left.
      apply Prim2SF_SF2Prim. reflexivity.
    + destruct U as [-> [_ U]]. exists (SF2Prim (S754_finite false q e)).
      split; [reflexivity|]. right.
      exists q, e. split; [apply Prim2SF_SF2Prim; exact V|exact U].
Qed.

(** The decrement of a float count: for [0 <= n <= f <= cap] the request
    converts, and the difference is at most [cap]. *)
Lemma sub_Z_upper f n cap :
  0 <= n -> le_Z (Flt f) cap = true -> ge_Z (Flt f) n = true ->
  exists g, float_of_Z n = Ok g /\ le_Z (Flt (f - g)) cap = true.
Proof.
  intros Hn Hle Hge.
  pose proof (Prim2SF_valid f) as V.
  destruct (Prim2SF f) as [s|s| |s m e] eqn:Ef.
  - (* a zero *)
    assert (n = 0).
    { unfold ge_Z, compare_Z, compare_float_Z in Hge. rewrite Ef in Hge.
      destruct (Z.compare_spec 0 n); try lia; discriminate. }
    subst n. exists (SF2Prim (S754_zero false)). split; [reflexivity|].
    revert Hle. unfold le_Z, compare_Z, compare_float_Z. rewrite sub_spec, Ef.
    rewrite Prim2SF_SF2Prim by reflexivity. destruct s; simpl; exact (fun H => H).
  - unfold le_Z, ge_Z, compare_Z, compare_float_Z in *. rewrite Ef in *.
    destruct s; discriminate.
  - unfold le_Z, compare_Z, compare_float_Z in Hle. rewrite Ef in Hle. discriminate.
  - assert (s = false).
    { destruct s; [|reflexivity]. exfalso.
      unfold ge_Z, compare_Z, compare_float_Z in Hge. rewrite Ef in Hge. simpl cond_Zopp in Hge.
      destruct (0 <=? e) eqn:E.
      - pose proof (pow2_pos e ltac:(lia)).
        destruct (Z.compare_spec (- (Z.pos m * 2 ^ e)) n); try discriminate; nia.
      - apply Z.leb_gt in E. pose proof (pow2_pos (- e) ltac:(lia)).
        destruct (Z.compare_spec (- Z.pos m) (n * 2 ^ (- e))); try discriminate; nia. }
    subst s. simpl in V.
    apply (ge_Z_finite _ _ _ _ Ef) in Hge. apply (le_Z_finite _ _ _ _ Ef) in Hle.
    destruct (float_of_Z_upper n m e Hn V Hge) as [g [Hg Hv]].
    exists g. split; [exact Hg|].
    destruct Hv as [Hz|[p [ey [Hp Hd]]]].
    + assert (E : Prim2SF (f - g) = S754_finite false m e).
      { rewrite sub_spec, Ef, Hz. reflexivity. }
      apply (le_Z_finite _ _ _ _ E). exact Hle.
    + pose proof (Prim2SF_valid g) as Vg. rewrite Hp in Vg. simpl in Vg.
      assert (E : Prim2SF (f - g) =
                  binary_normalize prec emax
                    (Z.pos (fst (shl_align m e (Z.min e ey))) -
                     Z.pos (fst (shl_align p ey (Z.min e ey)))) (Z.min e ey) false).
      { rewrite sub_spec, Ef, Hp. reflexivity. }
      destruct (shl_align_spec m e (Z.min e ey)) as [_ HA].
      destruct (shl_align_spec p ey (Z.min e ey)) as [_ HB].
      replace (Z.min e (Z.min e ey)) with (Z.min e ey) in HA by lia.
      replace (Z.min ey (Z.min e ey)) with (Z.min e ey) in HB by lia.
      set (A := Z.pos (fst (shl_align m e (Z.min e ey)))) in *.
      set (B := Z.pos (fst (shl_align p ey (Z.min e ey)))) in *.
      assert (HBA : B <= A).
      { rewrite HA, HB. unfold dle in Hd. rewrite (Z.min_comm ey e) in Hd. exact Hd. }
      assert (Hcap : 0 < cap).
      { unfold dle in Hle.
        pose proof (pow2_pos (e - Z.min e 0) ltac:(lia)).
        pose proof (pow2_pos (0 - Z.min e 0) ltac:(lia)). nia. }
      destruct (A - B) as [|d|d] eqn:ED; [| |lia].
      * simpl in E. unfold le_Z, compare_Z, compare_float_Z. rewrite E.
        destruct (Z.compare_spec 0 cap); try reflexivity; lia.
      * simpl in E.
        assert (Hdm : dle (Z.pos d) (Z.min e ey) (Z.pos m) e).
        { apply (dle_base (Z.min e ey)); [lia|lia|]. rewrite Z.sub_diag. change (2 ^ 0) with 1.
          rewrite <- HA. lia. }
        pose proof (binary_round_upper false d (Z.min e ey) m e V Hdm) as U.
        destruct (binary_round prec emax false d (Z.min e ey)) as [s|s| |s q eq]; try (destruct U; fail).
        -- unfold le_Z, compare_Z, compare_float_Z. rewrite E.
           destruct (Z.compare_spec 0 cap); try reflexivity; lia.
        -- destruct U as [-> [_ U]]. apply (le_Z_finite _ _ _ _ E).
           eapply dle_trans; [exact U|exact Hle].
Qed.

Lemma le_Z_refl z : le_Z (Int z) z = true.
Proof. unfold le_Z. simpl. rewrite Z.compare_refl. reflexivity. Qed.

Lemma init_within cap rate t0 :
  Z.abs cap <= max_float_Z -> within_capacity (TokenBucket_init cap rate t0).
Proof. intros H. split; [apply le_Z_refl|]. split; exact H. Qed.

(** The lazy refill returns, and keeps the count at or below the capacity. *)
Lemma refill_within now b :
  within_capacity b ->
  exists b1, refill now b = Ok b1 /\ within_capacity b1 /\ capacity b1 = capacity b.
Proof.
  intros [H1 [H2 H3]]. unfold refill.
  destruct (gt_Z _ 0); [|exists b; repeat split; assumption].
  assert (exists s, add_float (tokens b) ((now - last_refill b) * refill_rate b) = Ok s) as [s ->].
  { destruct (tokens b) as [t|f]; simpl.
    - destruct (float_of_Z_returns t H3) as [g ->]. eexists; reflexivity.
    - eexists; reflexivity. }
  simpl. eexists; split; [reflexivity|]. split; [|reflexivity].
  unfold within_capacity; simpl. destruct (lt_Z (Flt s) (capacity b)) eqn:E.
  - split; [|split; [exact H2|exact I]].
    unfold lt_Z in E. unfold le_Z. destruct (compare_Z (Flt s) (capacity b)) as [[| |]|]; try discriminate.
    reflexivity.
  - split; [apply le_Z_refl|]. split; exact H2.
Qed.

(** A request that is not negative is answered, and the count stays at or
    below the capacity. *)
Lemma consume_within now n b :
  0 <= n -> within_capacity b ->
  exists r, fst (consume now n b) = Ok r /\
            within_capacity (snd (consume now n b)) /\
            capacity (snd (consume now n b)) = capacity b.
Proof.
  intros Hn Hb. unfold consume.
  destruct (refill_within now b Hb) as [b1 [-> [[H1 [H2 H3]] Hc]]].
  destruct (ge_Z (tokens b1) n) eqn:G.
  - destruct (tokens b1) as [t|f] eqn:T; simpl.
    + exists true. split; [reflexivity|]. split; [|exact Hc].
      unfold ge_Z in G. simpl in G. unfold le_Z in H1. simpl in H1.
      assert (n <= t) by (destruct (Z.compare_spec t n); try lia; discriminate).
      assert (t <= capacity b1) by (destruct (Z.compare_spec t (capacity b1)); try lia; discriminate).
      unfold within_capacity; simpl. split; [|split; [exact H2|lia]].
      unfold le_Z; simpl. destruct (Z.compare_spec (t - n) (capacity b1)); try reflexivity; lia.
    + destruct (sub_Z_upper f n (capacity b1) Hn H1 G) as [g [-> Hle]]. simpl.
      exists true. split; [reflexivity|]. split; [|exact Hc].
      unfold within_capacity; simpl. split; [exact Hle|]. split; [exact H2|exact I].
  - exists false. split; [reflexivity|]. split; [|exact Hc]. split; [exact H1|]. split; assumption.
Qed.

Lemma consume_all_within calls : forall b,
  Forall (fun c => 0 <= snd c) calls -> within_capacity b ->
  within_capacity (consume_all calls b) /\ capacity (consume_all calls b) = capacity b.
Proof.
  induction calls as [|[now n] calls IH]; intros b Hall Hb; simpl; [split; [exact Hb|reflexivity]|].
  inversion Hall as [|c cs Hn Hrest]; subst. simpl in Hn.
  destruct (consume_within now n b Hn Hb) as [r [_ [Hw Hc]]].
  destruct (IH _ Hrest Hw) as [IH1 IH2]. split; [exact IH1|]. rewrite IH2. exact Hc.
Qed.

(** C5, as stated, fails in four ways.  A full bucket of capacity 1 that is
    asked for -1 tokens grants the request and holds 2 tokens afterwards.
    A bucket of capacity 2^54 that holds 2^53 + 2 tokens after a refill
    grants a request of 1 token and holds 2^53 tokens afterwards: the
    difference 2^53 + 1 is no binary64 number.  A bucket of capacity 2^1024
    answers the first request for which a refill is due with an
    [OverflowError].  And so does a bucket of capacity 10 whose count a
    refill has made the float 6.0, when it is asked for -2^1024 tokens, a
    request below its count. *)
Lemma consume_counterexamples :
  (fst (consume 0 (-1) (TokenBucket_init 1 1 0)) = Ok true /\
   tokens (snd (consume 0 (-1) (TokenBucket_init 1 1 0))) = Int 2 /\
   le_Z (Int 2) 1 = false) /\
  (let b := consume_all [(0%float, 2 ^ 53); (2%float, 0)] (TokenBucket_init (2 ^ 54) 1 0) in
   refill 2 b = Ok b /\
   compare_Z (tokens b) (2 ^ 53 + 2) = Some Eq /\
   fst (consume 2 1 b) = Ok true /\
   compare_Z (tokens (snd (consume 2 1 b))) (2 ^ 53) = Some Eq) /\
  consume 1 1 (TokenBucket_init (2 ^ 1024) 1 0) =
    (Raise int_too_large, TokenBucket_init (2 ^ 1024) 1 0) /\
  (let b := consume_all [(0%float, 5)] (TokenBucket_init 10 1 0) in
   match refill 1 b with
   | Ok b1 => tokens b1 = Flt 6 /\ ge_Z (tokens b1) (- 2 ^ 1024) = true
   | Raise _ => False
   end /\
   fst (consume 1 (- 2 ^ 1024) b) = Raise int_too_large).
Proof. vm_compute. repeat split. Qed.

(** C5, amended.  Take a bucket whose capacity is within the range of the
    floats and whose [consume] calls so far had requests that are not
    negative.  Its count is at most [capacity].  The lazy refill of a
    further call returns and leaves a count of at most [capacity], the
    tokens available.  A request above the tokens available is refused and
    leaves the token count unchanged.  A request of at most the available
    tokens is granted and leaves Python's [tokens - n]: the exact difference
    while the count is the int it started as; the nearest binary64 number
    to the difference of the count and [float(n)] once a refill has made
    the count a float, for a request that is not below minus the greatest
    float.  After a granted request that is not negative the count is at
    most [capacity] again. *)
Theorem consume_contract_binary64 (cap : Z) (rate t0 : float)
  (calls : list (float * Z)) (now : float) (n : Z)
  (Hcap : Z.abs cap <= max_float_Z)
  (Hcalls : Forall (fun c => 0 <= snd c) calls) :
  let b := consume_all calls (TokenBucket_init cap rate t0) in
  capacity b = cap /\
  le_Z (tokens b) cap = true /\
  exists b1,
    refill now b = Ok b1 /\
    le_Z (tokens b1) cap = true /\
    lt_Z (tokens b1) n = negb (ge_Z (tokens b1) n) /\
    (lt_Z (tokens b1) n = true -> consume now n b = (Ok false, b1)) /\
    (ge_Z (tokens b1) n = true ->
       (forall a, tokens b1 = Int a ->
          consume now n b = (Ok true, set_tokens b1 (Int (a - n)))) /\
       (forall f, tokens b1 = Flt f -> - max_float_Z <= n ->
          exists g, float_of_Z n = Ok g /\
                    consume now n b = (Ok true, set_tokens b1 (Flt (f - g)))) /\
       (0 <= n ->
          fst (consume now n b) = Ok true /\
          le_Z (tokens (snd (consume now n b))) cap = true)).
Proof.
  intros b.
  destruct (consume_all_within calls (TokenBucket_init cap rate t0) Hcalls
              (init_within cap rate t0 Hcap)) as [Hw Hc].
  fold b in Hw, Hc. simpl in Hc.
  split; [exact Hc|]. split; [rewrite <- Hc; apply Hw|].
  destruct (refill_within now b Hw) as [b1 [Hr [Hw1 Hc1]]].
  exists b1. split; [exact Hr|].
  assert (Hle : le_Z (tokens b1) cap = true) by (rewrite <- Hc, <- Hc1; apply Hw1).
  split; [exact Hle|]. split; [apply (le_Z_compares _ _ Hle)|].
  split.
  - intros Hlt. unfold consume. rewrite Hr.
    rewrite (le_Z_compares _ _ Hle) in Hlt. apply negb_true_iff in Hlt. rewrite Hlt. reflexivity.
  - intros Hge. unfold consume. rewrite Hr, Hge. split; [|split].
    + intros a Ha. rewrite Ha. reflexivity.
    + intros f Hf Hlow. rewrite Hf. simpl.
      assert (exists g, float_of_Z n = Ok g) as [g Hg].
      { destruct (Z_le_gt_dec 0 n) as [Hn|Hn].
        - rewrite Hf in Hge, Hle.
          destruct (sub_Z_upper f n cap Hn Hle Hge) as [g [Hg _]]. exists g. exact Hg.
        - apply float_of_Z_returns. lia. }
      exists g. rewrite Hg. split; reflexivity.
    + intros Hn. destruct (tokens b1) as [a|f] eqn:T.
      * simpl. split; [reflexivity|].
        unfold ge_Z in Hge. simpl in Hge. unfold le_Z in Hle. simpl in Hle.
        assert (n <= a) by (destruct (Z.compare_spec a n); try lia; discriminate).
        assert (a <= cap) by (destruct (Z.compare_spec a cap); try lia; discriminate).
        unfold le_Z; simpl. destruct (Z.compare_spec (a - n) cap); try reflexivity; lia.
      * destruct (sub_Z_upper f n cap Hn Hle Hge) as [g [Hg Hle']].
        simpl. rewrite Hg. simpl. split; [reflexivity|exact Hle'].
Qed.

Lemma consume_contract_binary64_witness :
  let b := consume_all [(1%float, 1); (2%float, 3)] (TokenBucket_init 2 0.5 0) in
  le_Z (tokens b) 2 = true /\
  fst (consume 3 1 b) = Ok true /\
  fst (consume 3 5 b) = Ok false.
Proof.
  assert (Hcap : Z.abs 2 <= max_float_Z) by (vm_compute; discriminate).
  assert (Hc : Forall (fun c : float * Z => 0 <= snd c) [(1%float, 1); (2%float, 3)])
    by (repeat constructor; simpl; lia).
  pose proof (consume_contract_binary64 2 0.5 0 _ 3 1 Hcap Hc) as H1.
  pose proof (consume_contract_binary64 2 0.5 0 _ 3 5 Hcap Hc) as H5.
  cbv zeta in H1, H5.
  destruct H1 as [_ [Hb [b1 [Hr1 [_ [_ [_ Hg]]]]]]].
  destruct H5 as [_ [_ [b5 [Hr5 [_ [_ [Hr _]]]]]]].
  cbv zeta. split; [exact Hb|]. split.
  - assert (G : ge_Z (tokens b1) 1 = true).
    { vm_compute in Hr1. injection Hr1 as <-. vm_compute. reflexivity. }
    destruct (Hg G) as [_ [_ Hn]]. apply Hn. lia.
  - assert (L : lt_Z (tokens b5) 5 = true).
    { vm_compute in Hr5. injection Hr5 as <-. vm_compute. reflexivity. }
    rewrite (Hr L). reflexivity.
Defined.

(** X8.  A bucket as the manager creates them is not always full a minute
    after it was emptied.  With a limit of 60 a minute the refill
    [60.0 * (60 / 60.0)] is 60.0 and a request of 60 is granted; with a
    limit of 123 the refill [60.0 * (123 / 60.0)] is 122.99999999999999 in
    binary64, and a request of 123 is refused. *)
Theorem bucket_after_a_minute :
  match manager_bucket 60 0 with
  | Ok b =>
      tokens (snd (consume 0 60 b)) = Int 0 /\
      fst (consume 60 60 (snd (consume 0 60 b))) = Ok true
  | Raise _ => False
  end /\
  match manager_bucket 123 0 with
  | Ok b =>
      tokens (snd (consume 0 123 b)) = Int 0 /\
      consume 60 123 (snd (consume 0 123 b)) =
        (Ok false,
         {| capacity := 123; tokens := Flt 0x1.ebfffffffffffp+6;
            refill_rate := 123 / 60; last_refill := 60 |})
  | Raise _ => False
  end.
Proof. split; vm_compute; split; reflexivity. Qed.

End Security64Facts.

(** ** Binary64 values that are no NaN *)

Module Binary64MoreFacts.
Import Binary64 Binary64Facts.
Local Open Scope Z_scope.

Lemma round_result_rounded s m2 e1 : 0 <= m2 -> rounded s e1 (round_result s m2 e1).
Proof.
  intros Hm. unfold round_result.
  pose proof (stage_exp_ge m2 e1) as [Hge _].
  pose proof (pow2_pos (stage_exp m2 e1 - e1) ltac:(lia)) as Hp.
  pose proof (Z.div_pos m2 _ Hm Hp) as Hq.
  destruct (m2 / 2 ^ (stage_exp m2 e1 - e1)) as [|p|p]; simpl; [reflexivity| |lia].
  destruct (stage_exp m2 e1 <=? emax - prec); simpl; [split; [reflexivity|exact Hge]|reflexivity].
Qed.

(** [binary_round_aux] on a mantissa that is not negative gives no NaN. *)
Lemma binary_round_aux_rounded s m e l :
  0 <= m -> rounded s e (binary_round_aux prec emax s m e l).
Proof.
  intros Hm. destruct (binary_round_aux_spec s m e l Hm) as [m2 [Hb [_ [_ ->]]]].
  pose proof (stage_exp_ge m e) as [Hge _].
  pose proof (pow2_pos (stage_exp m e - e) ltac:(lia)) as Hp.
  pose proof (Z.div_pos m _ Hm Hp) as Hq.
  pose proof (round_result_rounded s m2 (stage_exp m e) ltac:(lia)) as R.
  destruct (round_result s m2 (stage_exp m e)); simpl in *; try exact R.
  destruct R as [R1 R2]. split; [exact R1|lia].
Qed.

Lemma binary_round_rounded s m e : rounded s (-1074) (binary_round prec emax s m e).
Proof.
  destruct (binary_round_aligned s m e) as [mz [ez [-> _]]].
  pose proof (binary_round_aux_spec s (Z.pos mz) ez loc_Exact ltac:(lia)) as [m2 [Hb [_ [_ E]]]].
  rewrite E.
  pose proof (pow2_pos (stage_exp (Z.pos mz) ez - ez)
                ltac:(pose proof (stage_exp_ge (Z.pos mz) ez); lia)) as Hp.
  pose proof (Z.div_pos (Z.pos mz) _ ltac:(lia) Hp) as Hq.
  pose proof (round_result_rounded s m2 (stage_exp (Z.pos mz) ez) ltac:(lia)) as R.
  pose proof (stage_exp_ge (Z.pos mz) ez) as [_ Hlo].
  destruct (round_result s m2 (stage_exp (Z.pos mz) ez)); simpl in *; try exact R.
  destruct R as [R1 R2]. split; [exact R1|lia].
Qed.

Lemma rounded_nonneg lo x : rounded false lo x -> nonneg x.
Proof. destruct x as [s|s| |s m e]; simpl; try (intros ->; exact I); [intros []|intros [-> _]; exact I]. Qed.

Lemma finite_nonneg_nonneg x : finite_nonneg x -> nonneg x.
Proof. destruct x as [s|[|]| |[|] m e]; simpl; auto. Qed.

Lemma count_like_finite x : count_like x -> finite_nonneg x.
Proof. destruct x as [s|[|]| |[|] m e]; simpl; auto. Qed.

(** Sums of values that are not negative are not negative. *)
Lemma SFadd_nonneg x y : nonneg x -> nonneg y -> nonneg (SFadd prec emax x y).
Proof.
  destruct x as [[|]|[|]| |[|] mx ex], y as [[|]|[|]| |[|] my ey]; simpl; try tauto.
  intros _ _. apply (rounded_nonneg (-1074)). apply binary_round_rounded.
Qed.

(** Products of numbers that are not negative are not negative. *)
Lemma SFmul_nonneg x y : finite_nonneg x -> finite_nonneg y -> nonneg (SFmul prec emax x y).
Proof.
  destruct x as [[|]|[|]| |[|] mx ex], y as [[|]|[|]| |[|] my ey]; simpl; try tauto.
  intros _ _. apply (rounded_nonneg (ex + ey)). apply binary_round_aux_rounded. lia.
Qed.

(** The square root of a value that is not negative is zero, plus infinity,
    or a positive number whose exponent is at least -589. *)
Lemma SFsqrt_rounded x :
  nonneg x -> valid_binary x = true ->
  (exists s, SFsqrt prec emax x = S754_zero s) \/ norm_like (SFsqrt prec emax x).
Proof.
  destruct x as [[|]|[|]| |[|] mx ex]; simpl; try tauto; try (left; eexists; reflexivity).
  intros _ V. apply bounded_digits in V. destruct V as [_ Hex].
  unfold SFsqrt_core_binary.
  set (d := Zdigits2 (Z.pos mx)).
  set (e' := Z.min (fexp prec emax (Z.div2 (d + ex + 1))) (Z.div2 ex)).
  assert (Hd : 0 < d) by (apply Zdigits2_pos; lia).
  assert (He' : -589 <= e').
  { subst e'. rewrite fexp_spec, !Z.div2_div.
    pose proof (Z.div_le_mono (-1074) ex 2 ltac:(lia) Hex) as H1.
    pose proof (Z.div_le_mono (-1072) (d + ex + 1) 2 ltac:(lia) ltac:(lia)) as H2.
    change (-1074 / 2) with (-537) in H1. change (-1072 / 2) with (-536) in H2. lia. }
  set (m' := match ex - 2 * e' with
             | 0 => Z.pos mx
             | Z.pos _ => Z.shiftl (Z.pos mx) (ex - 2 * e')
             | Z.neg _ => 0
             end).
  pose proof (Z.sqrtrem_spec m') as Hs.
  assert (Hm' : 0 <= m').
  { subst m'. destruct (ex - 2 * e') eqn:E; try lia. apply Z.shiftl_nonneg. lia. }
  specialize (Hs Hm').
  destruct (Z.sqrtrem m') as [q r]. destruct Hs as [_ Hr].
  assert (Hq : 0 <= q).
  { pose proof (Z.sqrtrem_sqrt m') as Hq. destruct (Z.sqrtrem m') as [q' r'] eqn:E'.
    pose proof (Z.sqrt_nonneg m'). lia. }
  pose proof (binary_round_aux_rounded false q e'
     (if r =? 0 then loc_Exact else loc_Inexact (if r <=? q then Lt else Gt)) Hq) as R.
  destruct (binary_round_aux prec emax false q e' _) as [s|s| |s p e]; simpl in *.
  - left. eexists; reflexivity.
  - right. subst s. exact I.
  - destruct R.
  - right. destruct R as [-> R2]. lia.
Qed.

(** A count divided by a norm is zero or a positive number: it does not
    overflow. *)
Lemma SFdiv_finite x y :
  count_like x -> valid_binary x = true -> norm_like y -> valid_binary y = true ->
  finite_nonneg (SFdiv prec emax x y).
Proof.
  destruct x as [[|]|[|]| |[|] mx ex], y as [[|]|[|]| |[|] my ey]; simpl; try tauto.
  intros Hx Vx Hy Vy.
  pose proof (bounded_digits _ _ Vx) as [Hdx Hex].
  pose proof (bounded_digits _ _ Vy) as [Hdy Hey].
  pose proof (dle_digits (Z.pos mx) ex (2 ^ 53) 0 ltac:(lia) ltac:(lia) Hx) as HD.
  change (Zdigits2 (2 ^ 53)) with 54 in HD.
  unfold SFdiv_core_binary.
  set (d1 := Zdigits2 (Z.pos mx)) in *. set (d2 := Zdigits2 (Z.pos my)) in *.
  assert (Hd1 : 0 < d1) by (apply Zdigits2_pos; lia).
  assert (Hd2 : 0 < d2) by (apply Zdigits2_pos; lia).
  set (e' := Z.min (fexp prec emax (d1 + ex - (d2 + ey))) (ex - ey)).
  assert (He' : e' <= 591).
  { subst e'. rewrite fexp_spec. lia. }
  assert (Hs : 0 <= ex - ey - e') by (subst e'; lia).
  set (m' := match ex - ey - e' with
             | 0 => Z.pos mx
             | Z.pos _ => Z.shiftl (Z.pos mx) (ex - ey - e')
             | Z.neg _ => 0
             end).
  assert (Hm' : m' = Z.pos mx * 2 ^ (ex - ey - e')).
  { subst m'. destruct (ex - ey - e') eqn:E; try lia.
    apply Z.shiftl_mul_pow2. lia. }
  pose proof (Z_div_mod m' (Z.pos my) ltac:(lia)) as Hdm.
  destruct (Z.div_eucl m' (Z.pos my)) as [q r]. destruct Hdm as [Hqr Hrr].
  pose proof (pow2_pos _ Hs) as Hp.
  assert (Hq : 0 <= q) by nia.
  assert (Hqm : q <= m') by nia.
  assert (B : bounded prec emax (2 ^ 52) 591 = true) by (vm_compute; reflexivity).
  assert (Hlt : dlt q e' (Z.pos (2 ^ 52)) 591).
  { destruct (Z.eq_dec q 0) as [->|Hne].
    - unfold dlt. pose proof (pow2_pos (591 - Z.min e' 591) ltac:(lia)). lia.
    - apply digits_dlt; [lia|lia|].
      change (Zdigits2 (Z.pos (2 ^ 52))) with 53.
      pose proof (Zdigits2_mono q m' ltac:(lia)) as Hmono.
      rewrite Hm', Zdigits2_shift in Hmono by lia. fold d1 in Hmono. lia. }
  pose proof (round_upper false q e' (new_location (Z.pos my) r) _ _ Hq B He' (or_introl Hlt)) as R.
  destruct (binary_round_aux prec emax false q e' _) as [s|s| |s p e]; simpl in *;
    try exact I; try (destruct R; fail).
  destruct R as [-> _]. exact I.
Qed.

(** One more token: a count that is at most [2 ^ 53] stays so, for
    [2 ^ 53 + 1] is rounded to [2 ^ 53]. *)
Lemma SFadd_one_count x :
  count_like x -> valid_binary x = true ->
  count_like (SFadd prec emax x (S754_finite false (2 ^ 52) (-52))).
Proof.
  destruct x as [[|]|[|]| |[|] m e]; simpl; try tauto;
    try (intros _ _; vm_compute; intros H; discriminate H).
  intros Hx V.
  destruct (dle_total (Z.pos m) e (2 ^ 53 - 1) 0) as [Hlow|Htop].
  - (* the sum is at most 2^53 *)
    set (ez := Z.min e (-52)).
    destruct (shl_align_spec m e ez) as [_ HA].
    destruct (shl_align_spec (2 ^ 52) (-52) ez) as [_ HB].
    replace (Z.min e ez) with ez in HA by (subst ez; lia).
    replace (Z.min (-52) ez) with ez in HB by (subst ez; lia).
    set (a := fst (shl_align m e ez)) in *. set (b := fst (shl_align (2 ^ 52) (-52) ez)) in *.
    assert (Hsum : dle (Z.pos (a + b)) ez (Z.pos (2 ^ 52)) 1).
    { apply (dle_base ez); [lia|subst ez; lia|]. rewrite Z.sub_diag, Z.mul_1_r.
      apply (dle_base ez) in Hlow; [|subst ez; lia|subst ez; lia].
      rewrite Pos2Z.inj_add, HA, HB.
      assert (Hez : 0 <= - 52 - ez) by (subst ez; lia).
      pose proof (pow2_pos _ Hez) as Hp.
      replace (0 - ez) with (52 + (-52 - ez)) in Hlow by lia.
      replace (1 - ez) with (53 + (-52 - ez)) by lia.
      rewrite pow2_split in Hlow by lia. rewrite pow2_split by lia.
      change (2 ^ 52) with 4503599627370496 in *. change (2 ^ 53) with 9007199254740992 in *.
      change (Z.pos (2 ^ 52)) with 4503599627370496. lia. }
    assert (B : bounded prec emax (2 ^ 52) 1 = true) by (vm_compute; reflexivity).
    pose proof (binary_round_upper false (a + b) ez _ _ B Hsum) as R.
    destruct (binary_round prec emax false (a + b) ez) as [s|s| |s p e'']; try exact R.
    + exact I.
    + destruct R as [-> [_ R]]. simpl.
      eapply dle_trans; [exact R|]. vm_compute; intros H; discriminate H.
  - (* the count is 2^53 *)
    pose proof (bounded_spec m e) as [Hb _]. specialize (Hb V). destruct Hb as [Hcan _].
    pose proof (dle_digits (Z.pos m) e (2 ^ 53) 0 ltac:(lia) ltac:(lia) Hx) as H1.
    pose proof (dle_digits (2 ^ 53 - 1) 0 (Z.pos m) e ltac:(lia) ltac:(lia)
                  (dlt_le _ _ _ _ Htop)) as H2.
    change (Zdigits2 (2 ^ 53)) with 54 in H1. change (Zdigits2 (2 ^ 53 - 1)) with 53 in H2.
    rewrite fexp_spec in Hcan.
    pose proof (Zdigits2_bounds (Z.pos m) ltac:(lia)) as [Hlo Hhi].
    assert (He : e = 0 \/ e = 1) by lia. destruct He as [->| ->].
    + exfalso. unfold dlt in Htop.
      change ((2 ^ 53 - 1) * 2 ^ (0 - Z.min 0 0)) with 9007199254740991 in Htop.
      change (2 ^ (0 - Z.min 0 0)) with 1 in Htop.
      replace (Zdigits2 (Z.pos m)) with 53 in Hhi by lia.
      change (2 ^ 53) with 9007199254740992 in Hhi. lia.
    + replace (Zdigits2 (Z.pos m)) with 53 in Hlo by lia.
      unfold dle in Hx.
      change (2 ^ 53 * 2 ^ (0 - Z.min 1 0)) with 9007199254740992 in Hx.
      change (2 ^ (1 - Z.min 1 0)) with 2 in Hx.
      change (2 ^ (53 - 1)) with 4503599627370496 in Hlo.
      assert (Hm : m = (2 ^ 52)%positive) by lia. subst m.
      vm_compute. intros H; discriminate H.
Qed.

End Binary64MoreFacts.

(** *** No similarity is a NaN *)

Module VectorStoreFloatFacts.
Import VectorStore Binary64 Binary64Facts Binary64MoreFacts.

Lemma one_spec : Prim2SF 1 = S754_finite false (2 ^ 52) (-52).
Proof. vm_compute. reflexivity. Qed.

Lemma zero_spec : Prim2SF 0 = S754_zero false.
Proof. vm_compute. reflexivity. Qed.

Lemma nonneg_not_nan x : nonneg (Prim2SF x) -> PrimFloat.is_nan x = false.
Proof.
  unfold PrimFloat.is_nan. rewrite FloatAxioms.eqb_spec.
  destruct (Prim2SF x) as [[|]|[|]| |[|] m e]; simpl; try tauto; intros _.
  unfold SFeqb, SFcompare. rewrite Z.compare_refl, Pos.compare_cont_refl. reflexivity.
Qed.

Lemma bump_counts v i v' :
  Forall (fun x => count_like (Prim2SF x)) v -> bump v i = Ok v' ->
  Forall (fun x => count_like (Prim2SF x)) v'.
Proof.
  intros Hv. unfold bump. destruct (PyList.index v i) as [j|]; [|discriminate].
  intros [= <-]. apply Forall_alter; [exact Hv|].
  intros x _ Hx. rewrite add_spec, one_spec.
  apply SFadd_one_count; [exact Hx|apply Prim2SF_valid].
Qed.

Lemma count_tokens_counts py_hash d ts : forall v v',
  Forall (fun x => count_like (Prim2SF x)) v ->
  count_tokens py_hash d ts v = Ok v' ->
  Forall (fun x => count_like (Prim2SF x)) v'.
Proof.
  induction ts as [|t ts IH]; intros v v' Hv; simpl.
  - intros [= <-]. exact Hv.
  - destruct (_hash py_hash d t) as [i|e]; simpl; [|discriminate].
    destruct (bump v i) as [v1|e] eqn:B; simpl; [|discriminate].
    apply IH. apply (bump_counts v i v1 Hv B).
Qed.

Lemma fold_add_nonneg l : forall acc,
  nonneg (Prim2SF acc) -> Forall (fun x => nonneg (Prim2SF x)) l ->
  nonneg (Prim2SF (fold_left PrimFloat.add l acc)).
Proof.
  induction l as [|x l IH]; intros acc Ha Hl; simpl; [exact Ha|].
  inversion Hl as [|? ? Hx Hl']; subst. apply IH; [|exact Hl'].
  rewrite add_spec. apply SFadd_nonneg; assumption.
Qed.

Lemma fsum_nonneg l :
  Forall (fun x => nonneg (Prim2SF x)) l -> nonneg (Prim2SF (fsum l)).
Proof. intros H. apply fold_add_nonneg; [rewrite zero_spec; exact I|exact H]. Qed.

(** Every entry of an embedding is zero or a positive number. *)
Lemma embed_finite py_hash d text v :
  _embed py_hash d text = Ok v -> Forall (fun x => finite_nonneg (Prim2SF x)) v.
Proof.
  unfold _embed.
  destruct (count_tokens py_hash d (tokens_of text) (repeat 0%float (Z.to_nat d)))
    as [c|e] eqn:C; simpl; [|discriminate].
  intros [= <-].
  assert (Hc : Forall (fun x => count_like (Prim2SF x)) c).
  { apply (count_tokens_counts py_hash d (tokens_of text)
             (repeat 0%float (Z.to_nat d)) c); [|exact C].
    apply List.Forall_forall. intros x Hx. apply repeat_spec in Hx. subst x.
    rewrite zero_spec. exact I. }
  set (S := fsum (map (fun x => (x * x)%float) c)).
  assert (HS : nonneg (Prim2SF S)).
  { apply fsum_nonneg. apply List.Forall_forall. intros y Hy.
    apply in_map_iff in Hy. destruct Hy as [x [<- Hx]].
    rewrite List.Forall_forall in Hc. specialize (Hc x Hx).
    rewrite mul_spec. apply SFmul_nonneg; apply count_like_finite; exact Hc. }
  set (norm := if (PrimFloat.sqrt S =? 0)%float then 1%float else PrimFloat.sqrt S).
  assert (Hn : norm_like (Prim2SF norm)).
  { subst norm. rewrite FloatAxioms.eqb_spec, zero_spec.
    pose proof (SFsqrt_rounded (Prim2SF S) HS (Prim2SF_valid S)) as R.
    rewrite <- sqrt_spec in R. destruct R as [[s R]|R].
    - rewrite R. simpl. rewrite one_spec. simpl. lia.
    - destruct (Prim2SF (PrimFloat.sqrt S)) as [[|]|[|]| |[|] m e] eqn:E; simpl in R; try tauto;
        simpl; rewrite E; simpl; exact R. }
  apply List.Forall_forall. intros y Hy.
  apply in_map_iff in Hy. destruct Hy as [x [<- Hx]].
  rewrite List.Forall_forall in Hc. specialize (Hc x Hx).
  rewrite div_spec. apply SFdiv_finite; [exact Hc|apply Prim2SF_valid|exact Hn|apply Prim2SF_valid].
Qed.

Lemma dot_nonneg q v :
  Forall (fun x => finite_nonneg (Prim2SF x)) q ->
  Forall (fun x => finite_nonneg (Prim2SF x)) v ->
  nonneg (Prim2SF (dot q v)).
Proof.
  intros Hq Hv. unfold dot. apply fsum_nonneg.
  apply List.Forall_forall. intros y Hy. apply in_map_iff in Hy.
  destruct Hy as [[a b] [<- Hab]]. simpl.
  rewrite List.Forall_forall in Hq, Hv.
  rewrite mul_spec. apply SFmul_nonneg;
    [apply Hq; exact (in_combine_l _ _ _ _ Hab)|apply Hv; exact (in_combine_r _ _ _ _ Hab)].
Qed.

(** No similarity is a NaN, in any dimension and for any [hash]. *)
Lemma similarity_not_nan py_hash d query text :
  PrimFloat.is_nan (similarity py_hash d query text) = false.
Proof.
  apply nonneg_not_nan. unfold similarity.
  destruct (_embed py_hash d query) as [q|e] eqn:Q; [|rewrite zero_spec; exact I].
  destruct (_embed py_hash d text) as [v|e] eqn:V; [|rewrite zero_spec; exact I].
  apply dot_nonneg; eapply embed_finite; eassumption.
Qed.

End VectorStoreFloatFacts.

(** *** Texts of one token *)

Module VectorStoreUnitFacts.
Import VectorStore VectorStoreUnit.
Local Open Scope float_scope.

Lemma map_seq_zeros (x : float) a n j :
  (j < a)%nat ->
  map (fun i => if (i =? j)%nat then x else 0) (seq a n) = repeat 0 n.
Proof.
  revert a. induction n as [|n IH]; intros a Hj; simpl; [reflexivity|].
  destruct (Nat.eqb_spec a j) as [E|_]; [lia|]. rewrite IH by lia. reflexivity.
Qed.

Lemma alter_zeros (f : float -> float) n : forall j a,
  (j < n)%nat ->
  alter f j (repeat 0 n) =
    map (fun i => if (i =? a + j)%nat then f 0 else 0) (seq a n).
Proof.
  induction n as [|n IH]; intros j a Hj; [lia|].
  destruct j as [|j]; simpl.
  - rewrite Nat.add_0_r, Nat.eqb_refl. f_equal. symmetry. apply map_seq_zeros. lia.
  - destruct (Nat.eqb_spec a (a + S j)) as [E|_]; [lia|]. f_equal.
    change (list_alter f j (repeat 0 n)) with (alter f j (repeat 0 n)).
    rewrite (IH j (S a)) by lia. apply map_ext. intros i.
    replace (S a + j)%nat with (a + S j)%nat by lia. reflexivity.
Qed.

Lemma fold_add_zeros_from acc (f : nat -> float) l :
  (acc + 0 = acc) -> (forall i, In i l -> f i = 0) ->
  fold_left PrimFloat.add (map f l) acc = acc.
Proof.
  intros Hacc. induction l as [|i l IH]; intros Hf; simpl; [reflexivity|].
  rewrite (Hf i) by (left; reflexivity). rewrite Hacc. apply IH.
  intros i' Hi'. apply Hf. right. exact Hi'.
Qed.

Lemma seq_split_at n j :
  (j < n)%nat -> seq 0 n = seq 0 j ++ j :: seq (S j) (n - S j).
Proof.
  intros Hj. replace n with (j + S (n - S j))%nat at 1 by lia.
  rewrite seq_app. reflexivity.
Qed.

(** The entries of a unit vector add up to 1. *)
Lemma fsum_unit n j : (j < n)%nat -> fsum (unit_vector n j) = 1.
Proof.
  intros Hj. unfold fsum, unit_vector. rewrite (seq_split_at n j Hj).
  rewrite map_app, fold_left_app. simpl. rewrite Nat.eqb_refl.
  rewrite (fold_add_zeros_from 0).
  - change (0 + 1) with 1. apply (fold_add_zeros_from 1); [reflexivity|].
    intros i Hi. apply in_seq in Hi. destruct (Nat.eqb_spec i j); [lia|reflexivity].
  - reflexivity.
  - intros i Hi. apply in_seq in Hi. destruct (Nat.eqb_spec i j); [lia|reflexivity].
Qed.

Lemma map_unit (g : float -> float) n j :
  g 0 = 0 -> g 1 = 1 -> map g (unit_vector n j) = unit_vector n j.
Proof.
  intros H0 H1. unfold unit_vector. rewrite map_map. apply map_ext.
  intros i. destruct (i =? j)%nat; assumption.
Qed.

Section WithHash.
Variable py_hash : string -> Z.

(** A text with the one token [t] is embedded as the unit vector of the
    bucket of [t]. *)
Lemma embed_single_token d text t :
  (0 < d)%Z -> tokens_of text = [t] ->
  _embed py_hash d text = Ok (unit_vector (Z.to_nat d) (Z.to_nat (py_hash t mod d))).
Proof.
  intros Hd Ht. unfold _embed. rewrite Ht. simpl count_tokens.
  unfold _hash. destruct (d =? 0)%Z eqn:E; [apply Z.eqb_eq in E; lia|]. simpl bind.
  pose proof (Z.mod_pos_bound (py_hash t) d Hd) as Hb.
  replace ((py_hash t mod d + d) mod d)%Z with (py_hash t mod d)%Z
    by (rewrite <- (Z.mul_1_l d) at 3; rewrite Z.mod_add by lia; rewrite Z.mod_mod by lia;
        reflexivity).
  set (j := Z.to_nat (py_hash t mod d)). set (n := Z.to_nat d).
  assert (Hj : (j < n)%nat) by (subst j n; lia).
  unfold bump, PyList.index. rewrite repeat_length. fold n.
  replace ((0 <=? py_hash t mod d)%Z && (py_hash t mod d <? Z.of_nat n)%Z) with true
    by (symmetry; apply andb_true_iff; split; [apply Z.leb_le|apply Z.ltb_lt]; subst n; lia).
  fold j. simpl bind.
  rewrite (alter_zeros (fun x => x + 1) n j 0 Hj). simpl Nat.add.
  change (0 + 1) with 1. fold (unit_vector n j).
  rewrite (map_unit (fun x => x * x)) by reflexivity.
  rewrite (fsum_unit n j Hj).
  change (if PrimFloat.sqrt 1 =? 0 then 1 else PrimFloat.sqrt 1) with 1.
  rewrite (map_unit (fun x => x / 1)) by reflexivity. reflexivity.
Qed.

Lemma combine_map_seq (f g : nat -> float) l :
  combine (map f l) (map g l) = map (fun i => (f i, g i)) l.
Proof. induction l as [|i l IH]; simpl; [reflexivity|]. rewrite IH. reflexivity. Qed.

(** The inner product of two unit vectors: 1 for the same bucket, 0 for two
    buckets. *)
Lemma dot_unit n j j' :
  (j < n)%nat -> dot (unit_vector n j) (unit_vector n j') = if (j =? j')%nat then 1 else 0.
Proof.
  intros Hj. unfold dot. unfold unit_vector at 1 2. rewrite combine_map_seq, map_map. simpl.
  destruct (Nat.eqb_spec j j') as [<-|Hne].
  - etransitivity; [|apply (fsum_unit n j Hj)]. unfold unit_vector. f_equal. apply map_ext.
    intros i. destruct (i =? j)%nat; reflexivity.
  - unfold fsum. apply (fold_add_zeros_from 0); [reflexivity|].
    intros i _. destruct (Nat.eqb_spec i j) as [->|_].
    + destruct (Nat.eqb_spec j j'); [contradiction|reflexivity].
    + destruct (i =? j')%nat; reflexivity.
Qed.

(** Two texts of one token each have similarity 1 when the tokens share a
    bucket and 0 when they do not. *)
Lemma similarity_single_tokens d query text tq tt :
  (0 < d)%Z -> tokens_of query = [tq] -> tokens_of text = [tt] ->
  similarity py_hash d query text =
    if (py_hash tq mod d =? py_hash tt mod d)%Z then 1 else 0.
Proof.
  intros Hd Hq Ht. unfold similarity.
  rewrite (embed_single_token d query tq Hd Hq), (embed_single_token d text tt Hd Ht).
  pose proof (Z.mod_pos_bound (py_hash tq) d Hd) as Hb.
  pose proof (Z.mod_pos_bound (py_hash tt) d Hd) as Hb'.
  rewrite dot_unit by lia.
  destruct (Z.eqb_spec (py_hash tq mod d) (py_hash tt mod d)) as [->|Hne].
  - rewrite Nat.eqb_refl. reflexivity.
  - destruct (Nat.eqb_spec (Z.to_nat (py_hash tq mod d)) (Z.to_nat (py_hash tt mod d)));
      [lia|reflexivity].
Qed.

End WithHash.

End VectorStoreUnitFacts.

(** ** The ranking of [similarity_search] *)

Module VectorStoreRankingFacts.
Import VectorStore VectorStoreFacts.




End VectorStoreRankingFacts.
